(** * healthcheck: the concurrent probing engine

    A shallow embedding of the Go packages [config], [checker] and [stats]
    of the repository, and the properties of the rate limiter, the single
    check, the retry policy, the dispatcher and the statistics reduction.

    Conventions.
    - Go's [int] and [time.Duration] are 64-bit signed integers; they are
      modelled as [Z], and every operation that can leave the 64-bit range
      is written with its two's-complement wrap-around [wrap64].
    - A [*CheckResult] is an [option CheckResult]; [None] is the nil pointer.
    - Shared state guarded by a mutex is modelled by atomic steps: every
      access happens inside the critical section.
    - What the operating system, the network and the Go scheduler decide
      (clock readings, DNS and HTTP outcomes, ticker firings) is an input of
      the model, the record [Env]; library functions whose text is not part
      of the repository ([url.Parse], [http.NewRequestWithContext],
      the formatting of durations) are fields of [Platform]. *)

From Stdlib Require Import ZArith Lia Bool PrimFloat Uint63 DecimalString Ascii.
From stdpp Require Import gmap strings list.

Local Open Scope string_scope.
Local Open Scope list_scope.
Local Open Scope Z_scope.

(** ** Machine integers and durations *)

Definition wrap64 (z : Z) : Z := (z + 2 ^ 63) mod 2 ^ 64 - 2 ^ 63.

Definition MaxInt64 : Z := 2 ^ 63 - 1.
Definition MinInt64 : Z := - 2 ^ 63.

Definition in_int64 (z : Z) : Prop := MinInt64 <= z <= MaxInt64.

Definition Millisecond : Z := 1000000.
Definition Second : Z := 1000000000.

(** [a + b] and [a * b] on [time.Duration]. *)
Definition Duration_add (a b : Z) : Z := wrap64 (a + b).
Definition Duration_mul (a b : Z) : Z := wrap64 (a * b).

(** ** package config *)

Record Config := {
  Timeout : Z;
  Concurrency : Z;
  Retries : Z;
  MaxLatency : Z;
  DomainRate : Z;
  GlobalRate : Z;
  NoColor : bool;
  Verbose : bool;
  Insecure : bool
}.

Definition DefaultConfig : Config := {|
  Timeout := 30 * Second;
  Concurrency := 10;
  Retries := 3;
  MaxLatency := 30 * Second;
  DomainRate := 5;
  GlobalRate := 50;
  NoColor := false;
  Verbose := false;
  Insecure := false
|}.

(** ** package checker: CheckResult *)

Record CheckResult := {
  URL : string;
  StatusCode : Z;
  ResponseTime : Z;
  Latency : Z;
  Error : string;
  ErrorMessage : string;
  Timestamp : Z;
  Success : bool
}.

(** ** The rate limiter

    [ticker] is not a field of the model: a firing of the ticker is the
    execution of one iteration of [resetCounter]'s loop. *)

Record rateLimiter := {
  limit : Z;
  count : Z
}.

Definition newRateLimiter (lim : Z) : rateLimiter :=
  {| limit := lim; count := 0 |}.

(** One iteration of the loop of [resetCounter] (one tick). *)
Definition resetCounter (rl : rateLimiter) : rateLimiter :=
  {| limit := limit rl; count := 0 |}.

(** [allow]: the increment happens only below [limit], so it never leaves
    the range of [int]. *)
Definition allow (rl : rateLimiter) : bool * rateLimiter :=
  if count rl <? limit rl
  then (true, {| limit := limit rl; count := count rl + 1 |})
  else (false, rl).

(** The operations that reach one limiter, in the order in which they take
    its mutex: calls of [allow] by any goroutine, and ticks. *)
Inductive limiter_op := OpAllow | OpTick.

Definition limiter_step (rl : rateLimiter) (o : limiter_op) : rateLimiter :=
  match o with
  | OpAllow => snd (allow rl)
  | OpTick => resetCounter rl
  end.

Definition limiter_run (rl : rateLimiter) (ops : list limiter_op) : rateLimiter :=
  fold_left limiter_step ops rl.

(** The answers of the [allow] calls of [ops], in order. *)
Fixpoint limiter_answers (rl : rateLimiter) (ops : list limiter_op) : list bool :=
  match ops with
  | [] => []
  | OpAllow :: ops' => fst (allow rl) :: limiter_answers (snd (allow rl)) ops'
  | OpTick :: ops' => limiter_answers (resetCounter rl) ops'
  end.

Definition granted (answers : list bool) : Z :=
  Z.of_nat (sum_list_with (fun b : bool => if b then 1%nat else 0%nat) answers).

(** Permits granted since the last tick (since creation when there was none). *)
Fixpoint granted_in_window (rl : rateLimiter) (ops : list limiter_op) (acc : Z) : Z :=
  match ops with
  | [] => acc
  | OpAllow :: ops' =>
      granted_in_window (snd (allow rl)) ops' (if fst (allow rl) then acc + 1 else acc)
  | OpTick :: ops' => granted_in_window (resetCounter rl) ops' 0
  end.

Definition tick_free (ops : list limiter_op) : Prop := OpTick ∉ ops.

(** ** Events of a run *)

Inductive Event :=
  | EvAllow (domain : option string) (ok : bool)  (* one call of allow: global (None) or per-domain *)
  | EvSleepPoll (d : Z)                           (* time.Sleep in waitForRateLimit *)
  | EvLookupHost (host : string)                  (* net.LookupHost *)
  | EvHTTPDo (url : string)                       (* httpClient.Do *)
  | EvSleepBackoff (d : Z)                        (* time.Sleep in CheckURLWithRetry *)
  | EvAttempt (r : CheckResult).                  (* a call of CheckURL returned r *)

Definition is_rate_limit_event (e : Event) : bool :=
  match e with EvAllow _ _ | EvSleepPoll _ => true | _ => false end.

Definition is_network_event (e : Event) : bool :=
  match e with EvLookupHost _ | EvHTTPDo _ => true | _ => false end.

(** ** The checker and its environment *)

Record Checker := {
  config : Config;
  domainRate : gmap string rateLimiter;
  globalRate : rateLimiter
}.

Record State := {
  checker : Checker;
  trace : list Event
}.

Inductive parse_result :=
  | ParseError (err : string)
  | Parsed (hostname : string).

Inductive do_result :=
  | DoError (err : string)
  | DoResponse (statusCode : Z) (status : string).

Record Platform := {
  url_Parse : string -> parse_result;
  (* the error of http.NewRequestWithContext(ctx, "GET", url, nil), if any *)
  http_NewRequest : string -> option string;
  (* fmt's %v on a time.Duration *)
  fmt_Duration : Z -> string
}.

(** What the world answers during one call of [CheckURL]. [global_ticks i]
    says whether the global limiter's ticker fired before the [i]-th poll of
    this call, [domain_ticks] the same for the domain's limiter. *)
Record Env := {
  now : Z;
  global_ticks : nat -> bool;
  domain_ticks : nat -> bool;
  lookup_ok : bool;
  dnsDuration : Z;
  do : do_result;
  responseTime : Z
}.

(** fmt's %d. *)
Definition fmt_d (z : Z) : string := NilZero.string_of_int (Z.to_int z).

Definition NewChecker (cfg : Config) : Checker :=
  {| config := cfg; domainRate := ∅; globalRate := newRateLimiter (GlobalRate cfg) |}.

Definition getDomainRateLimiter (c : Checker) (domain : string) : rateLimiter * Checker :=
  match domainRate c !! domain with
  | Some rl => (rl, c)
  | None =>
      let rl := newRateLimiter (DomainRate (config c)) in
      (rl, {| config := config c;
              domainRate := <[domain := rl]> (domainRate c);
              globalRate := globalRate c |})
  end.

(** [waitForRateLimit]: [fuel] bounds the number of polls; [None] is a call
    that is still polling after [fuel] polls. *)
Fixpoint waitForRateLimit (fuel : nat) (ticks : nat -> bool) (i : nat)
    (who : option string) (rl : rateLimiter) (tr : list Event)
    : option (rateLimiter * list Event) :=
  match fuel with
  | O => None
  | S fuel' =>
      let rl0 := if ticks i then resetCounter rl else rl in
      match allow rl0 with
      | (true, rl1) => Some (rl1, tr ++ [EvAllow who true])
      | (false, rl1) =>
          waitForRateLimit fuel' ticks (S i) who rl1
            (tr ++ [EvAllow who false; EvSleepPoll (100 * Millisecond)])
      end
  end.

Section WithPlatform.
Variable P : Platform.

Definition CheckURL (fuel : nat) (e : Env) (targetURL : string) (st : State)
    : option (CheckResult * State) :=
  let c := checker st in
  match url_Parse P targetURL with
  | ParseError err =>
      Some ({| URL := targetURL; StatusCode := 0; ResponseTime := 0; Latency := 0;
               Error := "invalid_url";
               ErrorMessage := "URL parse error: " +:+ err;
               Timestamp := now e; Success := false |}, st)
  | Parsed domain =>
      match waitForRateLimit fuel (global_ticks e) 0 None (globalRate c) (trace st) with
      | None => None
      | Some (g, tr1) =>
          let c1 := {| config := config c; domainRate := domainRate c; globalRate := g |} in
          let '(domainRL, c2) := getDomainRateLimiter c1 domain in
          match waitForRateLimit fuel (domain_ticks e) 0 (Some domain) domainRL tr1 with
          | None => None
          | Some (d, tr2) =>
              let c3 := {| config := config c2;
                           domainRate := <[domain := d]> (domainRate c2);
                           globalRate := globalRate c2 |} in
              let tr3 := tr2 ++ [EvLookupHost domain] in
              match http_NewRequest P targetURL with
              | Some err =>
                  Some ({| URL := targetURL; StatusCode := 0; ResponseTime := 0; Latency := 0;
                           Error := "request_error";
                           ErrorMessage := "Request creation error: " +:+ err;
                           Timestamp := now e; Success := false |},
                        {| checker := c3; trace := tr3 |})
              | None =>
                  let st' := {| checker := c3; trace := tr3 ++ [EvHTTPDo targetURL] |} in
                  let latency := Duration_add (dnsDuration e) (responseTime e) in
                  match do e with
                  | DoError err =>
                      if responseTime e >=? MaxLatency (config c)
                      then
                        Some ({| URL := targetURL; StatusCode := 0; ResponseTime := 0;
                                 Latency := latency;
                                 Error := "timeout";
                                 ErrorMessage := "Response time exceeded "
                                   +:+ fmt_Duration P (MaxLatency (config c)) +:+ ": " +:+ err;
                                 Timestamp := now e; Success := false |}, st')
                      else
                        Some ({| URL := targetURL; StatusCode := 0; ResponseTime := 0;
                                 Latency := latency;
                                 Error := "request_failed";
                                 ErrorMessage := err;
                                 Timestamp := now e; Success := false |}, st')
                  | DoResponse statusCode status =>
                      if responseTime e >? MaxLatency (config c)
                      then
                        Some ({| URL := targetURL; StatusCode := statusCode;
                                 ResponseTime := responseTime e;
                                 Latency := latency;
                                 Error := "timeout";
                                 ErrorMessage := "Response time "
                                   +:+ fmt_Duration P (responseTime e) +:+ " exceeded maximum "
                                   +:+ fmt_Duration P (MaxLatency (config c));
                                 Timestamp := now e; Success := false |}, st')
                      else if (statusCode >=? 200) && (statusCode <? 300)
                      then
                        Some ({| URL := targetURL; StatusCode := statusCode;
                                 ResponseTime := responseTime e;
                                 Latency := latency;
                                 Error := "";
                                 ErrorMessage := "";
                                 Timestamp := now e; Success := true |}, st')
                      else
                        Some ({| URL := targetURL; StatusCode := statusCode;
                                 ResponseTime := responseTime e;
                                 Latency := latency;
                                 Error := "http_error";
                                 ErrorMessage := "HTTP " +:+ fmt_d statusCode +:+ ": " +:+ status;
                                 Timestamp := now e; Success := false |}, st')
                  end
              end
          end
      end
  end.

(** The condition of the [break] in [CheckURLWithRetry]. *)
Definition stops (r : CheckResult) : bool :=
  Success r || (negb (String.eqb (Error r) "timeout")
                && negb (String.eqb (Error r) "request_failed")).

(** The loop of [CheckURLWithRetry] from the test [attempt <= Retries] on.
    [n] bounds the number of iterations; [envs k] is the environment of the
    [k]-th call of [CheckURL]. *)
Fixpoint retry_loop (n fuel : nat) (envs : nat -> Env) (targetURL : string)
    (k : nat) (attempt backoff : Z) (result : option CheckResult) (st : State)
    : option (option CheckResult * State) :=
  if attempt <=? Retries (config (checker st)) then
    match n with
    | O => None
    | S n' =>
        let '(backoff1, st1) :=
          if attempt >? 0
          then (Duration_mul backoff 2,
                {| checker := checker st; trace := trace st ++ [EvSleepBackoff backoff] |})
          else (backoff, st) in
        match CheckURL fuel (envs k) targetURL st1 with
        | None => None
        | Some (r, st2) =>
            let st3 := {| checker := checker st2; trace := trace st2 ++ [EvAttempt r] |} in
            if stops r then Some (Some r, st3)
            else retry_loop n' fuel envs targetURL (S k) (wrap64 (attempt + 1)) backoff1 (Some r) st3
        end
    end
  else Some (result, st).

Definition CheckURLWithRetry (n fuel : nat) (envs : nat -> Env) (targetURL : string)
    (st : State) : option (option CheckResult * State) :=
  retry_loop n fuel envs targetURL 0 0 (1 * Second) None st.

End WithPlatform.

(** ** The redirect policy of the HTTP client

    [CheckRedirect] is the function [NewChecker] installs in the client; it
    looks only at the number of requests made so far ([via]). *)

Definition CheckRedirect (via : list string) : option string :=
  if Z.of_nat (length via) >=? 3 then Some "stopped after 3 redirects" else None.

(** What one round trip to the server gives for a request URL. *)
Inductive send_result :=
  | SendError (err : string)
  | SendRedirect (location : string)
  | SendFinal (statusCode : Z) (status : string).

(** The redirect loop of net/http's [Client.Do], as documented by the
    library: before following a redirect it calls [CheckRedirect] with the
    requests made so far, oldest first, and returns the policy's error
    instead of issuing the request; [reqs] is returned to count the requests
    issued. [None] is a loop that has not returned after [fuel] rounds. *)
Fixpoint Client_do (fuel : nat) (send : string -> send_result) (req : string)
    (reqs : list string) : option (do_result * list string) :=
  match fuel with
  | O => None
  | S fuel' =>
      match (if (0 <? Z.of_nat (length reqs)) then CheckRedirect reqs else None) with
      | Some err => Some (DoError ("Get " +:+ req +:+ ": " +:+ err), reqs)
      | None =>
          let reqs1 := reqs ++ [req] in
          match send req with
          | SendError err => Some (DoError err, reqs1)
          | SendFinal statusCode status => Some (DoResponse statusCode status, reqs1)
          | SendRedirect location => Client_do fuel' send location reqs1
          end
      end
  end.

Definition Client_Do (send : string -> send_result) (url : string)
    : option (do_result * list string) :=
  Client_do 4 send url [].

(** The first [h] answers on the way from [url] are all redirects: the chain
    needs at least [h] hops. *)
Fixpoint needs_hops (h : nat) (send : string -> send_result) (url : string) : bool :=
  match h with
  | O => true
  | S h' =>
      match send url with
      | SendRedirect location => needs_hops h' send location
      | _ => false
      end
  end.

(** ** package stats *)

Module stats.

Record Statistics := {
  TotalRequests : Z;
  SuccessCount : Z;
  FailureCount : Z;
  SuccessRate : float;
  AvgResponseTime : Z;
  MinResponseTime : Z;
  MaxResponseTime : Z;
  AvgLatency : Z;
  MinLatency : Z;
  MaxLatency : Z;
  TotalDuration : Z
}.

(** [&Statistics{}]. *)
Definition zeroStatistics : Statistics := {|
  TotalRequests := 0; SuccessCount := 0; FailureCount := 0; SuccessRate := 0%float;
  AvgResponseTime := 0; MinResponseTime := 0; MaxResponseTime := 0;
  AvgLatency := 0; MinLatency := 0; MaxLatency := 0; TotalDuration := 0
|}.

(** [float64(n)] for a count [n]: counts are non-negative and below 2^63. *)
Definition float64_of_int (n : Z) : float := PrimFloat.of_uint63 (Uint63.of_Z n).

(** The local variables of the first loop of [CalculateStatistics]. *)
Record Tally := {
  successes : Z;
  failures : Z;
  totalResponseTime : Z;
  totalLatency : Z;
  successResponseTimes : list Z;
  successLatencies : list Z
}.

Definition tally0 : Tally := {|
  successes := 0; failures := 0; totalResponseTime := 0; totalLatency := 0;
  successResponseTimes := []; successLatencies := []
|}.

(** The first loop; [None] is the panic of [result.Success] on a nil pointer. *)
Fixpoint tally (results : list (option CheckResult)) (a : Tally) : option Tally :=
  match results with
  | [] => Some a
  | None :: _ => None
  | Some result :: rest =>
      tally rest
        (if Success result
         then {| successes := successes a + 1;
                 failures := failures a;
                 totalResponseTime := Duration_add (totalResponseTime a) (ResponseTime result);
                 totalLatency := Duration_add (totalLatency a) (Latency result);
                 successResponseTimes := successResponseTimes a ++ [ResponseTime result];
                 successLatencies := successLatencies a ++ [Latency result] |}
         else {| successes := successes a;
                 failures := failures a + 1;
                 totalResponseTime := totalResponseTime a;
                 totalLatency := totalLatency a;
                 successResponseTimes := successResponseTimes a;
                 successLatencies := successLatencies a |})
  end.

(** The loops that track the minimum and the maximum. *)
Definition min_max (l : list Z) (init : Z * Z) : Z * Z :=
  fold_left (fun '(mn, mx) x =>
               let mn1 := if x <? mn then x else mn in
               let mx1 := if x >? mx then x else mx in
               (mn1, mx1)) l init.

(** Average, minimum and maximum of a list of durations whose wrapped sum is
    [total]; all zero for the empty list. *)
Definition timing (total : Z) (l : list Z) : Z * Z * Z :=
  match l with
  | [] => (0, 0, 0)
  | x0 :: _ =>
      let '(mn, mx) := min_max l (x0, x0) in
      (Z.quot total (Z.of_nat (length l)), mn, mx)
  end.

Definition CalculateStatistics (results : list (option CheckResult)) (totalDuration : Z)
    : option Statistics :=
  if Z.of_nat (length results) =? 0 then Some zeroStatistics
  else
    match tally results tally0 with
    | None => None
    | Some a =>
        let total := Z.of_nat (length results) in
        let rate :=
          if total >? 0
          then (float64_of_int (successes a) / float64_of_int total * 100)%float
          else 0%float in
        let '(avgR, minR, maxR) := timing (totalResponseTime a) (successResponseTimes a) in
        let '(avgL, minL, maxL) := timing (totalLatency a) (successLatencies a) in
        Some {| TotalRequests := total;
                SuccessCount := successes a;
                FailureCount := failures a;
                SuccessRate := rate;
                AvgResponseTime := avgR; MinResponseTime := minR; MaxResponseTime := maxR;
                AvgLatency := avgL; MinLatency := minL; MaxLatency := maxL;
                TotalDuration := totalDuration |}
    end.

End stats.

(** ** The dispatcher

    [CheckURLs] starts one goroutine per URL. The model is the interleaving
    of their atomic steps; a task's state is the statement it executes next.
    The two channels come from the caller: a channel is the list of the
    values sent on it so far, the number of them a receiver has taken, and
    its capacity [cap(ch)]; the values in its buffer are those sent and not
    yet taken. A send completes when the buffer has room or when a receiver
    waits on the empty channel, and blocks otherwise. The steps a receiver
    takes part in are those of the actor [Receiver]; nothing obliges a
    receiver to take them. [resultChan] is not nil (a send on a nil channel
    blocks for ever and [close] panics on it). *)

Inductive task :=
  | TNotStarted                      (* its go statement has not run *)
  | TAcquire                         (* semaphore <- struct{}{} *)
  | TCheck                           (* result := c.CheckURLWithRetry(ctx, url) *)
  | TSend (r : option CheckResult)   (* resultChan <- result *)
  | TLock                            (* completedMutex.Lock() *)
  | TCount                           (* completed++ *)
  | TProgress                        (* if progressChan != nil { progressChan <- completed } *)
  | TUnlock                          (* completedMutex.Unlock() *)
  | TRelease                         (* deferred: <-semaphore *)
  | TDone.                           (* deferred: wg.Done() has run *)

(** Who executes a step: a goroutine of [CheckURLs], or one with a receiver
    of a channel. *)
Inductive actor := Program | Receiver.

Record Dispatch := {
  made : bool;                       (* the semaphore channel exists *)
  panicked : bool;                   (* make has panicked *)
  tasks : list task;
  spawned : nat;                     (* iterations of the range loop done *)
  slots : Z;                         (* elements held in the semaphore channel *)
  completed : Z;
  locked : bool;                     (* completedMutex *)
  resultChan : list (option CheckResult);
  resultRead : nat;                  (* values of resultChan taken by a receiver *)
  progressChan : list Z;
  progressRead : nat;                (* values of progressChan taken by a receiver *)
  resultClosed : bool;
  progressClosed : bool
}.

(** What a task holds or has done, by the statement it is at. *)
Definition holds_slot (t : task) : nat :=
  match t with
  | TCheck | TSend _ | TLock | TCount | TProgress | TUnlock | TRelease => 1
  | _ => 0
  end.

Definition holds_mutex (t : task) : nat :=
  match t with TCount | TProgress | TUnlock => 1 | _ => 0 end.

Definition has_sent (t : task) : nat :=
  match t with TLock | TCount | TProgress | TUnlock | TRelease | TDone => 1 | _ => 0 end.

Definition has_counted (t : task) : nat :=
  match t with TProgress | TUnlock | TRelease | TDone => 1 | _ => 0 end.

Definition has_reported (t : task) : nat :=
  match t with TUnlock | TRelease | TDone => 1 | _ => 0 end.

Definition at_progress (t : task) : nat :=
  match t with TProgress => 1 | _ => 0 end.

Definition runnable (t : task) : bool :=
  match t with
  | TCheck | TSend _ | TCount | TProgress | TUnlock | TRelease => true
  | _ => false
  end.

Definition is_TLock (t : task) : bool := match t with TLock => true | _ => false end.
Definition is_TAcquire (t : task) : bool := match t with TAcquire => true | _ => false end.

Section Dispatcher.
Variable urls : list string.
Variable concurrency : Z.            (* c.config.Concurrency *)
Variable result_cap : nat.           (* cap(resultChan) *)
Variable progress_cap : nat.         (* cap(progressChan) *)
Variable progress_nil : bool.        (* progressChan == nil *)
(* [produces u r]: a call CheckURLWithRetry(ctx, u) can return r *)
Variable produces : string -> option CheckResult -> Prop.

Definition dispatch_init : Dispatch := {|
  made := false;
  panicked := false;
  tasks := replicate (length urls) TNotStarted;
  spawned := 0;
  slots := 0;
  completed := 0;
  locked := false;
  resultChan := [];
  resultRead := 0;
  progressChan := [];
  progressRead := 0;
  resultClosed := false;
  progressClosed := false
|}.

Definition set_task (s : Dispatch) (i : nat) (t : task) : Dispatch := {|
  made := made s; panicked := panicked s;
  tasks := <[i := t]> (tasks s);
  spawned := spawned s; slots := slots s; completed := completed s; locked := locked s;
  resultChan := resultChan s; resultRead := resultRead s;
  progressChan := progressChan s; progressRead := progressRead s;
  resultClosed := resultClosed s; progressClosed := progressClosed s
|}.

Inductive dispatch_step : actor -> Dispatch -> Dispatch -> Prop :=
  (* semaphore := make(chan struct{}, c.config.Concurrency) *)
  | step_make s :
      made s = false ->
      panicked s = false ->
      0 <= concurrency ->
      dispatch_step Program s
        {| made := true; panicked := panicked s; tasks := tasks s;
           spawned := spawned s; slots := slots s; completed := completed s;
           locked := locked s; resultChan := resultChan s; resultRead := resultRead s;
           progressChan := progressChan s; progressRead := progressRead s;
           resultClosed := resultClosed s; progressClosed := progressClosed s |}
  (* make panics on a negative size: the program stops *)
  | step_make_panic s :
      made s = false ->
      panicked s = false ->
      concurrency < 0 ->
      dispatch_step Program s
        {| made := made s; panicked := true; tasks := tasks s; spawned := spawned s;
           slots := slots s; completed := completed s; locked := locked s;
           resultChan := resultChan s; resultRead := resultRead s;
           progressChan := progressChan s; progressRead := progressRead s;
           resultClosed := resultClosed s; progressClosed := progressClosed s |}
  | step_go s :
      made s = true ->
      (spawned s < length urls)%nat ->
      dispatch_step Program s
        {| made := made s; panicked := panicked s;
           tasks := <[spawned s := TAcquire]> (tasks s); spawned := S (spawned s);
           slots := slots s; completed := completed s; locked := locked s;
           resultChan := resultChan s; resultRead := resultRead s;
           progressChan := progressChan s; progressRead := progressRead s;
           resultClosed := resultClosed s; progressClosed := progressClosed s |}
  | step_acquire s i :
      tasks s !! i = Some TAcquire ->
      slots s < concurrency ->
      dispatch_step Program s
        {| made := made s; panicked := panicked s; tasks := <[i := TCheck]> (tasks s);
           spawned := spawned s; slots := slots s + 1; completed := completed s;
           locked := locked s; resultChan := resultChan s; resultRead := resultRead s;
           progressChan := progressChan s; progressRead := progressRead s;
           resultClosed := resultClosed s; progressClosed := progressClosed s |}
  | step_check s i u r :
      tasks s !! i = Some TCheck ->
      urls !! i = Some u ->
      produces u r ->
      dispatch_step Program s (set_task s i (TSend r))
  (* resultChan <- result, into the buffer *)
  | step_send s i r :
      tasks s !! i = Some (TSend r) ->
      (length (resultChan s) - resultRead s < result_cap)%nat ->
      dispatch_step Program s
        {| made := made s; panicked := panicked s; tasks := <[i := TLock]> (tasks s);
           spawned := spawned s; slots := slots s; completed := completed s;
           locked := locked s; resultChan := resultChan s ++ [r];
           resultRead := resultRead s; progressChan := progressChan s;
           progressRead := progressRead s; resultClosed := resultClosed s;
           progressClosed := progressClosed s |}
  (* resultChan <- result, to a receiver that waits on the empty channel *)
  | step_send_handoff s i r :
      tasks s !! i = Some (TSend r) ->
      resultRead s = length (resultChan s) ->
      dispatch_step Receiver s
        {| made := made s; panicked := panicked s; tasks := <[i := TLock]> (tasks s);
           spawned := spawned s; slots := slots s; completed := completed s;
           locked := locked s; resultChan := resultChan s ++ [r];
           resultRead := S (resultRead s); progressChan := progressChan s;
           progressRead := progressRead s; resultClosed := resultClosed s;
           progressClosed := progressClosed s |}
  | step_lock s i :
      tasks s !! i = Some TLock ->
      locked s = false ->
      dispatch_step Program s
        {| made := made s; panicked := panicked s; tasks := <[i := TCount]> (tasks s);
           spawned := spawned s; slots := slots s; completed := completed s;
           locked := true; resultChan := resultChan s; resultRead := resultRead s;
           progressChan := progressChan s; progressRead := progressRead s;
           resultClosed := resultClosed s; progressClosed := progressClosed s |}
  | step_count s i :
      tasks s !! i = Some TCount ->
      dispatch_step Program s
        {| made := made s; panicked := panicked s;
           tasks := <[i := TProgress]> (tasks s); spawned := spawned s;
           slots := slots s; completed := completed s + 1; locked := locked s;
           resultChan := resultChan s; resultRead := resultRead s;
           progressChan := progressChan s; progressRead := progressRead s;
           resultClosed := resultClosed s; progressClosed := progressClosed s |}
  (* the send is skipped for a nil channel, and needs room in the buffer otherwise *)
  | step_progress s i :
      tasks s !! i = Some TProgress ->
      (progress_nil = false ->
       length (progressChan s) - progressRead s < progress_cap)%nat ->
      dispatch_step Program s
        {| made := made s; panicked := panicked s; tasks := <[i := TUnlock]> (tasks s);
           spawned := spawned s; slots := slots s; completed := completed s;
           locked := locked s; resultChan := resultChan s; resultRead := resultRead s;
           progressChan := if progress_nil then progressChan s
                           else progressChan s ++ [completed s];
           progressRead := progressRead s; resultClosed := resultClosed s;
           progressClosed := progressClosed s |}
  (* progressChan <- completed, to a receiver that waits on the empty channel *)
  | step_progress_handoff s i :
      tasks s !! i = Some TProgress ->
      progress_nil = false ->
      progressRead s = length (progressChan s) ->
      dispatch_step Receiver s
        {| made := made s; panicked := panicked s; tasks := <[i := TUnlock]> (tasks s);
           spawned := spawned s; slots := slots s; completed := completed s;
           locked := locked s; resultChan := resultChan s; resultRead := resultRead s;
           progressChan := progressChan s ++ [completed s];
           progressRead := S (progressRead s); resultClosed := resultClosed s;
           progressClosed := progressClosed s |}
  | step_unlock s i :
      tasks s !! i = Some TUnlock ->
      dispatch_step Program s
        {| made := made s; panicked := panicked s;
           tasks := <[i := TRelease]> (tasks s); spawned := spawned s;
           slots := slots s; completed := completed s; locked := false;
           resultChan := resultChan s; resultRead := resultRead s;
           progressChan := progressChan s; progressRead := progressRead s;
           resultClosed := resultClosed s; progressClosed := progressClosed s |}
  | step_release s i :
      tasks s !! i = Some TRelease ->
      dispatch_step Program s
        {| made := made s; panicked := panicked s; tasks := <[i := TDone]> (tasks s);
           spawned := spawned s; slots := slots s - 1; completed := completed s;
           locked := locked s; resultChan := resultChan s; resultRead := resultRead s;
           progressChan := progressChan s; progressRead := progressRead s;
           resultClosed := resultClosed s; progressClosed := progressClosed s |}
  (* wg.Wait() has returned: close(resultChan) *)
  | step_close_result s :
      made s = true ->
      spawned s = length urls ->
      Forall (fun t => t = TDone) (tasks s) ->
      resultClosed s = false ->
      dispatch_step Program s
        {| made := made s; panicked := panicked s; tasks := tasks s;
           spawned := spawned s; slots := slots s; completed := completed s;
           locked := locked s; resultChan := resultChan s; resultRead := resultRead s;
           progressChan := progressChan s; progressRead := progressRead s;
           resultClosed := true; progressClosed := progressClosed s |}
  (* if progressChan != nil { close(progressChan) } *)
  | step_close_progress s :
      resultClosed s = true ->
      progress_nil = false ->
      progressClosed s = false ->
      dispatch_step Program s
        {| made := made s; panicked := panicked s; tasks := tasks s;
           spawned := spawned s; slots := slots s; completed := completed s;
           locked := locked s; resultChan := resultChan s; resultRead := resultRead s;
           progressChan := progressChan s; progressRead := progressRead s;
           resultClosed := resultClosed s; progressClosed := true |}
  (* a receiver takes the oldest value of the buffer of resultChan *)
  | step_recv_result s :
      (resultRead s < length (resultChan s))%nat ->
      dispatch_step Receiver s
        {| made := made s; panicked := panicked s; tasks := tasks s;
           spawned := spawned s; slots := slots s; completed := completed s;
           locked := locked s; resultChan := resultChan s;
           resultRead := S (resultRead s); progressChan := progressChan s;
           progressRead := progressRead s; resultClosed := resultClosed s;
           progressClosed := progressClosed s |}
  (* a receiver takes the oldest value of the buffer of progressChan *)
  | step_recv_progress s :
      (progressRead s < length (progressChan s))%nat ->
      dispatch_step Receiver s
        {| made := made s; panicked := panicked s; tasks := tasks s;
           spawned := spawned s; slots := slots s; completed := completed s;
           locked := locked s; resultChan := resultChan s; resultRead := resultRead s;
           progressChan := progressChan s; progressRead := S (progressRead s);
           resultClosed := resultClosed s; progressClosed := progressClosed s |}.

(** A step of a run, whoever takes it. *)
Definition dispatch_run (s s' : Dispatch) : Prop := exists who, dispatch_step who s s'.

Definition dispatch_reachable (s : Dispatch) : Prop := rtc dispatch_run dispatch_init s.

(** [CheckURLs] has returned. *)
Definition dispatch_returned (s : Dispatch) : Prop :=
  resultClosed s = true /\ (progress_nil = true \/ progressClosed s = true).

(** Statements left to execute: for one task, and for the whole call
    together with the values its receivers can still take. *)
Definition task_rank (t : task) : nat :=
  match t with
  | TNotStarted => 9 | TAcquire => 8 | TCheck => 7 | TSend _ => 6 | TLock => 5
  | TCount => 4 | TProgress => 3 | TUnlock => 2 | TRelease => 1 | TDone => 0
  end.

Definition dispatch_rank (s : Dispatch) : nat :=
  sum_list_with task_rank (tasks s)
  + (if made s then 0 else 1)
  + (if panicked s then 0 else 1)
  + (if resultClosed s then 0 else 1)
  + (if progressClosed s then 0 else 1)
  + (length (tasks s) - resultRead s)
  + (length (tasks s) - progressRead s).

(** What holds in every state of a run. *)
Record dispatch_inv (s : Dispatch) : Prop := {
  inv_length : length (tasks s) = length urls;
  inv_spawned : (spawned s <= length urls)%nat;
  inv_waiting : forall j, (spawned s <= j < length urls)%nat ->
                          tasks s !! j = Some TNotStarted;
  inv_started : forall j, (j < spawned s)%nat -> tasks s !! j <> Some TNotStarted;
  inv_slots : slots s = Z.of_nat (sum_list_with holds_slot (tasks s));
  inv_mutex : sum_list_with holds_mutex (tasks s) = if locked s then 1%nat else 0%nat;
  inv_sent : length (resultChan s) = sum_list_with has_sent (tasks s);
  inv_completed : completed s = Z.of_nat (sum_list_with has_counted (tasks s));
  inv_progress : progressChan s =
                 if progress_nil then []
                 else map Z.of_nat (seq 1 (sum_list_with has_reported (tasks s)));
  inv_result_closed : resultClosed s = true ->
                      spawned s = length urls /\ Forall (fun t => t = TDone) (tasks s);
  inv_progress_closed : progressClosed s = true ->
                        resultClosed s = true /\ progress_nil = false;
  inv_pending : forall i r, tasks s !! i = Some (TSend r) ->
                            exists u, urls !! i = Some u /\ produces u r;
  inv_results : Forall (fun r => exists u, u ∈ urls /\ produces u r) (resultChan s);
  inv_made : made s = false -> spawned s = 0%nat /\ resultClosed s = false;
  inv_panicked : panicked s = true -> made s = false /\ concurrency < 0;
  inv_result_read : (resultRead s <= length (resultChan s))%nat;
  inv_progress_read : (progressRead s <= length (progressChan s))%nat;
  inv_result_buffer : (length (resultChan s) - resultRead s <= result_cap)%nat;
  inv_progress_buffer : (length (progressChan s) - progressRead s <= progress_cap)%nat
}.

End Dispatcher.

(** ** Vocabulary of the statements *)

(** The backoff sleeps of a trace, and the results of its attempts. *)
Definition backoffs (tr : list Event) : list Z :=
  omap (fun e => match e with EvSleepBackoff d => Some d | _ => None end) tr.

Definition attempts (tr : list Event) : list CheckResult :=
  omap (fun e => match e with EvAttempt r => Some r | _ => None end) tr.

(** What the retry loop adds to a trace, without the events inside the
    attempts: backoff sleeps and returns of [CheckURL], in order. *)
Definition retry_view (tr : list Event) : list Event :=
  omap (fun e => match e with EvSleepBackoff _ | EvAttempt _ => Some e | _ => None end) tr.

(** The value of [backoff] after [i] doublings. *)
Definition backoff_at (i : nat) : Z :=
  Nat.iter i (fun b => Duration_mul b 2) (1 * Second).

(** Attempts [rs], the [i]-th being the first of them, each after the
    first attempt of the call preceded by its backoff sleep. *)
Fixpoint schedule (i : nat) (rs : list CheckResult) : list Event :=
  match rs with
  | [] => []
  | r :: rs' =>
      (match i with O => [] | S j => [EvSleepBackoff (backoff_at j)] end)
      ++ EvAttempt r :: schedule (S i) rs'
  end.

(** A result that lets the loop continue: a failure of kind timeout or
    request_failed. *)
Definition retryable (r : CheckResult) : Prop :=
  Success r = false /\ (Error r = "timeout" \/ Error r = "request_failed").

(** The ticker fires before one of the first [fuel] polls. *)
Definition fires_within (fuel : nat) (ticks : nat -> bool) : bool :=
  existsb ticks (seq 0 fuel).

Definition env_live (fuel : nat) (e : Env) : Prop :=
  fires_within fuel (global_ticks e) = true /\ fires_within fuel (domain_ticks e) = true.

(** Every limiter of the checker, and every limiter it will create, has a
    positive limit. *)
Definition limits_ok (c : Checker) : Prop :=
  1 <= limit (globalRate c) /\ 1 <= DomainRate (config c)
  /\ map_Forall (fun _ rl => 1 <= limit rl) (domainRate c).

(** The target answers a request for [url] too late, whatever it answers. *)
Definition times_out (cfg : Config) (e : Env) : Prop :=
  match do e with
  | DoError _ => MaxLatency cfg <= responseTime e
  | DoResponse _ _ => MaxLatency cfg < responseTime e
  end.

(** Events that happen inside one call of [CheckURL]. *)
Definition inner_event (e : Event) : Prop :=
  is_rate_limit_event e = true \/ is_network_event e = true.

(** The same environment with another outcome of [net.LookupHost]. *)
Definition with_lookup (e : Env) (ok : bool) : Env := {|
  now := now e; global_ticks := global_ticks e; domain_ticks := domain_ticks e;
  lookup_ok := ok;
  dnsDuration := dnsDuration e; do := do e; responseTime := responseTime e
|}.

(** A result is consistent when success comes with a 2xx status and no
    error kind. *)
Definition success_is_2xx (r : CheckResult) : Prop :=
  Success r = true -> 200 <= StatusCode r < 300 /\ Error r = "".

(** [CheckURLWithRetry(ctx, u)] can return [r]. *)
Definition returned_by (P : Platform) (u : string) (r : option CheckResult) : Prop :=
  exists n fuel envs st st', CheckURLWithRetry P n fuel envs u st = Some (r, st').

(** Statistics. *)
Definition Zsum (l : list Z) : Z := fold_right Z.add 0 l.

Definition is_min (m : Z) (l : list Z) : Prop := m ∈ l /\ forall x, x ∈ l -> m <= x.
Definition is_max (m : Z) (l : list Z) : Prop := m ∈ l /\ forall x, x ∈ l -> x <= m.

(** The successful results of a batch. *)
Definition successful (results : list CheckResult) : list CheckResult :=
  List.filter Success results.

(** ** Example inputs *)

(** A platform whose [url.Parse] rejects one string, as Go's does. *)
Definition example_platform : Platform := {|
  url_Parse := fun s =>
    if String.eqb s "http://[::1" then ParseError "missing ']' in host"
    else Parsed "example.com";
  http_NewRequest := fun _ => None;
  fmt_Duration := fun d => fmt_d d +:+ "ns"
|}.

Definition example_url : string := "https://example.com".

Definition with_retries (r : Z) : Config := {|
  Timeout := Timeout DefaultConfig; Concurrency := Concurrency DefaultConfig;
  Retries := r;
  MaxLatency := MaxLatency DefaultConfig; DomainRate := DomainRate DefaultConfig;
  GlobalRate := GlobalRate DefaultConfig; NoColor := false; Verbose := false;
  Insecure := false
|}.

Definition fresh (cfg : Config) : State := {| checker := NewChecker cfg; trace := [] |}.

Definition answering (d : do_result) (rt : Z) : Env := {|
  now := 1700000000 * Second;
  global_ticks := fun _ => true;
  domain_ticks := fun _ => true;
  lookup_ok := true;
  dnsDuration := 5 * Millisecond;
  do := d;
  responseTime := rt
|}.

Definition env_ok : Env := answering (DoResponse 200 "200 OK") (120 * Millisecond).
Definition env_late : Env := answering (DoResponse 200 "200 OK") (31 * Second).
Definition env_404 : Env := answering (DoResponse 404 "404 Not Found") (80 * Millisecond).
Definition env_timeout : Env :=
  answering (DoError "context deadline exceeded") (30 * Second).

Definition result_of (ok : bool) (rt : Z) : CheckResult := {|
  URL := example_url; StatusCode := if ok then 200 else 500;
  ResponseTime := rt; Latency := rt + 5 * Millisecond;
  Error := if ok then "" else "http_error"; ErrorMessage := "";
  Timestamp := 1700000000 * Second; Success := ok
|}.

Definition example_batch : list string := [example_url; "http://[::1"].

(** Every check of the example batch answers 200. *)
Definition example_produces (u : string) (r : option CheckResult) : Prop :=
  r = Some (result_of true (80 * Millisecond)).

(** The first URL of the example batch answers 200, the second 500. *)
Definition example_outcomes (u : string) (r : option CheckResult) : Prop :=
  r = Some (result_of (String.eqb u example_url) (80 * Millisecond)).

(** The example batch with one slot: the first task holds it and runs its
    check, the second waits at the semaphore. *)
Definition example_one_slot : Dispatch := {|
  made := true; panicked := false;
  tasks := [TCheck; TAcquire];
  spawned := 2; slots := 1; completed := 0; locked := false;
  resultChan := []; resultRead := 0;
  progressChan := []; progressRead := 0;
  resultClosed := false; progressClosed := false
|}.

(** The example batch after [CheckURLs] has returned. *)
Definition example_finished : Dispatch := {|
  made := true; panicked := false;
  tasks := [TDone; TDone];
  spawned := 2; slots := 0; completed := 2; locked := false;
  resultChan := [Some (result_of true (80 * Millisecond));
                 Some (result_of false (80 * Millisecond))];
  resultRead := 0;
  progressChan := [1; 2]; progressRead := 0;
  resultClosed := true; progressClosed := true
|}.

(** The example batch in the middle of a run with two slots: both results
    are sent and one of them is taken; the first task has counted and holds
    the mutex, the second waits for it. *)
Definition example_midrun : Dispatch := {|
  made := true; panicked := false;
  tasks := [TProgress; TLock];
  spawned := 2; slots := 2; completed := 1; locked := true;
  resultChan := [Some (result_of true (80 * Millisecond));
                 Some (result_of true (80 * Millisecond))];
  resultRead := 1;
  progressChan := []; progressRead := 0;
  resultClosed := false; progressClosed := false
|}.


(** * Further components *)

(** ** package web: the input of the handlers *)

(** [strings.Split(s, "\n")]: the pieces between the newlines, one more
    than there are newlines. *)
Fixpoint split_lines (s : string) : list string :=
  match s with
  | EmptyString => [EmptyString]
  | String c rest =>
      if Ascii.eqb c "010"%char then EmptyString :: split_lines rest
      else match split_lines rest with
           | [] => [String c EmptyString]
           | l :: ls => String c l :: ls
           end
  end.

(** [strings.Join(lines, "\n")]. *)
Fixpoint join_lines (lines : list string) : string :=
  match lines with
  | [] => ""
  | [l] => l
  | l :: ls => l +:+ String "010"%char (join_lines ls)
  end.

(** The test of the last [if] of [parseURLs]. *)
Definition has_scheme (line : string) : bool :=
  String.prefix "http://" line || String.prefix "https://" line.

Fixpoint has_newline (s : string) : bool :=
  match s with
  | EmptyString => false
  | String c rest => Ascii.eqb c "010"%char || has_newline rest
  end.

Section ParseURLs.
(* strings.TrimSpace *)
Variable TrimSpace : string -> string.

Definition parseURLs (text : string) : list string :=
  fold_left
    (fun urls line0 =>
       let line := TrimSpace line0 in
       if String.eqb line "" || String.prefix "#" line then urls
       else if has_scheme line then urls ++ [line]
       else urls)
    (split_lines text) [].

End ParseURLs.

(** [r.FormValue] of the three fields the handlers read ("" when absent). *)
Record Form := {
  form_concurrency : string;
  form_timeout : string;
  form_retries : string
}.

Section HandlerConfig.
(* the value of [v] after [var v int; fmt.Sscanf(s, "%d", &v)]: 0 when
   nothing was scanned *)
Variable Sscanf_d : string -> Z.

(** The block "設定の更新" of [handleCheck] and [handleAPICheck], which
    writes into the server's shared [Config]. *)
Definition updateConfig (cfg : Config) (f : Form) : Config :=
  let cfg1 :=
    if negb (String.eqb (form_concurrency f) "") then
      let c := Sscanf_d (form_concurrency f) in
      if c >? 0 then
        {| Timeout := Timeout cfg; Concurrency := c; Retries := Retries cfg;
           MaxLatency := MaxLatency cfg; DomainRate := DomainRate cfg;
           GlobalRate := GlobalRate cfg; NoColor := NoColor cfg;
           Verbose := Verbose cfg; Insecure := Insecure cfg |}
      else cfg
    else cfg in
  let cfg2 :=
    if negb (String.eqb (form_timeout f) "") then
      let t := Sscanf_d (form_timeout f) in
      if t >? 0 then
        {| Timeout := Duration_mul t Second; Concurrency := Concurrency cfg1;
           Retries := Retries cfg1;
           MaxLatency := Duration_mul t Second; DomainRate := DomainRate cfg1;
           GlobalRate := GlobalRate cfg1; NoColor := NoColor cfg1;
           Verbose := Verbose cfg1; Insecure := Insecure cfg1 |}
      else cfg1
    else cfg1 in
  if negb (String.eqb (form_retries f) "") then
    let r := Sscanf_d (form_retries f) in
    if r >=? 0 then
      {| Timeout := Timeout cfg2; Concurrency := Concurrency cfg2; Retries := r;
         MaxLatency := MaxLatency cfg2; DomainRate := DomainRate cfg2;
         GlobalRate := GlobalRate cfg2; NoColor := NoColor cfg2;
         Verbose := Verbose cfg2; Insecure := Insecure cfg2 |}
    else cfg2
  else cfg2.

(** The configuration after a sequence of requests, each of which updates
    the configuration left by the one before. *)
Definition config_after (cfg : Config) (requests : list Form) : Config :=
  fold_left updateConfig requests cfg.

End HandlerConfig.

(** [strings.Index(s, ":")]; [None] is -1. *)
Fixpoint Index_colon (s : string) : option nat :=
  match s with
  | EmptyString => None
  | String c rest =>
      if Ascii.eqb c ":"%char then Some 0%nat
      else match Index_colon rest with Some i => Some (S i) | None => None end
  end.

Fixpoint has_colon (s : string) : bool :=
  match s with
  | EmptyString => false
  | String c rest => Ascii.eqb c ":"%char || has_colon rest
  end.

(** [ExtractDomain]; [url_Parse] gives [parsedURL.Hostname()]. *)
Definition ExtractDomain (P : Platform) (targetURL : string) : string :=
  match url_Parse P targetURL with
  | ParseError _ => ""
  | Parsed host =>
      match Index_colon host with
      | Some idx => String.substring 0 idx host
      | None => host
      end
  end.

(** An ASCII rendering of [strings.TrimSpace], for the examples. *)
Definition is_space (c : Ascii.ascii) : bool :=
  let n := Ascii.nat_of_ascii c in
  ((9 <=? n)%nat && (n <=? 13)%nat) || (n =? 32)%nat.

Fixpoint trim_left (s : string) : string :=
  match s with
  | String c rest => if is_space c then trim_left rest else s
  | EmptyString => EmptyString
  end.

Fixpoint trim_right (s : string) : string :=
  match s with
  | EmptyString => EmptyString
  | String c rest =>
      match trim_right rest with
      | EmptyString => if is_space c then EmptyString else String c EmptyString
      | r => String c r
      end
  end.

Definition trim_ascii (s : string) : string := trim_right (trim_left s).

(** A rendering of the scan of an unsigned decimal number, for the examples:
    the value of the leading digits, 0 when there is none. *)
Fixpoint scan_digits (acc : Z) (s : string) : Z :=
  match s with
  | EmptyString => acc
  | String c rest =>
      let n := Ascii.nat_of_ascii c in
      if (48 <=? n)%nat && (n <=? 57)%nat
      then scan_digits (10 * acc + Z.of_nat (n - 48)) rest
      else acc
  end.

Definition example_Sscanf_d (s : string) : Z := scan_digits 0 s.

Definition example_form : Form :=
  {| form_concurrency := "4"; form_timeout := "15"; form_retries := "x" |}.

(** [k] polls of a limiter that were denied, each followed by its sleep. *)
Definition denied_polls (who : option string) (k : nat) : list Event :=
  concat (replicate k [EvAllow who false; EvSleepPoll (100 * Millisecond)]).

(** The error kinds a result can carry. *)
Definition error_kinds : list string :=
  [""; "invalid_url"; "request_error"; "request_failed"; "timeout"; "http_error"].

(** ** package storage: the rotation of the history *)

Module storage.

(** An entry of [os.ReadDir]: its name, whether it is a directory, and the
    modification time of [file.Info()], [None] when [Info] fails. *)
Record DirEntry := {
  Name : string;
  IsDir : bool;
  Info : option Z
}.

Record fileInfo := {
  name : string;
  modTime : Z
}.

(** The loop that fills [fileInfos]. *)
Definition collect (files : list DirEntry) : list fileInfo :=
  fold_left
    (fun fileInfos file =>
       if IsDir file then fileInfos
       else match Info file with
            | None => fileInfos
            | Some t => fileInfos ++ [{| name := Name file; modTime := t |}]
            end)
    files [].

(** The body of the inner loop: swap when [fileInfos[i]] is older. *)
Definition swap_if_before (a : list fileInfo) (i j : nat) : list fileInfo :=
  match a !! i, a !! j with
  | Some x, Some y => if modTime x <? modTime y then <[j := x]> (<[i := y]> a) else a
  | _, _ => a
  end.

(** [for j := ...; j < len(fileInfos); j++]; [fuel] bounds the iterations. *)
Fixpoint inner_loop (fuel : nat) (a : list fileInfo) (i j : nat) : list fileInfo :=
  match fuel with
  | O => a
  | S fuel' =>
      if (j <? length a)%nat then inner_loop fuel' (swap_if_before a i j) i (S j)
      else a
  end.

(** [for i := ...; i < len(fileInfos)-1; i++]. *)
Fixpoint outer_loop (fuel : nat) (a : list fileInfo) (i : nat) : list fileInfo :=
  match fuel with
  | O => a
  | S fuel' =>
      if Z.of_nat i <? Z.of_nat (length a) - 1
      then outer_loop fuel' (inner_loop (length a) a i (S i)) (S i)
      else a
  end.

Definition sortNewestFirst (a : list fileInfo) : list fileInfo :=
  outer_loop (length a) a 0.

(** The loop that removes the files from index [i] on; [remove_ok n] says
    whether [os.Remove] succeeds on the file named [n]. The result is the
    names removed and the name on which [os.Remove] failed, if any; [None]
    is an index out of range. *)
Fixpoint remove_loop (fuel : nat) (a : list fileInfo) (i : nat)
    (remove_ok : string -> bool) (removed : list string)
    : option (list string * option string) :=
  match fuel with
  | O => Some (removed, None)
  | S fuel' =>
      if (i <? length a)%nat then
        match a !! i with
        | None => None
        | Some f =>
            if remove_ok (name f)
            then remove_loop fuel' a (S i) remove_ok (removed ++ [name f])
            else Some (removed, Some (name f))
        end
      else Some (removed, None)
  end.

(** [cleanupOldResults]: [readdir] is the answer of [os.ReadDir], an error
    or the entries. *)
Definition cleanupOldResults (readdir : string + list DirEntry) (keepCount : Z)
    (remove_ok : string -> bool) : option (list string * option string) :=
  match readdir with
  | inl err => Some ([], Some err)
  | inr files =>
      let fileInfos := sortNewestFirst (collect files) in
      if Z.of_nat (length fileInfos) >? keepCount then
        if keepCount <? 0 then None
        else remove_loop (length fileInfos) fileInfos (Z.to_nat keepCount) remove_ok []
      else Some ([], None)
  end.

End storage.

(** The modification time at an index (0 outside the list). *)
Definition time_at (a : list storage.fileInfo) (p : nat) : Z :=
  match a !! p with Some x => storage.modTime x | None => 0 end.

(** Newest first. *)
Definition newest_first (a : list storage.fileInfo) : Prop :=
  forall p q, (p < q < length a)%nat -> time_at a q <= time_at a p.

(** More example inputs. *)

(** A configuration whose global rate limit is 0. *)
Definition blocked_config : Config := {|
  Timeout := 30 * Second; Concurrency := 10; Retries := 3;
  MaxLatency := 30 * Second; DomainRate := 5; GlobalRate := 0;
  NoColor := false; Verbose := false; Insecure := false
|}.

(** A server that redirects /a to /b, /b to /c, /c to /d and answers /d. *)
Definition example_chain (u : string) : send_result :=
  if String.eqb u "http://h/a" then SendRedirect "http://h/b"
  else if String.eqb u "http://h/b" then SendRedirect "http://h/c"
  else if String.eqb u "http://h/c" then SendRedirect "http://h/d"
  else SendFinal 200 "200 OK".

(** A results directory: three result files and a directory. *)
Definition example_dir : list storage.DirEntry := [
  {| storage.Name := "results_20240101_000000.json"; storage.IsDir := false;
     storage.Info := Some 100 |};
  {| storage.Name := "archive"; storage.IsDir := true; storage.Info := Some 500 |};
  {| storage.Name := "results_20240103_000000.json"; storage.IsDir := false;
     storage.Info := Some 300 |};
  {| storage.Name := "results_20240102_000000.json"; storage.IsDir := false;
     storage.Info := Some 200 |}
].

(** * Properties *)

(** ** The rate limiter *)

Lemma allow_limit rl : limit (snd (allow rl)) = limit rl.
Proof. unfold allow. destruct (count rl <? limit rl); reflexivity. Qed.

Lemma allow_spec rl :
  (fst (allow rl) = true /\ count rl < limit rl /\ count (snd (allow rl)) = count rl + 1)
  \/ (fst (allow rl) = false /\ limit rl <= count rl /\ snd (allow rl) = rl).
Proof.
  unfold allow. destruct (Z.ltb_spec (count rl) (limit rl)); simpl; [left | right];
    repeat split; try reflexivity; lia.
Qed.

Lemma limiter_step_limit rl o : limit (limiter_step rl o) = limit rl.
Proof. destruct o; simpl; [apply allow_limit | reflexivity]. Qed.

Lemma limiter_run_limit ops : forall rl, limit (limiter_run rl ops) = limit rl.
Proof.
  unfold limiter_run. induction ops as [|o ops IH]; intros rl; simpl; [reflexivity|].
  rewrite IH. apply limiter_step_limit.
Qed.

Lemma limiter_step_bound rl o :
  0 <= count rl <= Z.max (limit rl) 0 ->
  0 <= count (limiter_step rl o) <= Z.max (limit (limiter_step rl o)) 0.
Proof.
  intros H. rewrite limiter_step_limit. destruct o; simpl; [|lia].
  destruct (allow_spec rl) as [(_ & Hlt & ->) | (_ & _ & ->)]; lia.
Qed.

Lemma limiter_run_bound ops : forall rl,
  0 <= count rl <= Z.max (limit rl) 0 ->
  0 <= count (limiter_run rl ops) <= Z.max (limit rl) 0.
Proof.
  unfold limiter_run. induction ops as [|o ops IH]; intros rl H; simpl; [exact H|].
  rewrite <- (limiter_step_limit rl o). apply IH, limiter_step_bound, H.
Qed.

Lemma limiter_run_window ops : forall rl,
  count (limiter_run rl ops) = granted_in_window rl ops (count rl).
Proof.
  unfold limiter_run. induction ops as [|o ops IH]; intros rl; simpl; [reflexivity|].
  destruct o; simpl; rewrite IH.
  - destruct (allow_spec rl) as [(-> & _ & ->) | (-> & _ & ->)]; reflexivity.
  - reflexivity.
Qed.

Lemma limiter_run_app rl ops1 ops2 :
  limiter_run rl (ops1 ++ ops2) = limiter_run (limiter_run rl ops1) ops2.
Proof. unfold limiter_run. apply fold_left_app. Qed.

Lemma tick_free_count w : forall rl,
  tick_free w ->
  granted (limiter_answers rl w) = count (limiter_run rl w) - count rl.
Proof.
  unfold tick_free, granted, limiter_run.
  induction w as [|o w IH]; intros rl Hfree; simpl; [lia|].
  destruct o; [|exfalso; apply Hfree; left].
  simpl. rewrite Nat2Z.inj_add, IH by (intros Hin; apply Hfree; right; exact Hin).
  destruct (allow_spec rl) as [(-> & _ & ->) | (-> & _ & ->)]; simpl; lia.
Qed.

Lemma no_permit_nonpositive ops : forall rl,
  limit rl <= 0 -> 0 <= count rl ->
  granted (limiter_answers rl ops) = 0.
Proof.
  unfold granted. induction ops as [|o ops IH]; intros rl HL Hc; simpl; [reflexivity|].
  destruct o; simpl.
  - destruct (allow_spec rl) as [(_ & Hlt & _) | (-> & _ & ->)]; [lia|].
    simpl. apply IH; assumption.
  - apply IH; simpl; [assumption | lia].
Qed.

(** C3. Every access to a limiter takes its mutex, so a concurrent run is a
    sequence [ops] of [allow] calls and ticks. For a limiter created with
    limit [L], after any such run: the limit is [L]; the counter is the
    number of permits granted since the last tick and lies between 0 and
    [max L 0]; the next [allow] grants exactly when fewer than [L] permits
    were granted in the current window; a tick brings the limiter back to
    its initial state (no carryover); with [L <= 0] no permit is ever
    granted; and in any stretch of the run without a tick at most
    [max L 0] permits are granted, at most [L] when [0 <= L]. *)
Theorem rate_limiter_window (L : Z) (ops : list limiter_op) :
  let rl0 := newRateLimiter L in
  let rl := limiter_run rl0 ops in
  limit rl = L
  /\ count rl = granted_in_window rl0 ops 0
  /\ 0 <= count rl <= Z.max L 0
  /\ (fst (allow rl) = true <-> granted_in_window rl0 ops 0 < L)
  /\ limiter_run rl0 (ops ++ [OpTick]) = rl0
  /\ (L <= 0 -> granted (limiter_answers rl0 ops) = 0)
  /\ (forall pre w, ops = pre ++ w -> tick_free w ->
        granted (limiter_answers (limiter_run rl0 pre) w) <= Z.max L 0
        /\ (0 <= L -> granted (limiter_answers (limiter_run rl0 pre) w) <= L)).
Proof.
  intros rl0 rl.
  assert (Hlim : limit rl = L) by apply limiter_run_limit.
  assert (Hwin : count rl = granted_in_window rl0 ops 0) by apply limiter_run_window.
  assert (Hb : 0 <= count rl <= Z.max L 0)
    by (apply (limiter_run_bound ops rl0); simpl; lia).
  repeat split; try assumption; try lia.
  - intros Hallow. rewrite <- Hwin, <- Hlim.
    destruct (allow_spec rl) as [(_ & Hlt & _) | (Hf & _ & _)]; [exact Hlt | congruence].
  - intros Hlt. rewrite <- Hwin, <- Hlim in Hlt.
    destruct (allow_spec rl) as [(Ht & _ & _) | (_ & Hge & _)]; [exact Ht | lia].
  - rewrite limiter_run_app. fold rl. simpl. unfold resetCounter, rl0, newRateLimiter.
    rewrite Hlim. reflexivity.
  - intros HL. apply no_permit_nonpositive; simpl; lia.
  - subst ops. rewrite tick_free_count by assumption.
    rewrite <- limiter_run_app. fold rl.
    pose proof (limiter_run_bound pre rl0) as Hpre. simpl in Hpre. lia.
  - intros HL. subst ops. rewrite tick_free_count by assumption.
    rewrite <- limiter_run_app. fold rl.
    pose proof (limiter_run_bound pre rl0) as Hpre. simpl in Hpre. lia.
Qed.

(** ** A single check *)


Lemma inner_events_invisible ev :
  Forall inner_event ev -> retry_view ev = [] /\ backoffs ev = [] /\ attempts ev = [].
Proof.
  induction 1 as [|e ev He _ IH]; [done|].
  destruct IH as (IH1 & IH2 & IH3).
  unfold retry_view, backoffs, attempts in *.
  destruct e, He as [He|He]; simpl in He; try discriminate; cbn; done.
Qed.

Lemma waitForRateLimit_inv fuel ticks who : forall i rl tr rl' tr',
  waitForRateLimit fuel ticks i who rl tr = Some (rl', tr') ->
  limit rl' = limit rl /\ exists ev, tr' = tr ++ ev /\ Forall inner_event ev.
Proof.
  induction fuel as [|fuel IH]; intros i rl tr rl' tr' H; simpl in H; [discriminate|].
  set (rl0 := if ticks i then resetCounter rl else rl) in H.
  assert (Hl0 : limit rl0 = limit rl) by (unfold rl0; destruct (ticks i); reflexivity).
  pose proof (allow_limit rl0) as Hl1.
  destruct (allow rl0) as [[|] rl1]; simpl in Hl1.
  - inversion H; subst. split; [congruence|].
    eexists; split; [reflexivity|]. constructor; [left; reflexivity | constructor].
  - apply IH in H as (Hl & ev & -> & Hev). split; [congruence|].
    eexists; split; [rewrite <- app_assoc; reflexivity|].
    apply Forall_app; split; [|exact Hev].
    constructor; [left; reflexivity|]. constructor; [left; reflexivity | constructor].
Qed.

Lemma waitForRateLimit_returns fuel ticks who : forall i rl tr,
  1 <= limit rl ->
  existsb ticks (seq i fuel) = true ->
  exists rl' tr', waitForRateLimit fuel ticks i who rl tr = Some (rl', tr').
Proof.
  induction fuel as [|fuel IH]; intros i rl tr Hlim Hticks; simpl in Hticks; [discriminate|].
  simpl. destruct (ticks i) eqn:Hi.
  - unfold allow, resetCounter. simpl.
    destruct (Z.ltb_spec 0 (limit rl)); [|lia]. eauto.
  - simpl in Hticks.
    pose proof (allow_limit rl) as Hl1.
    destruct (allow rl) as [[|] rl1]; simpl in Hl1; [eauto|].
    apply IH; [lia | exact Hticks].
Qed.

Lemma getDomainRateLimiter_inv c domain rl c' :
  getDomainRateLimiter c domain = (rl, c') ->
  config c' = config c /\ globalRate c' = globalRate c
  /\ domainRate c' !! domain = Some rl
  /\ (limits_ok c -> limits_ok c' /\ 1 <= limit rl).
Proof.
  unfold getDomainRateLimiter, limits_ok.
  destruct (domainRate c !! domain) as [rl0|] eqn:Hd; intros H; inversion H; subst; simpl.
  - do 3 (split; [done|]). intros (H1 & H2 & Hall).
    split; [done|]. exact (Hall _ _ Hd).
  - rewrite lookup_insert_eq. do 3 (split; [done|]). intros (H1 & H2 & Hall).
    split; [|done]. do 2 (split; [done|]). apply map_Forall_insert_2; done.
Qed.

Section CheckURLFacts.
Variable P : Platform.

(** What every returning call of [CheckURL] does to the state. *)
Lemma CheckURL_state fuel e url st r st' :
  CheckURL P fuel e url st = Some (r, st') ->
  config (checker st') = config (checker st)
  /\ (limits_ok (checker st) -> limits_ok (checker st'))
  /\ exists ev, trace st' = trace st ++ ev /\ Forall inner_event ev.
Proof.
  unfold CheckURL. intros H.
  destruct (url_Parse P url) as [err|domain].
  { inversion H; subst. do 2 (split; [done|]). exists []. by rewrite app_nil_r. }
  destruct (waitForRateLimit fuel (global_ticks e) 0 None _ _) as [[g tr1]|] eqn:Hg;
    [|discriminate].
  apply waitForRateLimit_inv in Hg as (Hgl & ev1 & -> & Hev1).
  destruct (getDomainRateLimiter _ domain) as [domainRL c2] eqn:Hget.
  apply getDomainRateLimiter_inv in Hget as (Hc2 & Hg2 & _ & Hok2). simpl in *.
  destruct (waitForRateLimit fuel (domain_ticks e) 0 (Some domain) _ _) as [[d tr2]|] eqn:Hd;
    [|discriminate].
  apply waitForRateLimit_inv in Hd as (Hdl & ev2 & -> & Hev2).
  assert (Hlim : limits_ok (checker st) ->
      limits_ok {| config := config c2; domainRate := <[domain:=d]> (domainRate c2);
                   globalRate := globalRate c2 |}).
  { intros (H1 & H2 & H3). destruct Hok2 as [(H1' & H2' & H3') Hrl].
    { unfold limits_ok; simpl. rewrite Hgl. done. }
    unfold limits_ok; simpl. repeat split; try done.
    apply map_Forall_insert_2; [lia | done]. }
  assert (Hfin : forall r0 tr0 ev0,
     Forall inner_event ev0 ->
     tr0 = trace st ++ ev1 ++ ev2 ++ EvLookupHost domain :: ev0 ->
     Some (r0, {| checker := {| config := config c2;
                               domainRate := <[domain:=d]> (domainRate c2);
                               globalRate := globalRate c2 |};
                  trace := tr0 |}) = Some (r, st') ->
     config (checker st') = config (checker st)
     /\ (limits_ok (checker st) -> limits_ok (checker st'))
     /\ exists ev, trace st' = trace st ++ ev /\ Forall inner_event ev).
  { intros r0 tr0 ev0 Hev0 -> Heq. inversion Heq; subst; simpl. do 2 (split; [done|]).
    eexists; split; [reflexivity|].
    do 2 (apply Forall_app; split; [assumption|]).
    constructor; [right; reflexivity | exact Hev0]. }
  assert (Hdo : Forall inner_event [EvHTTPDo url])
    by (constructor; [right; reflexivity | constructor]).
  assert (Htr : forall ev0, (((trace st ++ ev1) ++ ev2) ++ [EvLookupHost domain]) ++ ev0
                            = trace st ++ ev1 ++ ev2 ++ EvLookupHost domain :: ev0)
    by (intros ev0; rewrite <- !app_assoc; reflexivity).
  destruct (http_NewRequest P url) as [err|].
  { eapply (Hfin _ _ []); [constructor | | exact H]. rewrite <- (Htr []), app_nil_r. reflexivity. }
  destruct (do e) as [err|sc status].
  - destruct (responseTime e >=? _); eapply (Hfin _ _ _ Hdo (Htr _)); exact H.
  - destruct (responseTime e >? _); [eapply (Hfin _ _ _ Hdo (Htr _)); exact H|].
    destruct ((sc >=? 200) && (sc <? 300)); eapply (Hfin _ _ _ Hdo (Htr _)); exact H.
Qed.

(** With positive limits and tickers that fire, a call returns. *)
Lemma CheckURL_returns fuel e url st :
  limits_ok (checker st) -> env_live fuel e ->
  exists r st', CheckURL P fuel e url st = Some (r, st').
Proof.
  intros Hok [Hg Hd]. unfold CheckURL.
  destruct (url_Parse P url) as [err|domain]; [eauto|].
  destruct Hok as (H1 & H2 & H3).
  destruct (waitForRateLimit_returns fuel (global_ticks e) None 0 (globalRate (checker st))
              (trace st) H1 Hg) as (g & tr1 & Hwg).
  rewrite Hwg.
  destruct (getDomainRateLimiter _ domain) as [domainRL c2] eqn:Hget.
  apply getDomainRateLimiter_inv in Hget as (_ & _ & _ & Hok2).
  destruct Hok2 as [_ Hrl].
  { unfold limits_ok; simpl. apply waitForRateLimit_inv in Hwg as [-> _]. done. }
  destruct (waitForRateLimit_returns fuel (domain_ticks e) (Some domain) 0 domainRL tr1 Hrl Hd)
    as (d & tr2 & Hwd).
  rewrite Hwd.
  destruct (http_NewRequest P url); [eauto|].
  destruct (do e).
  - destruct (responseTime e >=? _); eauto.
  - destruct (responseTime e >? _); [eauto|].
    destruct ((statusCode >=? 200) && (statusCode <? 300)); eauto.
Qed.

End CheckURLFacts.

Section Classification.
Variable P : Platform.

(** The result of a call that got past URL parsing and request creation. *)
Lemma CheckURL_result fuel e url st r st' domain :
  CheckURL P fuel e url st = Some (r, st') ->
  url_Parse P url = Parsed domain ->
  http_NewRequest P url = None ->
  let cfg := config (checker st) in
  URL r = url /\ Timestamp r = now e
  /\ Latency r = Duration_add (dnsDuration e) (responseTime e)
  /\ EvLookupHost domain ∈ trace st' /\ EvHTTPDo url ∈ trace st'
  /\ match do e with
     | DoError err =>
         Success r = false /\ StatusCode r = 0 /\ ResponseTime r = 0
         /\ if responseTime e >=? MaxLatency cfg
            then Error r = "timeout"
            else Error r = "request_failed" /\ ErrorMessage r = err
     | DoResponse sc status =>
         StatusCode r = sc /\ ResponseTime r = responseTime e
         /\ if responseTime e >? MaxLatency cfg
            then Success r = false /\ Error r = "timeout"
            else if (sc >=? 200) && (sc <? 300)
            then Success r = true /\ Error r = "" /\ ErrorMessage r = ""
            else Success r = false /\ Error r = "http_error"
                 /\ ErrorMessage r = "HTTP " +:+ fmt_d sc +:+ ": " +:+ status
     end.
Proof.
  unfold CheckURL. intros H Hparse Hreq. rewrite Hparse in H.
  destruct (waitForRateLimit fuel (global_ticks e) 0 None _ _) as [[g tr1]|]; [|discriminate].
  destruct (getDomainRateLimiter _ domain) as [domainRL c2].
  destruct (waitForRateLimit fuel (domain_ticks e) 0 (Some domain) _ _) as [[d tr2]|];
    [|discriminate].
  rewrite Hreq in H. simpl.
  assert (Hl : forall tr, EvLookupHost domain ∈ (tr ++ [EvLookupHost domain]) ++ [EvHTTPDo url])
    by (intros; set_solver).
  assert (Hh : forall tr, EvHTTPDo url ∈ (tr ++ [EvLookupHost domain]) ++ [EvHTTPDo url])
    by (intros; set_solver).
  destruct (do e) as [err|sc status].
  - destruct (responseTime e >=? _); inversion H; subst; simpl; auto 10.
  - destruct (responseTime e >? _); [inversion H; subst; simpl; auto 10|].
    destruct ((sc >=? 200) && (sc <? 300)); inversion H; subst; simpl; auto 10.
Qed.

(** C2. An attempt whose URL parses and whose request is created (with
    limiters that let it through) returns a result classified by what the
    round trip gave: a transport error is [request_failed], or [timeout]
    when the elapsed time has reached MaxLatency; a response that came
    after more than MaxLatency is [timeout], with the status code and the
    response time of the response recorded; a response within the bound is
    a success without error kind when its status is in [200,300), and
    otherwise [http_error] with the code and the status text in the detail. *)
Theorem check_classification fuel e url st domain :
  url_Parse P url = Parsed domain ->
  http_NewRequest P url = None ->
  limits_ok (checker st) ->
  env_live fuel e ->
  let cfg := config (checker st) in
  exists r st',
    CheckURL P fuel e url st = Some (r, st')
    /\ (forall err, do e = DoError err ->
          Success r = false
          /\ (responseTime e < MaxLatency cfg -> Error r = "request_failed")
          /\ (MaxLatency cfg <= responseTime e -> Error r = "timeout"))
    /\ (forall sc status, do e = DoResponse sc status ->
          (MaxLatency cfg < responseTime e ->
             Success r = false /\ Error r = "timeout"
             /\ StatusCode r = sc /\ ResponseTime r = responseTime e)
          /\ (responseTime e <= MaxLatency cfg -> 200 <= sc < 300 ->
             Success r = true /\ Error r = "" /\ StatusCode r = sc)
          /\ (responseTime e <= MaxLatency cfg -> ~ (200 <= sc < 300) ->
             Success r = false /\ Error r = "http_error" /\ StatusCode r = sc
             /\ ErrorMessage r = "HTTP " +:+ fmt_d sc +:+ ": " +:+ status)).
Proof.
  intros Hparse Hreq Hok Hlive cfg.
  destruct (CheckURL_returns P fuel e url st Hok Hlive) as (r & st' & Hrun).
  exists r, st'. split; [exact Hrun|].
  destruct (CheckURL_result _ _ _ _ _ _ _ Hrun Hparse Hreq) as (_ & _ & _ & _ & _ & Hcls).
  fold cfg in Hcls. split.
  - intros err Hdo. rewrite Hdo in Hcls. destruct Hcls as (Hs & _ & _ & Hk).
    split; [exact Hs|].
    destruct (Z.geb_spec (responseTime e) (MaxLatency cfg)); split; intros; try lia; tauto.
  - intros sc status Hdo. rewrite Hdo in Hcls. destruct Hcls as (Hsc & Hrt & Hk).
    destruct (Z.gtb_spec (responseTime e) (MaxLatency cfg)).
    { repeat split; intros; try lia; tauto. }
    destruct (Z.geb_spec sc 200), (Z.ltb_spec sc 300); simpl in Hk;
      repeat split; intros; try lia; tauto.
Qed.

End Classification.

(** ** The retry policy *)

Lemma wrap64_small z : in_int64 z -> wrap64 z = z.
Proof.
  unfold in_int64, MinInt64, MaxInt64, wrap64. intros H.
  rewrite Z.mod_small; lia.
Qed.

Lemma backoff_at_exact i : (i < 34)%nat -> backoff_at i = 2 ^ Z.of_nat i * Second.
Proof.
  intros H. do 34 (destruct i as [|i]; [vm_compute; reflexivity|]). lia.
Qed.

Lemma backoff_at_S i : backoff_at (S i) = Duration_mul (backoff_at i) 2.
Proof. reflexivity. Qed.

Lemma wrap64_mul_l a b : wrap64 (wrap64 a * b) = wrap64 (a * b).
Proof.
  unfold wrap64. f_equal.
  rewrite (Z.mod_eq (a + 2 ^ 63) (2 ^ 64)) by lia.
  replace ((a + 2 ^ 63 - 2 ^ 64 * ((a + 2 ^ 63) / 2 ^ 64) - 2 ^ 63) * b + 2 ^ 63)
    with (a * b + 2 ^ 63 + (- ((a + 2 ^ 63) / 2 ^ 64) * b) * 2 ^ 64) by ring.
  apply Z_mod_plus_full.
Qed.

(** The doubled delay in closed form: the 64-bit two's complement value of
    [2^i] seconds. *)
Lemma backoff_at_wrap i : backoff_at i = wrap64 (2 ^ Z.of_nat i * Second).
Proof.
  induction i as [|i IH]; [reflexivity|].
  rewrite backoff_at_S, IH. unfold Duration_mul. rewrite wrap64_mul_l. f_equal.
  rewrite Nat2Z.inj_succ, Z.pow_succ_r by lia. ring.
Qed.

Lemma stops_false r : stops r = false -> retryable r.
Proof.
  unfold stops, retryable. intros H.
  apply orb_false_iff in H as [Hs H]. split; [exact Hs|].
  apply andb_false_iff in H as [H|H]; apply negb_false_iff, String.eqb_eq in H; auto.
Qed.

Lemma retryable_stops r : retryable r -> stops r = false.
Proof.
  unfold stops, retryable. intros [-> [-> | ->]]; reflexivity.
Qed.

Lemma retry_view_app tr1 tr2 : retry_view (tr1 ++ tr2) = retry_view tr1 ++ retry_view tr2.
Proof. apply omap_app. Qed.

Lemma backoffs_retry_view tr : backoffs (retry_view tr) = backoffs tr.
Proof.
  unfold backoffs, retry_view. induction tr as [|e tr IH]; [done|].
  destruct e; cbn; rewrite ?IH; done.
Qed.

Lemma attempts_retry_view tr : attempts (retry_view tr) = attempts tr.
Proof.
  unfold attempts, retry_view. induction tr as [|e tr IH]; [done|].
  destruct e; cbn; rewrite ?IH; done.
Qed.

Lemma backoffs_schedule rs : forall i,
  backoffs (schedule (S i) rs) = map backoff_at (seq i (length rs)).
Proof.
  induction rs as [|r rs IH]; intros i; [done|].
  cbn [schedule length seq map]. unfold backoffs in *. cbn. rewrite IH. done.
Qed.

Lemma attempts_schedule rs : forall i, attempts (schedule i rs) = rs.
Proof.
  induction rs as [|r rs IH]; intros i; [done|].
  cbn [schedule]. unfold attempts in *. destruct i; cbn; rewrite IH; done.
Qed.

Lemma schedule_cons i r rs : schedule i (r :: rs) = schedule i [r] ++ schedule (S i) rs.
Proof. cbn [schedule]. rewrite <- app_assoc. reflexivity. Qed.

Section RetryFacts.
Variable P : Platform.

Lemma retry_loop_eq n fuel envs url k attempt backoff result st :
  retry_loop P n fuel envs url k attempt backoff result st =
  if attempt <=? Retries (config (checker st)) then
    match n with
    | O => None
    | S n' =>
        let '(backoff1, st1) :=
          if attempt >? 0
          then (Duration_mul backoff 2,
                {| checker := checker st; trace := trace st ++ [EvSleepBackoff backoff] |})
          else (backoff, st) in
        match CheckURL P fuel (envs k) url st1 with
        | None => None
        | Some (r, st2) =>
            let st3 := {| checker := checker st2; trace := trace st2 ++ [EvAttempt r] |} in
            if stops r then Some (Some r, st3)
            else retry_loop P n' fuel envs url (S k) (wrap64 (attempt + 1)) backoff1 (Some r) st3
        end
    end
  else Some (result, st).
Proof. destruct n; reflexivity. Qed.

Lemma retry_loop_exit n fuel envs url k attempt backoff result st :
  Retries (config (checker st)) < attempt ->
  retry_loop P n fuel envs url k attempt backoff result st = Some (result, st).
Proof.
  intros H. rewrite retry_loop_eq.
  destruct (Z.leb_spec attempt (Retries (config (checker st)))); [lia | reflexivity].
Qed.

(** The loop from its [k]-th iteration on. *)
Lemma retry_loop_spec fuel envs url :
  (forall j, env_live fuel (envs j)) ->
  forall n k result st,
  Retries (config (checker st)) < MaxInt64 ->
  Z.of_nat k <= Retries (config (checker st)) ->
  (Z.to_nat (Retries (config (checker st))) - k < n)%nat ->
  limits_ok (checker st) ->
  exists init res st',
    retry_loop P n fuel envs url k (Z.of_nat k) (backoff_at (pred k)) result st
      = Some (Some res, st')
    /\ config (checker st') = config (checker st)
    /\ (length init <= Z.to_nat (Retries (config (checker st))) - k)%nat
    /\ Forall retryable init
    /\ ((length init < Z.to_nat (Retries (config (checker st))) - k)%nat -> stops res = true)
    /\ retry_view (trace st') = retry_view (trace st) ++ schedule k (init ++ [res])
    /\ (forall i ri, (init ++ [res]) !! i = Some ri ->
          exists s1 s2, CheckURL P fuel (envs (k + i)%nat) url s1 = Some (ri, s2)
                        /\ config (checker s1) = config (checker st)).
Proof.
  intros Hlive. induction n as [|n IH]; intros k result st Hmax Hk Hn Hok; [lia|].
  rewrite retry_loop_eq.
  destruct (Z.leb_spec (Z.of_nat k) (Retries (config (checker st)))) as [_|]; [|lia].
  set (st1 := if Z.of_nat k >? 0
              then {| checker := checker st;
                      trace := trace st ++ [EvSleepBackoff (backoff_at (pred k))] |}
              else st).
  set (backoff1 := if Z.of_nat k >? 0 then Duration_mul (backoff_at (pred k)) 2
                   else backoff_at (pred k)).
  assert (Hpair : (if Z.of_nat k >? 0
                   then (Duration_mul (backoff_at (pred k)) 2,
                         {| checker := checker st;
                            trace := trace st ++ [EvSleepBackoff (backoff_at (pred k))] |})
                   else (backoff_at (pred k), st)) = (backoff1, st1))
    by (unfold backoff1, st1; destruct (Z.of_nat k >? 0); reflexivity).
  rewrite Hpair. clear Hpair.
  assert (Hchk1 : checker st1 = checker st)
    by (unfold st1; destruct (Z.of_nat k >? 0); reflexivity).
  assert (Hview1 : retry_view (trace st1)
                   = retry_view (trace st)
                     ++ match k with O => [] | S j => [EvSleepBackoff (backoff_at j)] end).
  { unfold st1. destruct k as [|j]; simpl; [by rewrite app_nil_r|].
    rewrite retry_view_app. reflexivity. }
  assert (Hb1 : backoff1 = backoff_at k).
  { unfold backoff1. destruct k as [|j]; [reflexivity|].
    replace (Z.of_nat (S j) >? 0) with true by (symmetry; apply Z.gtb_lt; lia).
    reflexivity. }
  destruct (CheckURL_returns P fuel (envs k) url st1) as (r & st2 & Hrun);
    [rewrite Hchk1; exact Hok | apply Hlive |].
  rewrite Hrun.
  destruct (CheckURL_state P _ _ _ _ _ _ Hrun) as (Hcfg2 & Hok2 & ev & Htr2 & Hev).
  rewrite Hchk1 in Hcfg2, Hok2.
  destruct (inner_events_invisible ev Hev) as (Hrv & _ & _).
  set (st3 := {| checker := checker st2; trace := trace st2 ++ [EvAttempt r] |}).
  assert (Hview3 : retry_view (trace st3) = retry_view (trace st) ++ schedule k [r]).
  { unfold st3; simpl. rewrite retry_view_app, Htr2, retry_view_app, Hrv, Hview1, app_nil_r.
    rewrite <- app_assoc. reflexivity. }
  assert (Hfrom : exists s1 s2, CheckURL P fuel (envs (k + 0)%nat) url s1 = Some (r, s2)
                                /\ config (checker s1) = config (checker st)).
  { exists st1, st2. rewrite Nat.add_0_r, Hchk1. done. }
  destruct (stops r) eqn:Hstop.
  { exists [], r, st3. simpl. repeat split; try done; try lia.
    intros [|i] ri Hi; simpl in Hi; [|discriminate]. inversion Hi; subst. exact Hfrom. }
  destruct (Z.leb_spec (Z.of_nat (S k)) (Retries (config (checker st)))) as [Hle|Hgt].
  - destruct (IH (S k) (Some r) st3) as (init & res & st' & Hloop & Hcfg & Hlen & Hall & Hearly
                                         & Hview & Hres).
    { simpl. rewrite Hcfg2. exact Hmax. }
    { simpl. rewrite Hcfg2. exact Hle. }
    { simpl. rewrite Hcfg2. lia. }
    { simpl. apply Hok2, Hok. }
    simpl in Hcfg, Hlen, Hearly, Hres. rewrite Hcfg2 in Hcfg, Hlen, Hearly, Hres.
    exists (r :: init), res, st'.
    replace (wrap64 (Z.of_nat k + 1)) with (Z.of_nat (S k))
      by (rewrite wrap64_small; unfold in_int64, MinInt64, MaxInt64 in *; lia).
    rewrite Hb1. split; [exact Hloop|]. split; [exact Hcfg|].
    split; [simpl; lia|]. split; [constructor; [apply stops_false, Hstop | exact Hall]|].
    split; [intros Hlt; apply Hearly; simpl in Hlt; lia|].
    split.
    + rewrite Hview, Hview3. rewrite <- app_assoc.
      change ((r :: init) ++ [res]) with (r :: (init ++ [res])).
      rewrite (schedule_cons k r (init ++ [res])). reflexivity.
    + intros [|i] ri Hi; simpl in Hi.
      * inversion Hi; subst. exact Hfrom.
      * replace (k + S i)%nat with (S (k + i))%nat by lia. apply Hres, Hi.
  - rewrite retry_loop_exit
      by (simpl; rewrite Hcfg2, wrap64_small; unfold in_int64, MinInt64, MaxInt64 in *; lia).
    exists [], r, st3. simpl. repeat split; try done; try lia.
    intros [|i] ri Hi; simpl in Hi; [|discriminate]. inversion Hi; subst. exact Hfrom.
Qed.

End RetryFacts.

Lemma attempts_app tr1 tr2 : attempts (tr1 ++ tr2) = attempts tr1 ++ attempts tr2.
Proof. apply omap_app. Qed.

Lemma backoffs_app tr1 tr2 : backoffs (tr1 ++ tr2) = backoffs tr1 ++ backoffs tr2.
Proof. apply omap_app. Qed.

Lemma backoffs_schedule_0 init res :
  backoffs (schedule 0 (init ++ [res])) = map backoff_at (seq 0 (length init)).
Proof.
  destruct init as [|r init]; [reflexivity|].
  change ((r :: init) ++ [res]) with (r :: (init ++ [res])).
  change (schedule 0 (r :: (init ++ [res])))
    with (EvAttempt r :: schedule 1 (init ++ [res])).
  change (backoffs (EvAttempt r :: schedule 1 (init ++ [res])))
    with (backoffs (schedule 1 (init ++ [res]))).
  rewrite backoffs_schedule, length_app. simpl length.
  replace (length init + 1)%nat with (S (length init)) by lia. reflexivity.
Qed.

Section RetryPolicy.
Variable P : Platform.

Lemma times_out_result fuel e url st r st' domain :
  CheckURL P fuel e url st = Some (r, st') ->
  url_Parse P url = Parsed domain ->
  http_NewRequest P url = None ->
  times_out (config (checker st)) e ->
  Success r = false /\ Error r = "timeout".
Proof.
  intros Hrun Hparse Hreq Hto.
  destruct (CheckURL_result P _ _ _ _ _ _ _ Hrun Hparse Hreq) as (_ & _ & _ & _ & _ & Hcls).
  unfold times_out in Hto. destruct (do e) as [err|sc status].
  - destruct Hcls as (Hs & _ & _ & Hk).
    destruct (Z.geb_spec (responseTime e) (MaxLatency (config (checker st)))); [|lia]. done.
  - destruct Hcls as (_ & _ & Hk).
    destruct (Z.gtb_spec (responseTime e) (MaxLatency (config (checker st)))); [|lia]. done.
Qed.

(** C1, as the code has it. With a retry count [0 <= r < MaxInt64] (and
    limiters that let every attempt through), [CheckURLWithRetry] returns
    the result [res] of its last attempt after [length init + 1 <= r + 1]
    attempts; every attempt before the last failed with kind [timeout] or
    [request_failed], and the loop stopped before the [r + 1]-th attempt
    only on a result that is a success or has another error kind. Before
    each attempt after the first it sleeps: the sleeps and the attempts
    alternate as in [schedule], the delay starts at one second and is
    doubled in [time.Duration] arithmetic, that is, the delay after [i]
    doublings is [backoff_at i], the 64-bit two's complement value of [2^i]
    seconds, which is [2^i] seconds for [r <= 34]. Against a target that
    always times out there are exactly [r + 1] attempts. *)
Theorem retry_policy n fuel envs url st :
  let cfg := config (checker st) in
  0 <= Retries cfg < MaxInt64 ->
  (Z.to_nat (Retries cfg) < n)%nat ->
  limits_ok (checker st) ->
  (forall j, env_live fuel (envs j)) ->
  exists init res st',
    CheckURLWithRetry P n fuel envs url st = Some (Some res, st')
    /\ (length init <= Z.to_nat (Retries cfg))%nat
    /\ attempts (trace st') = attempts (trace st) ++ init ++ [res]
    /\ Forall retryable init
    /\ ((length init < Z.to_nat (Retries cfg))%nat -> stops res = true)
    /\ retry_view (trace st') = retry_view (trace st) ++ schedule 0 (init ++ [res])
    /\ backoffs (trace st') = backoffs (trace st) ++ map backoff_at (seq 0 (length init))
    /\ (Retries cfg <= 34 ->
          map backoff_at (seq 0 (length init))
          = map (fun i => 2 ^ Z.of_nat i * Second) (seq 0 (length init)))
    /\ map backoff_at (seq 0 (length init))
       = map (fun i => wrap64 (2 ^ Z.of_nat i * Second)) (seq 0 (length init))
    /\ (forall i ri, (init ++ [res]) !! i = Some ri ->
          exists s1 s2, CheckURL P fuel (envs i) url s1 = Some (ri, s2))
    /\ ((exists domain, url_Parse P url = Parsed domain) ->
        http_NewRequest P url = None ->
        (forall j, times_out cfg (envs j)) ->
        length init = Z.to_nat (Retries cfg)
        /\ Forall (fun ri => Error ri = "timeout") (init ++ [res])).
Proof.
  intros cfg Hr Hn Hok Hlive.
  destruct (retry_loop_spec P fuel envs url Hlive n 0%nat None st)
    as (init & res & st' & Hloop & Hcfg & Hlen & Hall & Hearly & Hview & Hres);
    try (fold cfg; lia); try exact Hok.
  fold cfg in Hlen, Hearly. rewrite Nat.sub_0_r in Hlen, Hearly.
  exists init, res, st'.
  split; [exact Hloop|]. split; [exact Hlen|].
  split.
  { rewrite <- (attempts_retry_view (trace st')), Hview, attempts_app.
    rewrite attempts_retry_view, attempts_schedule. reflexivity. }
  split; [exact Hall|]. split; [exact Hearly|]. split; [exact Hview|].
  split.
  { rewrite <- (backoffs_retry_view (trace st')), Hview, backoffs_app.
    rewrite backoffs_retry_view, backoffs_schedule_0. reflexivity. }
  split.
  { intros H34. apply List.map_ext_in. intros i Hi. apply List.in_seq in Hi.
    apply backoff_at_exact. lia. }
  split.
  { apply List.map_ext. exact backoff_at_wrap. }
  split.
  { intros i ri Hi. destruct (Hres i ri Hi) as (s1 & s2 & Hrun & _). eauto. }
  intros [domain Hparse] Hreq Hto.
  assert (Hall_to : Forall (fun ri => Success ri = false /\ Error ri = "timeout")
                      (init ++ [res])).
  { apply Forall_lookup. intros i ri Hi.
    destruct (Hres i ri Hi) as (s1 & s2 & Hrun & Hc).
    apply (times_out_result _ _ _ _ _ _ _ Hrun Hparse Hreq). rewrite Hc. apply Hto. }
  split.
  - apply Forall_app in Hall_to as [_ Hlast]. apply Forall_singleton in Hlast as [Hs He].
    assert (stops res = false) by (apply retryable_stops; split; auto).
    destruct (Nat.lt_ge_cases (length init) (Z.to_nat (Retries cfg))) as [Hlt|Hge];
      [apply Hearly in Hlt; congruence | lia].
  - eapply Forall_impl; [exact Hall_to|]. simpl. tauto.
Qed.

End RetryPolicy.

(** ** Witnesses of the single check and of the retry policy *)

Lemma limits_ok_fresh cfg :
  1 <= GlobalRate cfg -> 1 <= DomainRate cfg -> limits_ok (checker (fresh cfg)).
Proof. intros H1 H2. repeat split; try assumption. apply map_Forall_empty. Qed.

Lemma env_live_answering d rt : env_live 1 (answering d rt).
Proof. split; reflexivity. Qed.

Lemma check_classification_witness :
  exists r st', CheckURL example_platform 1 env_ok example_url (fresh DefaultConfig)
                = Some (r, st')
                /\ Success r = true /\ Error r = "" /\ StatusCode r = 200.
Proof.
  destruct (check_classification example_platform 1 env_ok example_url
              (fresh DefaultConfig) "example.com" eq_refl eq_refl
              (limits_ok_fresh DefaultConfig ltac:(simpl; lia) ltac:(simpl; lia))
              (env_live_answering _ _))
    as (r & st' & Hrun & _ & Hresp).
  exists r, st'. split; [exact Hrun|].
  apply (Hresp 200 "200 OK" eq_refl); simpl; unfold Millisecond, Second; lia.
Defined.

Lemma retry_policy_witness :
  exists (init : list CheckResult) res st',
    CheckURLWithRetry example_platform 4 1 (fun _ => env_timeout) example_url
      (fresh DefaultConfig) = Some (Some res, st')
    /\ length init = 3%nat
    /\ Error res = "timeout"
    /\ backoffs (trace st') = [1 * Second; 2 * Second; 4 * Second].
Proof.
  destruct (retry_policy example_platform 4 1 (fun _ => env_timeout) example_url
              (fresh DefaultConfig)
              ltac:(simpl; unfold MaxInt64; lia) ltac:(simpl; lia)
              (limits_ok_fresh DefaultConfig ltac:(simpl; lia) ltac:(simpl; lia))
              (fun _ => env_live_answering _ _))
    as (init & res & st' & Hrun & _ & _ & _ & _ & _ & Hb & _ & _ & _ & Hto).
  destruct Hto as [Hlen Hall];
    [exists "example.com"; reflexivity | reflexivity
     | intros _; vm_compute; discriminate |].
  exists init, res, st'. split; [exact Hrun|]. split; [exact Hlen|].
  split.
  - apply Forall_app in Hall as [_ Hlast]. exact (List.Forall_inv Hlast).
  - rewrite Hb, Hlen. reflexivity.
Defined.

(** C1 (counterexample). With [Retries = 35] against a target that always
    times out, the delay before the last attempt is not [2^34] seconds: the
    doubling has left the range of [time.Duration] and the value passed to
    [time.Sleep] is negative. *)
Lemma retry_backoff_wraps :
  exists res st',
    CheckURLWithRetry example_platform 36 1 (fun _ => env_timeout) example_url
      (fresh (with_retries 35)) = Some (Some res, st')
    /\ length (attempts (trace st')) = 36%nat
    /\ backoffs (trace st') !! 34%nat = Some (-1266874889709551616)
    /\ backoffs (trace st') <> map (fun i => 2 ^ Z.of_nat i * Second) (seq 0 35).
Proof.
  eexists _, _. split; [vm_compute; reflexivity|].
  split; [reflexivity|]. split; [reflexivity|].
  intros H. apply (f_equal (fun l => l !! 34%nat)) in H. vm_compute in H. discriminate H.
Qed.

(** Beyond the 34th doubling the delay is no power of two seconds: it is
    negative after 34 doublings, positive again after 37, and 0 from the
    55th doubling on. *)
Example backoff_beyond_the_range :
  backoff_at 34 = -1266874889709551616
  /\ backoff_at 37 = 8311744956033138688
  /\ forall i, (55 <= i)%nat -> backoff_at i = 0.
Proof.
  split; [vm_compute; reflexivity|]. split; [vm_compute; reflexivity|].
  intros i Hi. rewrite backoff_at_wrap.
  replace (Z.of_nat i) with (55 + (Z.of_nat i - 55)) by lia.
  rewrite Z.pow_add_r by lia.
  replace (2 ^ 55 * 2 ^ (Z.of_nat i - 55) * Second)
    with (0 + 2 ^ (Z.of_nat i - 55) * 1953125 * 2 ^ 64)
    by (unfold Second; change (2 ^ 64) with (2 ^ 55 * 512); ring).
  unfold wrap64. rewrite <- Z.add_assoc, (Z.add_comm _ (2 ^ 63)), Z.add_assoc.
  rewrite Z_mod_plus_full. reflexivity.
Qed.

(** A 404 is not retried, whatever the retry count: one attempt, no sleep. *)
Example http_error_is_not_retried :
  exists res st',
    CheckURLWithRetry example_platform 4 1 (fun _ => env_404) example_url
      (fresh DefaultConfig) = Some (Some res, st')
    /\ Error res = "http_error"
    /\ ErrorMessage res = "HTTP 404: 404 Not Found"
    /\ attempts (trace st') = [res] /\ backoffs (trace st') = [].
Proof. eexists _, _. split; [vm_compute; reflexivity|]. repeat split; reflexivity. Qed.

(** With a global limit of 0 no poll is ever answered: the check is still
    waiting after any number of polls. *)
Example zero_limit_never_returns fuel ticks i who tr :
  waitForRateLimit fuel ticks i who (newRateLimiter 0) tr = None.
Proof.
  revert i tr. induction fuel as [|fuel IH]; intros i tr; [reflexivity|].
  simpl. destruct (ticks i); apply IH.
Qed.

(** ** Latency, invalid URLs, negative retry counts *)


Section SingleCheck.
Variable P : Platform.

(** C7. In every branch of the classification (transport error or response,
    early or late) the latency of the result is
    [dnsDuration + responseTime], the sum of two [time.Duration] values; the
    outcome of the DNS lookup changes nothing: with a failed lookup the call
    returns the same result, whose latency contains the time the lookup
    took, and the HTTP request is still made. *)
Theorem latency_is_dns_plus_response fuel e url st domain :
  url_Parse P url = Parsed domain ->
  http_NewRequest P url = None ->
  limits_ok (checker st) ->
  env_live fuel e ->
  exists r st',
    CheckURL P fuel e url st = Some (r, st')
    /\ Latency r = Duration_add (dnsDuration e) (responseTime e)
    /\ (in_int64 (dnsDuration e + responseTime e) ->
        Latency r = dnsDuration e + responseTime e)
    /\ CheckURL P fuel (with_lookup e false) url st = Some (r, st')
    /\ EvLookupHost domain ∈ trace st' /\ EvHTTPDo url ∈ trace st'.
Proof.
  intros Hparse Hreq Hok Hlive.
  destruct (CheckURL_returns P fuel e url st Hok Hlive) as (r & st' & Hrun).
  exists r, st'. split; [exact Hrun|].
  destruct (CheckURL_result P _ _ _ _ _ _ _ Hrun Hparse Hreq) as (_ & _ & Hlat & Hl & Hh & _).
  split; [exact Hlat|].
  split; [intros Hin; rewrite Hlat; apply wrap64_small, Hin|].
  split; [exact Hrun|]. split; assumption.
Qed.

(** C9. A URL that fails to parse gives at once a failure of kind
    [invalid_url]; the state of the checker (both limiters' counters, the
    registry of domain limiters) and the trace are unchanged: no permit was
    asked for, no poll slept, no lookup and no request was made. *)
Theorem invalid_url_touches_nothing fuel e url st err :
  url_Parse P url = ParseError err ->
  exists r,
    CheckURL P fuel e url st = Some (r, st)
    /\ Error r = "invalid_url" /\ Success r = false
    /\ ErrorMessage r = "URL parse error: " +:+ err.
Proof.
  intros Hparse. unfold CheckURL. rewrite Hparse. eexists. split; [reflexivity|]. done.
Qed.

(** C10. With a negative retry count the loop body never runs:
    [CheckURLWithRetry] makes no attempt and returns the nil pointer; and
    [CalculateStatistics] panics on a result list that holds a nil pointer. *)
Theorem negative_retries_give_nil n fuel envs url st :
  Retries (config (checker st)) < 0 ->
  CheckURLWithRetry P n fuel envs url st = Some (None, st)
  /\ (forall results totalDuration,
        None ∈ results -> stats.CalculateStatistics results totalDuration = None).
Proof.
  intros Hneg. split.
  - unfold CheckURLWithRetry. apply retry_loop_exit. lia.
  - intros results d Hin. unfold stats.CalculateStatistics.
    destruct results as [|x results]; [inversion Hin|].
    replace (Z.of_nat (length (x :: results)) =? 0) with false
      by (symmetry; apply Z.eqb_neq; simpl length; lia).
    assert (Hpanic : forall l a, None ∈ l -> stats.tally l a = None).
    { induction l as [|y l IH]; intros a Hl; [inversion Hl|].
      destruct y as [y|]; [|reflexivity].
      simpl. apply IH. apply elem_of_cons in Hl as [Hl|Hl]; [discriminate | assumption]. }
    rewrite Hpanic by exact Hin. reflexivity.
Qed.

End SingleCheck.

Lemma latency_is_dns_plus_response_witness :
  exists r st',
    CheckURL example_platform 1 env_late example_url (fresh DefaultConfig) = Some (r, st')
    /\ Latency r = 5 * Millisecond + 31 * Second.
Proof.
  destruct (latency_is_dns_plus_response example_platform 1 env_late example_url
              (fresh DefaultConfig) "example.com" eq_refl eq_refl
              (limits_ok_fresh DefaultConfig ltac:(simpl; lia) ltac:(simpl; lia))
              (env_live_answering _ _))
    as (r & st' & Hrun & _ & Hlat & _).
  exists r, st'. split; [exact Hrun|]. apply Hlat. vm_compute. split; discriminate.
Defined.

Lemma invalid_url_touches_nothing_witness :
  exists r,
    CheckURL example_platform 0 env_ok "http://[::1" (fresh DefaultConfig)
      = Some (r, fresh DefaultConfig)
    /\ Error r = "invalid_url" /\ Success r = false.
Proof.
  destruct (invalid_url_touches_nothing example_platform 0 env_ok "http://[::1"
              (fresh DefaultConfig) "missing ']' in host" eq_refl)
    as (r & Hrun & He & Hs & _).
  exists r. auto.
Defined.

Lemma negative_retries_give_nil_witness :
  CheckURLWithRetry example_platform 1 1 (fun _ => env_ok) example_url
    (fresh (with_retries (-1))) = Some (None, fresh (with_retries (-1)))
  /\ stats.CalculateStatistics [None] (3 * Second) = None.
Proof.
  destruct (negative_retries_give_nil example_platform 1 1 (fun _ => env_ok) example_url
              (fresh (with_retries (-1))) ltac:(simpl; lia)) as [Hnil Hpanic].
  split; [exact Hnil|]. apply Hpanic. left.
Defined.

(** ** Redirects *)

Lemma needs_hops_S h send url :
  needs_hops (S h) send url =
  match send url with
  | SendRedirect location => needs_hops h send location
  | _ => false
  end.
Proof. reflexivity. Qed.

(** The redirect loop returns by itself, whatever bound of at least four
    rounds it is given, and what it returns. *)
Lemma Client_do_cases send url :
  exists res reqs,
    (forall fuel, (4 <= fuel)%nat -> Client_do fuel send url [] = Some (res, reqs))
    /\ (1 <= length reqs <= 3)%nat
    /\ needs_hops (length reqs - 1) send url = true
    /\ (needs_hops 3 send url = true -> length reqs = 3%nat /\ exists err, res = DoError err)
    /\ (needs_hops 3 send url = false ->
        needs_hops (length reqs) send url = false
        /\ exists u, last reqs = Some u
           /\ match res with
              | DoResponse sc status => send u = SendFinal sc status
              | DoError err => send u = SendError err
              end).
Proof.
  cbn [needs_hops].
  destruct (send url) as [e1|l1|sc1 s1] eqn:H1.
  1,3: eexists _, _; split;
       [intros fuel Hf; do 4 (destruct fuel as [|fuel]; [lia|]); cbn; rewrite H1; reflexivity|];
       cbn; rewrite ?H1; split; [lia|]; split; [reflexivity|]; split; [discriminate|];
       intros _; split; [reflexivity|]; eexists; split; [reflexivity | exact H1].
  destruct (send l1) as [e2|l2|sc2 s2] eqn:H2.
  1,3: eexists _, _; split;
       [intros fuel Hf; do 4 (destruct fuel as [|fuel]; [lia|]); cbn; rewrite H1; cbn;
        rewrite H2; reflexivity|];
       cbn; rewrite ?H1, ?H2; split; [lia|]; split; [reflexivity|]; split; [discriminate|];
       intros _; split; [reflexivity|]; eexists; split; [reflexivity | exact H2].
  destruct (send l2) as [e3|l3|sc3 s3] eqn:H3.
  1,3: eexists _, _; split;
       [intros fuel Hf; do 4 (destruct fuel as [|fuel]; [lia|]); cbn; rewrite H1; cbn;
        rewrite H2; cbn; rewrite H3; reflexivity|];
       cbn; rewrite ?H1, ?H2, ?H3; split; [lia|]; split; [reflexivity|];
       split; [discriminate|];
       intros _; split; [reflexivity|]; eexists; split; [reflexivity | exact H3].
  eexists _, _; split;
    [intros fuel Hf; do 4 (destruct fuel as [|fuel]; [lia|]); cbn; rewrite H1; cbn;
     rewrite H2; cbn; rewrite H3; cbn; reflexivity|].
  cbn. rewrite ?H1, ?H2. split; [lia|]. split; [reflexivity|].
  split; [intros _; split; [reflexivity | eauto] | discriminate].
Qed.

(** C8, as the code has it. The policy counts the requests already made, so
    the client follows at most 2 redirects. [Client.Do] returns by itself,
    after at most 3 requests, each but the last answered by a redirect.
    A chain of at most 2 redirects is followed to its end: the result is
    the answer to the last request. On a chain of 3 or more redirects the
    third is refused: 3 requests are made, the result is an error, and
    [CheckURL] reports a failure of kind [request_failed] (or [timeout]
    when MaxLatency has been reached). *)
Theorem redirects_are_bounded (send : string -> send_result) (url : string) :
  exists res reqs,
    Client_Do send url = Some (res, reqs)
    /\ (forall fuel, (4 <= fuel)%nat -> Client_do fuel send url [] = Some (res, reqs))
    /\ (length reqs - 1 <= 2)%nat
    /\ needs_hops (length reqs - 1) send url = true
    /\ (needs_hops 3 send url = false ->
        needs_hops (length reqs) send url = false
        /\ exists u, last reqs = Some u
           /\ match res with
              | DoResponse sc status => send u = SendFinal sc status
              | DoError err => send u = SendError err
              end)
    /\ (needs_hops 3 send url = true ->
        length reqs = 3%nat
        /\ (exists err, res = DoError err)
        /\ forall P fuel e st r st' domain,
             do e = res ->
             url_Parse P url = Parsed domain ->
             http_NewRequest P url = None ->
             CheckURL P fuel e url st = Some (r, st') ->
             Success r = false /\ (Error r = "request_failed" \/ Error r = "timeout")).
Proof.
  destruct (Client_do_cases send url) as (res & reqs & Hdo & Hlen & Hfollowed & H3 & Hless).
  exists res, reqs. split; [apply (Hdo 4%nat); lia|]. split; [exact Hdo|].
  split; [lia|]. split; [exact Hfollowed|]. split; [exact Hless|].
  intros Hn. destruct (H3 Hn) as [Hl [err ->]]. split; [exact Hl|]. split; [eauto|].
  intros P fuel e st r st' domain Hdo_e Hparse Hreq Hrun.
  destruct (CheckURL_result P _ _ _ _ _ _ _ Hrun Hparse Hreq) as (_ & _ & _ & _ & _ & Hcls).
  rewrite Hdo_e in Hcls. destruct Hcls as (Hs & _ & _ & Hk).
  split; [exact Hs|]. destruct (responseTime e >=? _); tauto.
Qed.

(** C8 (counterexample). A chain of exactly 3 redirects, whose fourth
    request would be answered 200, is not followed: the client stops after
    3 requests with the error of the policy and the check is a failure of
    kind [request_failed]. *)
Lemma three_redirects_are_not_followed :
  needs_hops 3 example_chain "http://h/a" = true
  /\ needs_hops 4 example_chain "http://h/a" = false
  /\ example_chain "http://h/d" = SendFinal 200 "200 OK"
  /\ exists err,
       Client_Do example_chain "http://h/a"
       = Some (DoError err, ["http://h/a"; "http://h/b"; "http://h/c"])
       /\ exists r st',
            CheckURL example_platform 1 (answering (DoError err) (120 * Millisecond))
              "http://h/a" (fresh DefaultConfig) = Some (r, st')
            /\ StatusCode r = 0 /\ Success r = false /\ Error r = "request_failed".
Proof.
  split; [reflexivity|]. split; [reflexivity|]. split; [reflexivity|].
  eexists. split; [reflexivity|].
  eexists _, _. split; [vm_compute; reflexivity|]. repeat split; reflexivity.
Qed.

(** X1. The redirect policy refuses already the third redirect: on a chain of
    three or more redirects the client makes three requests and returns the
    policy's error, so at most two redirects are followed. *)
Lemma third_redirect_is_refused (send : string -> send_result) (url : string) :
  needs_hops 3 send url = true ->
  exists err reqs, Client_Do send url = Some (DoError err, reqs) /\ length reqs = 3%nat.
Proof.
  unfold Client_Do. cbn [Client_do length Z.of_nat Z.ltb Z.compare].
  rewrite !needs_hops_S.
  destruct (send url) as [|l1|]; try discriminate. cbn.
  destruct (send l1) as [|l2|]; try discriminate. cbn.
  destruct (send l2) as [|l3|]; try discriminate. cbn.
  intros _. eauto.
Qed.

(** ** Statistics *)

Lemma wrap64_add_l a b : wrap64 (wrap64 a + b) = wrap64 (a + b).
Proof.
  unfold wrap64.
  replace ((a + 2 ^ 63) mod 2 ^ 64 - 2 ^ 63 + b + 2 ^ 63)
    with ((a + 2 ^ 63) mod 2 ^ 64 + b) by lia.
  rewrite Zplus_mod_idemp_l. f_equal. f_equal. lia.
Qed.

Lemma fold_Duration_add l : forall a,
  fold_left Duration_add l (wrap64 a) = wrap64 (a + Zsum l).
Proof.
  induction l as [|x l IH]; intros a; simpl.
  - f_equal. lia.
  - unfold Duration_add at 2. rewrite wrap64_add_l, IH. f_equal. lia.
Qed.

Lemma tally_spec results : forall a,
  let ok := successful results in
  stats.tally (map Some results) a = Some {|
    stats.successes := stats.successes a + Z.of_nat (length ok);
    stats.failures := stats.failures a + (Z.of_nat (length results) - Z.of_nat (length ok));
    stats.totalResponseTime :=
      fold_left Duration_add (map ResponseTime ok) (stats.totalResponseTime a);
    stats.totalLatency := fold_left Duration_add (map Latency ok) (stats.totalLatency a);
    stats.successResponseTimes := stats.successResponseTimes a ++ map ResponseTime ok;
    stats.successLatencies := stats.successLatencies a ++ map Latency ok |}.
Proof.
  induction results as [|r results IH]; intros a; simpl.
  - destruct a; simpl. rewrite !app_nil_r. do 2 f_equal; lia.
  - rewrite IH. unfold successful. simpl List.filter.
    destruct (Success r); simpl; rewrite <- ?app_assoc; simpl; do 2 f_equal; lia.
Qed.

Lemma min_max_spec l : forall mn0 mx0 mn mx,
  stats.min_max l (mn0, mx0) = (mn, mx) ->
  (mn = mn0 \/ mn ∈ l) /\ mn <= mn0 /\ (forall x, x ∈ l -> mn <= x)
  /\ (mx = mx0 \/ mx ∈ l) /\ mx0 <= mx /\ (forall x, x ∈ l -> x <= mx).
Proof.
  unfold stats.min_max.
  induction l as [|x l IH]; intros mn0 mx0 mn mx H; simpl in H.
  - inversion H; subst. repeat split; auto; try lia; intros x Hx; inversion Hx.
  - apply IH in H as (H1 & H2 & H3 & H4 & H5 & H6).
    destruct (Z.ltb_spec x mn0), (Z.gtb_spec x mx0);
      repeat match goal with |- _ /\ _ => split end;
      try lia;
      try (intros y Hy; apply elem_of_cons in Hy as [->|Hy];
           [lia | specialize (H3 _ Hy); specialize (H6 _ Hy); lia]);
      try (destruct H1 as [->|H1]; [auto; right; left | right; right; exact H1]);
      try (destruct H4 as [->|H4]; [auto; right; left | right; right; exact H4]).
Qed.

Lemma timing_nil total : stats.timing total [] = (0, 0, 0).
Proof. reflexivity. Qed.

Lemma timing_spec total l :
  l <> [] ->
  exists mn mx,
    stats.timing total l = (Z.quot total (Z.of_nat (length l)), mn, mx)
    /\ is_min mn l /\ is_max mx l.
Proof.
  destruct l as [|x0 l]; [congruence|]. intros _. unfold stats.timing.
  destruct (stats.min_max (x0 :: l) (x0, x0)) as [mn mx] eqn:H.
  exists mn, mx. split; [reflexivity|].
  apply min_max_spec in H as (H1 & _ & H3 & H4 & _ & H6).
  split; (split; [|assumption]).
  - destruct H1 as [->|H1]; [left | exact H1].
  - destruct H4 as [->|H4]; [left | exact H4].
Qed.

(** C5, as the code has it. For a non-empty list of (non-nil) results:
    the total is the length of the list; the success and failure counts
    partition it by the success flag; the success rate is the float64 value
    of [float64(successCount) / float64(total) * 100]; the duration of the
    batch is the argument [totalDuration]; the averages (64-bit sum of the
    durations, integer division), the minima and the maxima of response
    time and latency range over the successful results only, and are all
    zero when there is none. For the empty list every field is zero, the
    duration of the batch included. *)
Theorem statistics_summary (results : list CheckResult) (totalDuration : Z) :
  let ok := successful results in
  let rts := map ResponseTime ok in
  let lats := map Latency ok in
  exists s,
    stats.CalculateStatistics (map Some results) totalDuration = Some s
    /\ stats.TotalRequests s = Z.of_nat (length results)
    /\ stats.SuccessCount s = Z.of_nat (length ok)
    /\ stats.FailureCount s = Z.of_nat (length results) - Z.of_nat (length ok)
    /\ stats.SuccessCount s + stats.FailureCount s = stats.TotalRequests s
    /\ (results = [] -> s = stats.zeroStatistics)
    /\ (results <> [] ->
        stats.TotalDuration s = totalDuration
        /\ stats.SuccessRate s
           = (stats.float64_of_int (Z.of_nat (length ok))
              / stats.float64_of_int (Z.of_nat (length results)) * 100)%float)
    /\ (ok = [] ->
        stats.AvgResponseTime s = 0 /\ stats.MinResponseTime s = 0
        /\ stats.MaxResponseTime s = 0 /\ stats.AvgLatency s = 0
        /\ stats.MinLatency s = 0 /\ stats.MaxLatency s = 0)
    /\ (ok <> [] ->
        stats.AvgResponseTime s = Z.quot (wrap64 (Zsum rts)) (Z.of_nat (length ok))
        /\ is_min (stats.MinResponseTime s) rts /\ is_max (stats.MaxResponseTime s) rts
        /\ stats.AvgLatency s = Z.quot (wrap64 (Zsum lats)) (Z.of_nat (length ok))
        /\ is_min (stats.MinLatency s) lats /\ is_max (stats.MaxLatency s) lats).
Proof.
  intros ok rts lats. unfold stats.CalculateStatistics.
  destruct results as [|r0 results].
  { eexists. split; [reflexivity|]. simpl.
    repeat split; try reflexivity; try congruence;
      match goal with H : _ <> _ |- _ => exfalso; apply H; reflexivity end. }
  set (rs := r0 :: results) in *.
  replace (Z.of_nat (length (map Some rs)) =? 0) with false
    by (symmetry; apply Z.eqb_neq; rewrite length_map; simpl; lia).
  replace (Z.of_nat (length (map Some rs)) >? 0) with true
    by (symmetry; apply Z.gtb_lt; rewrite length_map; simpl; lia).
  rewrite tally_spec. fold ok. cbn [stats.successes stats.failures stats.totalResponseTime
    stats.totalLatency stats.successResponseTimes stats.successLatencies stats.tally0].
  fold rts lats. rewrite !app_nil_l, length_map, !Z.add_0_l.
  change 0 with (wrap64 0) at 1 2. rewrite !fold_Duration_add, !Z.add_0_l.
  destruct ok as [|o ok'] eqn:Hok.
  - subst rts lats. simpl map. rewrite !timing_nil.
    eexists. split; [reflexivity|].
    cbn [stats.TotalRequests stats.SuccessCount
      stats.FailureCount stats.SuccessRate stats.AvgResponseTime stats.MinResponseTime
      stats.MaxResponseTime stats.AvgLatency stats.MinLatency stats.MaxLatency
      stats.TotalDuration].
    split; [reflexivity|]. split; [reflexivity|]. split; [reflexivity|]. split; [lia|].
    split; [discriminate|]. split; [intros _; split; reflexivity|].
    split; [intros _; repeat split; reflexivity|]. intros H; exfalso; apply H; reflexivity.
  - destruct (timing_spec (wrap64 (Zsum rts)) rts) as (mnR & mxR & HtR & HminR & HmaxR);
      [subst rts; discriminate|].
    destruct (timing_spec (wrap64 (Zsum lats)) lats) as (mnL & mxL & HtL & HminL & HmaxL);
      [subst lats; discriminate|].
    rewrite HtR, HtL.
    assert (HlenR : length rts = length (o :: ok')) by (subst rts; apply length_map).
    assert (HlenL : length lats = length (o :: ok')) by (subst lats; apply length_map).
    rewrite HlenR, HlenL.
    eexists. split; [reflexivity|]. cbn [stats.TotalRequests stats.SuccessCount
      stats.FailureCount stats.SuccessRate stats.AvgResponseTime stats.MinResponseTime
      stats.MaxResponseTime stats.AvgLatency stats.MinLatency stats.MaxLatency
      stats.TotalDuration].
    split; [reflexivity|]. split; [reflexivity|]. split; [reflexivity|]. split; [lia|].
    split; [discriminate|]. split; [intros _; split; reflexivity|].
    split; [discriminate|]. intros _. repeat split; try assumption; apply HminR || apply HmaxR
      || apply HminL || apply HmaxL.
Qed.


(** C5 (counterexample). For an empty batch the duration passed to
    [CalculateStatistics] is not recorded: the early return gives the zero
    value. *)
Lemma empty_batch_drops_duration :
  exists s, stats.CalculateStatistics [] (5 * Second) = Some s
            /\ stats.TotalDuration s <> 5 * Second.
Proof. eexists. split; [reflexivity|]. vm_compute. discriminate. Qed.

(** The success rate is a float64: 7 successes out of 25 give
    28.000000000000004, not 28. *)
Lemma success_rate_is_rounded :
  exists s,
    stats.CalculateStatistics
      (map Some (repeat (result_of true (80 * Millisecond)) 7
                 ++ repeat (result_of false (90 * Millisecond)) 18)) (3 * Second) = Some s
    /\ stats.SuccessCount s = 7 /\ stats.TotalRequests s = 25
    /\ stats.SuccessRate s = 0x1.c000000000001p+4%float
    /\ stats.SuccessRate s <> 28%float.
Proof.
  eexists. split; [vm_compute; reflexivity|].
  repeat split; try reflexivity. vm_compute. discriminate.
Qed.

(** ** The dispatcher *)

Lemma sum_insert (f : task -> nat) (l : list task) : forall i x y,
  l !! i = Some x ->
  (sum_list_with f (<[i := y]> l) + f x = sum_list_with f l + f y)%nat.
Proof.
  induction l as [|a l IH]; intros i x y H; [discriminate|].
  destruct i as [|i]; simpl in *.
  - inversion H; subst. lia.
  - specialize (IH i x y H). lia.
Qed.

Lemma sum_lookup_le (f : task -> nat) (l : list task) : forall i x,
  l !! i = Some x -> (f x <= sum_list_with f l)%nat.
Proof.
  induction l as [|a l IH]; intros i x H; [discriminate|].
  destruct i as [|i]; simpl in *.
  - inversion H; subst. lia.
  - specialize (IH i x H). lia.
Qed.

Lemma sum_pointwise_le (f g : task -> nat) (l : list task) :
  (forall t, f t <= g t)%nat -> (sum_list_with f l <= sum_list_with g l)%nat.
Proof.
  intros H. induction l as [|a l IH]; simpl; [lia|]. specialize (H a). lia.
Qed.

Lemma sum_zero (f : task -> nat) (l : list task) :
  Forall (fun t => f t = 0%nat) l -> sum_list_with f l = 0%nat.
Proof. induction 1 as [|a l Ha _ IH]; simpl; lia. Qed.

Lemma sum_all_one (f : task -> nat) (l : list task) :
  Forall (fun t => f t = 1%nat) l -> sum_list_with f l = length l.
Proof. induction 1 as [|a l Ha _ IH]; simpl; lia. Qed.

Lemma sum_replicate_zero (f : task -> nat) n t :
  f t = 0%nat -> sum_list_with f (replicate n t) = 0%nat.
Proof. intros H. induction n; simpl; lia. Qed.

Lemma counted_split (l : list task) :
  sum_list_with has_counted l
  = (sum_list_with has_reported l + sum_list_with at_progress l)%nat.
Proof. induction l as [|a l IH]; simpl; [lia|]. destruct a; simpl; lia. Qed.

(** Either some task satisfies [p], or none does. *)
Lemma find_task (p : task -> bool) (l : list task) :
  (exists i t, l !! i = Some t /\ p t = true) \/ Forall (fun t => p t = false) l.
Proof.
  induction l as [|a l IH].
  - right. constructor.
  - destruct (p a) eqn:Ha.
    + left. exists 0%nat, a. split; [reflexivity | exact Ha].
    + destruct IH as [(i & t & Hi & Ht) | Hall].
      * left. exists (S i), t. split; assumption.
      * right. constructor; assumption.
Qed.

Lemma sum_le_length (f : task -> nat) (l : list task) :
  (forall t, f t <= 1)%nat -> (sum_list_with f l <= length l)%nat.
Proof.
  intros H. induction l as [|a l IH]; simpl; [lia|]. specialize (H a). lia.
Qed.

(** A task that has not done what [f] counts keeps the count below the
    number of tasks. *)
Lemma sum_lt_length (f : task -> nat) (l : list task) :
  (forall t, f t <= 1)%nat ->
  forall i x, l !! i = Some x -> f x = 0%nat -> (sum_list_with f l < length l)%nat.
Proof.
  intros Hf. induction l as [|a l IH]; intros i x Hi Hx; [discriminate|].
  destruct i as [|i]; simpl in *.
  - inversion Hi; subst. pose proof (sum_le_length f l Hf). lia.
  - specialize (IH i x Hi Hx). specialize (Hf a). lia.
Qed.

Section DispatcherFacts.
Variable urls : list string.
Variable concurrency : Z.
Variable result_cap progress_cap : nat.
Variable progress_nil : bool.
Variable produces : string -> option CheckResult -> Prop.

Lemma dispatch_inv_init :
  dispatch_inv urls concurrency result_cap progress_cap progress_nil produces
    (dispatch_init urls).
Proof.
  split; simpl; try discriminate; try (rewrite sum_replicate_zero; reflexivity);
    try lia.
  - apply length_replicate.
  - intros j Hj. apply lookup_replicate_2. lia.
  - destruct progress_nil; [reflexivity|]. rewrite sum_replicate_zero; reflexivity.
  - intros i r H. apply lookup_replicate in H as [H _]. discriminate.
  - constructor.
Qed.

End DispatcherFacts.

Section DispatcherSteps.
Variable urls : list string.
Variable concurrency : Z.
Variable result_cap progress_cap : nat.
Variable progress_nil : bool.
Variable produces : string -> option CheckResult -> Prop.

Local Abbreviation step :=
  (dispatch_step urls concurrency result_cap progress_cap progress_nil produces).
Local Abbreviation reachable :=
  (dispatch_reachable urls concurrency result_cap progress_cap progress_nil produces).
Local Abbreviation inv :=
  (dispatch_inv urls concurrency result_cap progress_cap progress_nil produces).

(** The fields of the invariant that only look at the tasks, after task
    [i] has moved from statement [t] to statement [t']. *)
Lemma task_move_lookup (l : list task) i j t t' :
  l !! i = Some t ->
  <[i := t']> l !! j = if decide (i = j) then Some t' else l !! j.
Proof.
  intros H. destruct (decide (i = j)) as [->|Hne].
  - apply list_lookup_insert_eq. eapply lookup_lt_Some, H.
  - apply list_lookup_insert_ne, Hne.
Qed.

Ltac task_sums H t' :=
  pose proof (sum_insert holds_slot _ _ _ t' H);
  pose proof (sum_insert holds_mutex _ _ _ t' H);
  pose proof (sum_insert has_sent _ _ _ t' H);
  pose proof (sum_insert has_counted _ _ _ t' H);
  pose proof (sum_insert has_reported _ _ _ t' H);
  pose proof (sum_insert at_progress _ _ _ t' H);
  pose proof (sum_insert task_rank _ _ _ t' H);
  cbn [holds_slot holds_mutex has_sent has_counted has_reported at_progress task_rank] in *.

Ltac fields :=
  cbn [made panicked tasks spawned slots completed locked resultChan resultRead
       progressChan progressRead resultClosed progressClosed].

(** The progress values sent are as many as the tasks that have reported. *)
Lemma progress_length s :
  inv s ->
  length (progressChan s)
  = if progress_nil then 0%nat else sum_list_with has_reported (tasks s).
Proof.
  intros Hinv. rewrite (inv_progress _ _ _ _ _ _ _ Hinv).
  destruct progress_nil; [reflexivity|]. rewrite length_map, length_seq. reflexivity.
Qed.

(** At most one task is at the progress send. *)
Lemma at_progress_le_one s :
  inv s -> (sum_list_with at_progress (tasks s) <= 1)%nat.
Proof.
  intros Hinv.
  etransitivity; [apply (sum_pointwise_le at_progress holds_mutex); intros []; simpl; lia|].
  rewrite (inv_mutex _ _ _ _ _ _ _ Hinv). destruct (locked s); lia.
Qed.

Lemma dispatch_inv_step who s s' : inv s -> step who s s' -> inv s'.
Proof.
  intros Hinv Hstep.
  pose proof (progress_length s Hinv) as Hplen.
  pose proof (at_progress_le_one s Hinv) as Hone.
  destruct Hinv as [Hlen Hsp Hwait Hstart Hslots Hmutex Hsent Hcompl Hprog Hrc Hpc Hpend Hres
                    Hmade Hpan Hrr Hpr Hrb Hpb].
  assert (Hdone : forall i t, tasks s !! i = Some t -> t <> TDone -> resultClosed s = true -> False).
  { intros i t Hi Ht Hc. destruct (Hrc Hc) as [_ Hall].
    apply (proj1 (Forall_lookup _ _) Hall) in Hi. contradiction. }
  assert (Hnw : forall i t, tasks s !! i = Some t -> t <> TNotStarted -> (i < spawned s)%nat).
  { intros i t Hi Ht. destruct (Nat.lt_ge_cases i (spawned s)) as [|Hge]; [assumption|].
    rewrite Hwait in Hi; [congruence|]. split; [exact Hge|].
    rewrite <- Hlen. eapply lookup_lt_Some, Hi. }
  inversion Hstep; subst; clear Hstep.
  1: { (* make *)
    split; fields; try assumption.
    - intros Hf. discriminate.
    - intros Hp. congruence. }
  1: { (* make panics *)
    split; fields; try assumption.
    intros _. split; assumption. }
  1: { (* go *)
    assert (Hi : tasks s !! spawned s = Some TNotStarted) by (apply Hwait; lia).
    task_sums Hi TAcquire.
    split; fields.
    + rewrite length_insert. exact Hlen.
    + lia.
    + intros j Hj. rewrite (task_move_lookup _ _ _ _ _ Hi).
      destruct (decide (spawned s = j)); [lia|]. apply Hwait. lia.
    + intros j Hj. rewrite (task_move_lookup _ _ _ _ _ Hi).
      destruct (decide (spawned s = j)); [discriminate|]. apply Hstart. lia.
    + lia.
    + destruct (locked s); lia.
    + lia.
    + lia.
    + rewrite Hprog. destruct progress_nil; [reflexivity|]. do 2 f_equal. lia.
    + intros Hc. destruct (Hrc Hc). lia.
    + exact Hpc.
    + intros j r. rewrite (task_move_lookup _ _ _ _ _ Hi).
      destruct (decide (spawned s = j)); [discriminate|]. apply Hpend.
    + exact Hres.
    + congruence.
    + exact Hpan.
    + exact Hrr.
    + exact Hpr.
    + exact Hrb.
    + exact Hpb. }
  all: unfold set_task.
  all: match goal with
       | H : tasks ?s0 !! ?i = Some ?t
         |- dispatch_inv _ _ _ _ _ _ {| tasks := <[?i := ?t']> _ |} =>
           task_sums H t';
           pose proof (Hnw _ _ H ltac:(discriminate)) as Hlt;
           split; fields;
           [ rewrite length_insert; exact Hlen
           | exact Hsp
           | intros j Hj; rewrite (task_move_lookup _ _ _ _ _ H);
             destruct (decide (i = j)); [lia | apply Hwait; exact Hj]
           | intros j Hj; rewrite (task_move_lookup _ _ _ _ _ H);
             destruct (decide (i = j)); [discriminate | apply Hstart; exact Hj]
           | lia
           | repeat match goal with Hl : locked _ = _ |- _ => rewrite Hl in * end;
             try destruct (locked s0); lia
           | rewrite ?length_app; simpl; lia
           | lia
           | idtac
           | intros Hc; exfalso; eapply (Hdone _ _ H); [discriminate | exact Hc]
           | exact Hpc
           | intros j r'; rewrite (task_move_lookup _ _ _ _ _ H);
             destruct (decide (i = j)) as [<-|];
             [ intros Heq; inversion Heq; subst; eauto | apply Hpend ]
           | idtac
           | exact Hmade
           | exact Hpan
           | rewrite ?length_app; simpl; lia
           | idtac
           | rewrite ?length_app; simpl; lia
           | idtac ]
       | _ => idtac
       end.
  all: try exact Hres.
  all: try exact Hpr.
  all: try exact Hpb.
  all: try (rewrite Hprog; destruct progress_nil; [reflexivity|]; do 2 f_equal; lia).
  all: try (apply Forall_app; split; [exact Hres|]; constructor; [|constructor];
            match goal with
            | H : tasks _ !! _ = Some (TSend _) |- _ =>
                destruct (Hpend _ _ H) as (u & Hu & Hp); exists u; split; [|exact Hp];
                eapply list_elem_of_lookup_2, Hu
            end).
  all: try (match goal with
            | |- _ = (if progress_nil then _ else _) =>
                rewrite Hprog; destruct progress_nil; [reflexivity || discriminate|];
                pose proof (counted_split (tasks s)) as Hsplit;
                match goal with
                | H : tasks _ !! _ = Some TProgress |- _ =>
                    pose proof (sum_lookup_le at_progress _ _ _ H) as Hge
                end;
                cbn [at_progress] in Hge;
                replace (sum_list_with has_reported (<[i:=TUnlock]> (tasks s)))
                  with (S (sum_list_with has_reported (tasks s))) by lia;
                rewrite seq_S, map_app; f_equal; simpl; f_equal; lia
            end).
  all: try (destruct progress_nil; rewrite ?length_app; simpl;
            try match goal with H : false = false -> _ |- _ => specialize (H eq_refl) end;
            lia).
  all: try (rewrite ?length_app; simpl; lia).
  all: try (match goal with
            | H : tasks _ !! _ = Some TProgress |- _ ++ _ = _ =>
                rewrite Hprog;
                pose proof (counted_split (tasks s)) as Hsplit;
                pose proof (sum_lookup_le at_progress _ _ _ H) as Hge;
                cbn [at_progress] in Hge;
                replace (sum_list_with has_reported (<[i:=TUnlock]> (tasks s)))
                  with (S (sum_list_with has_reported (tasks s))) by lia;
                rewrite seq_S, map_app; f_equal; simpl; f_equal; lia
            end).
  - (* close(resultChan) *)
    split; fields; try assumption.
    + intros _. split; assumption.
    + intros Hc. destruct (Hpc Hc) as [Hc' _]. congruence.
    + congruence.
  - (* close(progressChan) *)
    split; fields; try assumption.
    intros _. split; [assumption | reflexivity].
  - (* a result is received *)
    split; fields; try assumption; lia.
  - (* a progress value is received *)
    split; fields; try assumption; lia.
Qed.

Lemma dispatch_inv_reachable s : reachable s -> inv s.
Proof.
  unfold dispatch_reachable. intros H.
  apply rtc_ind_r with (x := dispatch_init urls) (P := inv) in H; try assumption.
  - apply dispatch_inv_init.
  - intros y z _ [who Hstep] Hy. eapply dispatch_inv_step; eassumption.
Qed.

(** Every step executes one statement or takes one value: the rank of the
    state goes down. *)
Lemma dispatch_step_rank who s s' :
  inv s -> step who s s' -> (dispatch_rank s' < dispatch_rank s)%nat.
Proof.
  intros Hinv Hstep.
  pose proof (progress_length s Hinv) as Hplen.
  pose proof (inv_sent _ _ _ _ _ _ _ Hinv) as Hsent.
  pose proof (sum_le_length has_sent (tasks s) ltac:(intros []; simpl; lia)) as Hs.
  pose proof (sum_le_length has_reported (tasks s) ltac:(intros []; simpl; lia)) as Hr.
  unfold dispatch_rank.
  inversion Hstep; subst; clear Hstep; unfold set_task; fields;
    rewrite ?length_insert.
  3: { assert (Hi : tasks s !! spawned s = Some TNotStarted)
         by (apply (inv_waiting _ _ _ _ _ _ _ Hinv); lia).
       pose proof (sum_insert task_rank _ _ _ TAcquire Hi). simpl in *. lia. }
  all: try match goal with
       | H : tasks ?s0 !! ?i = Some ?t |- context [<[?i := ?t']> _] =>
           pose proof (sum_insert task_rank _ _ _ t' H); simpl in *; lia
       end.
  all: repeat match goal with
       | H : made _ = _ |- _ => rewrite H
       | H : panicked _ = _ |- _ => rewrite H
       | H : resultClosed _ = _ |- _ => rewrite H
       | H : progressClosed _ = _ |- _ => rewrite H
       end.
  all: try lia.
  all: destruct progress_nil; simpl in *; lia.
Qed.

(** A call that has not returned can execute a statement, without the help
    of a receiver when the buffers of the channels hold one value per URL. *)
Lemma dispatch_progress s :
  1 <= concurrency ->
  (length urls <= result_cap)%nat ->
  (progress_nil = false -> (length urls <= progress_cap)%nat) ->
  (forall u, exists r, produces u r) ->
  inv s ->
  dispatch_returned progress_nil s \/ exists s', step Program s s'.
Proof.
  intros Hconc Hrcap Hpcap Htotal Hinv.
  destruct (panicked s) eqn:Hpan.
  { destruct (inv_panicked _ _ _ _ _ _ _ Hinv Hpan). lia. }
  destruct (made s) eqn:Hmade.
  2: { right. eexists. apply step_make; [assumption | assumption | lia]. }
  destruct (Nat.lt_ge_cases (spawned s) (length urls)) as [Hlt|Hge].
  { right. eexists. apply step_go; assumption. }
  assert (Hsp : spawned s = length urls)
    by (pose proof (inv_spawned _ _ _ _ _ _ _ Hinv); lia).
  destruct (resultClosed s) eqn:Hrc.
  { destruct progress_nil eqn:Hnil.
    - left. split; [exact Hrc | left; reflexivity].
    - destruct (progressClosed s) eqn:Hpc.
      + left. split; [exact Hrc | right; exact Hpc].
      + right. eexists. apply step_close_progress; first [assumption | reflexivity]. }
  right.
  destruct (find_task runnable (tasks s)) as [(i & t & Hi & Ht) | Hnone].
  { destruct t; try discriminate.
    - assert (exists u, urls !! i = Some u) as [u Hu].
      { apply lookup_lt_is_Some. rewrite <- (inv_length _ _ _ _ _ _ _ Hinv).
        eapply lookup_lt_Some, Hi. }
      destruct (Htotal u) as [r Hr]. eexists. eapply step_check; eassumption.
    - eexists. eapply step_send; [exact Hi|].
      pose proof (sum_lt_length has_sent (tasks s) ltac:(intros []; simpl; lia) _ _ Hi eq_refl).
      rewrite (inv_sent _ _ _ _ _ _ _ Hinv).
      pose proof (inv_length _ _ _ _ _ _ _ Hinv). lia.
    - eexists. eapply step_count, Hi.
    - eexists. eapply step_progress; [exact Hi|].
      intros Hnil. specialize (Hpcap Hnil).
      pose proof (sum_lt_length has_reported (tasks s) ltac:(intros []; simpl; lia)
                    _ _ Hi eq_refl).
      rewrite (progress_length s Hinv), Hnil.
      pose proof (inv_length _ _ _ _ _ _ _ Hinv). lia.
    - eexists. eapply step_unlock, Hi.
    - eexists. eapply step_release, Hi. }
  assert (Hunlocked : locked s = false).
  { pose proof (inv_mutex _ _ _ _ _ _ _ Hinv) as Hm.
    rewrite sum_zero in Hm.
    - destruct (locked s); [discriminate | reflexivity].
    - eapply Forall_impl; [exact Hnone|]. intros []; simpl; congruence. }
  destruct (find_task is_TLock (tasks s)) as [(i & t & Hi & Ht) | Hnolock].
  { destruct t; try discriminate. eexists. eapply step_lock; eassumption. }
  destruct (find_task is_TAcquire (tasks s)) as [(i & t & Hi & Ht) | Hnoacq].
  { destruct t; try discriminate. eexists. eapply step_acquire; [exact Hi|].
    rewrite (inv_slots _ _ _ _ _ _ _ Hinv), sum_zero; [lia|].
    apply Forall_forall. intros t Ht'.
    pose proof (proj1 (Forall_forall _ _) Hnone t Ht').
    pose proof (proj1 (Forall_forall _ _) Hnolock t Ht').
    destruct t; simpl in *; congruence. }
  eexists. apply step_close_result; [exact Hmade | exact Hsp | | exact Hrc].
  apply Forall_lookup. intros i t Hi.
  pose proof (proj1 (Forall_lookup _ _) Hnone i t Hi).
  pose proof (proj1 (Forall_lookup _ _) Hnolock i t Hi).
  pose proof (proj1 (Forall_lookup _ _) Hnoacq i t Hi).
  assert (i < spawned s)%nat.
  { rewrite Hsp, <- (inv_length _ _ _ _ _ _ _ Hinv). eapply lookup_lt_Some, Hi. }
  pose proof (inv_started _ _ _ _ _ _ _ Hinv i ltac:(assumption)).
  destruct t; simpl in *; congruence.
Qed.

(** The steps of the call are steps of the run. *)
Lemma program_steps_run s s' :
  rtc (step Program) s s' ->
  rtc (dispatch_run urls concurrency result_cap progress_cap progress_nil produces) s s'.
Proof.
  induction 1 as [|x y z Hxy _ IH]; [apply rtc_refl|].
  eapply rtc_l; [exists Program; exact Hxy | exact IH].
Qed.

(** From every state of a run the call goes on to return, by its own steps. *)
Lemma dispatch_terminates :
  1 <= concurrency ->
  (length urls <= result_cap)%nat ->
  (progress_nil = false -> (length urls <= progress_cap)%nat) ->
  (forall u, exists r, produces u r) ->
  forall n s, dispatch_rank s = n -> inv s ->
  exists s', rtc (step Program) s s' /\ dispatch_returned progress_nil s'.
Proof.
  intros Hconc Hrcap Hpcap Htotal. induction n as [n IH] using lt_wf_ind. intros s Hn Hinv.
  destruct (dispatch_progress s Hconc Hrcap Hpcap Htotal Hinv) as [Hret | [s1 Hstep]].
  - exists s. split; [apply rtc_refl | exact Hret].
  - pose proof (dispatch_step_rank _ _ _ Hinv Hstep) as Hrank.
    destruct (IH (dispatch_rank s1) ltac:(lia) s1 eq_refl) as (s' & Hrun & Hret).
    { eapply dispatch_inv_step; eassumption. }
    exists s'. split; [eapply rtc_l; eassumption | exact Hret].
Qed.

(** Once a stream is closed every task is done and both streams are complete. *)
Lemma dispatch_closed_complete s :
  inv s ->
  resultClosed s = true \/ progressClosed s = true ->
  Forall (fun t => t = TDone) (tasks s)
  /\ length (resultChan s) = length urls
  /\ progressChan s = if progress_nil then []
                      else map Z.of_nat (seq 1 (length urls)).
Proof.
  intros Hinv Hc.
  assert (Hrc : resultClosed s = true).
  { destruct Hc as [Hc|Hc]; [exact Hc|].
    apply (inv_progress_closed _ _ _ _ _ _ _ Hinv), Hc. }
  destruct (inv_result_closed _ _ _ _ _ _ _ Hinv Hrc) as [_ Hall].
  split; [exact Hall|].
  rewrite (inv_sent _ _ _ _ _ _ _ Hinv), (inv_progress _ _ _ _ _ _ _ Hinv).
  rewrite !sum_all_one, (inv_length _ _ _ _ _ _ _ Hinv); [done | |];
    (eapply Forall_impl; [exact Hall|]; intros t ->; reflexivity).
Qed.

(** The semaphore never holds more than its capacity. *)
Lemma dispatch_slots_bound s : reachable s -> slots s <= Z.max concurrency 0.
Proof.
  unfold dispatch_reachable. intros H.
  apply rtc_ind_r with (x := dispatch_init urls) (P := fun s => slots s <= Z.max concurrency 0)
    in H; try assumption.
  - simpl. lia.
  - intros y z _ [who Hstep] Hy. inversion Hstep; subst; unfold set_task; simpl; lia.
Qed.

End DispatcherSteps.

(** C4. For a batch of N URLs, with a concurrency of at least 1, checks
    that return, a progress channel that is not nil and two channels whose
    buffers hold at least N values (as the handlers create them): at every
    moment of a run at most N results have been sent and the progress
    values sent are 1, 2, ..., k in this order for some k <= N; a stream is
    closed only when every task has finished, and then exactly N results
    and the progress values 1, ..., N have been sent; a call that has not
    returned can always execute a statement without waiting for a receiver,
    every step of the call or of a receiver lowers the rank of the state,
    and so the run goes on until the call returns with both streams
    closed. *)
Theorem dispatcher_emits_all (urls : list string) (concurrency : Z)
    (result_cap progress_cap : nat)
    (produces : string -> option CheckResult -> Prop) (s : Dispatch) :
  1 <= concurrency ->
  (length urls <= result_cap)%nat ->
  (length urls <= progress_cap)%nat ->
  (forall u, exists r, produces u r) ->
  dispatch_reachable urls concurrency result_cap progress_cap false produces s ->
  (length (resultChan s) <= length urls)%nat
  /\ (exists k, (k <= length urls)%nat /\ progressChan s = map Z.of_nat (seq 1 k))
  /\ (resultClosed s = true \/ progressClosed s = true ->
      Forall (fun t => t = TDone) (tasks s)
      /\ length (resultChan s) = length urls
      /\ progressChan s = map Z.of_nat (seq 1 (length urls)))
  /\ (dispatch_returned false s
      \/ exists s',
           dispatch_step urls concurrency result_cap progress_cap false produces
             Program s s')
  /\ (forall who s',
        dispatch_step urls concurrency result_cap progress_cap false produces who s s' ->
        (dispatch_rank s' < dispatch_rank s)%nat)
  /\ (exists s',
        rtc (dispatch_step urls concurrency result_cap progress_cap false produces Program)
            s s'
        /\ dispatch_returned false s'
        /\ length (resultChan s') = length urls
        /\ progressChan s' = map Z.of_nat (seq 1 (length urls))).
Proof.
  intros Hconc Hrcap Hpcap Htotal Hreach.
  pose proof (dispatch_inv_reachable _ _ _ _ _ _ _ Hreach) as Hinv.
  split.
  { rewrite (inv_sent _ _ _ _ _ _ _ Hinv), <- (inv_length _ _ _ _ _ _ _ Hinv).
    apply sum_le_length. intros []; simpl; lia. }
  split.
  { exists (sum_list_with has_reported (tasks s)).
    split; [|apply (inv_progress _ _ _ _ _ _ _ Hinv)].
    rewrite <- (inv_length _ _ _ _ _ _ _ Hinv). apply sum_le_length. intros []; simpl; lia. }
  split; [apply (dispatch_closed_complete _ _ _ _ _ _ _ Hinv)|].
  split; [apply dispatch_progress; auto|].
  split; [intros who s' Hstep; eapply dispatch_step_rank; eassumption|].
  destruct (dispatch_terminates urls concurrency result_cap progress_cap false produces
              Hconc Hrcap (fun _ => Hpcap) Htotal (dispatch_rank s) s eq_refl Hinv)
    as (s' & Hrun & Hret).
  exists s'. split; [exact Hrun|]. split; [exact Hret|].
  assert (Hinv' : dispatch_inv urls concurrency result_cap progress_cap false produces s').
  { apply dispatch_inv_reachable.
    unfold dispatch_reachable in *. etransitivity; [exact Hreach|].
    apply program_steps_run, Hrun. }
  destruct (dispatch_closed_complete _ _ _ _ _ _ _ Hinv' (or_introl (proj1 Hret)))
    as (_ & Hlen & Hprog).
  split; assumption.
Qed.

(** Runs of the example batch, statement by statement. *)
Ltac program_step c :=
  eapply rtc_l;
  [ exists Program; c;
    first [reflexivity | cbn; lia | solve [cbn; repeat constructor] | idtac]
  | unfold set_task; cbn ].

Ltac receiver_step c :=
  eapply rtc_l;
  [ exists Receiver; c; first [reflexivity | cbn; lia | idtac]
  | unfold set_task; cbn ].

Lemma example_midrun_reachable :
  dispatch_reachable example_batch 2 2 2 false example_produces example_midrun.
Proof.
  unfold dispatch_reachable.
  program_step ltac:(apply step_make).
  program_step ltac:(apply step_go).
  program_step ltac:(apply step_go).
  program_step ltac:(apply step_acquire with (i := 0%nat)).
  program_step ltac:(apply step_acquire with (i := 1%nat)).
  program_step ltac:(eapply step_check with (i := 0%nat)).
  program_step ltac:(eapply step_check with (i := 1%nat)).
  program_step ltac:(eapply step_send with (i := 0%nat)).
  receiver_step ltac:(apply step_recv_result).
  program_step ltac:(eapply step_send with (i := 1%nat)).
  program_step ltac:(apply step_lock with (i := 0%nat)).
  program_step ltac:(apply step_count with (i := 0%nat)).
  apply rtc_refl.
Qed.

Lemma dispatcher_emits_all_witness :
  (length (resultChan example_midrun) <= 2)%nat
  /\ exists s',
       rtc (dispatch_step example_batch 2 2 2 false example_produces Program)
           example_midrun s'
       /\ dispatch_returned false s'
       /\ length (resultChan s') = 2%nat
       /\ progressChan s' = [1; 2].
Proof.
  destruct (dispatcher_emits_all example_batch 2 2 2 example_produces example_midrun
              ltac:(lia) ltac:(simpl; lia) ltac:(simpl; lia)
              (fun _ => ex_intro _ _ eq_refl) example_midrun_reachable)
    as (Hsent & _ & _ & _ & _ & s' & Hrun & Hret & Hlen & Hprog).
  split; [exact Hsent|].
  exists s'. split; [exact Hrun|]. split; [exact Hret|]. split; assumption.
Defined.

(** C4 (counterexample). With [Concurrency = 0] the semaphore channel has
    no buffer and nobody receives from it: after the goroutine of a
    one-URL batch has started, no statement can execute and no receiver
    can help; nothing has been sent and the call never returns. *)
Lemma zero_concurrency_deadlocks :
  exists s,
    dispatch_reachable [example_url] 0 1 1 false example_produces s
    /\ tasks s = [TAcquire]
    /\ resultChan s = [] /\ progressChan s = []
    /\ ~ dispatch_returned false s
    /\ (forall who s',
          ~ dispatch_step [example_url] 0 1 1 false example_produces who s s').
Proof.
  eexists. split.
  { unfold dispatch_reachable.
    program_step ltac:(apply step_make).
    program_step ltac:(apply step_go).
    apply rtc_refl. }
  cbn. split; [reflexivity|]. split; [reflexivity|]. split; [reflexivity|].
  split; [intros [H _]; discriminate|].
  intros who s' Hstep. inversion Hstep; subst; cbn in *;
    try lia; try discriminate;
    try match goal with
        | H : [TAcquire] !! ?i = Some _ |- _ => destruct i; cbn in H; discriminate
        end.
  match goal with H : Forall _ [TAcquire] |- _ => inversion H; subst; discriminate end.
Qed.

(** With a progress channel that has no buffer the call depends on its
    receiver: the task that has counted holds the mutex and waits at the
    send; no statement of the call can execute until a receiver takes the
    value. *)
Example unbuffered_progress_waits :
  exists s,
    dispatch_reachable [example_url] 1 1 0 false example_produces s
    /\ tasks s = [TProgress] /\ locked s = true
    /\ ~ dispatch_returned false s
    /\ (forall s',
          ~ dispatch_step [example_url] 1 1 0 false example_produces Program s s')
    /\ (exists s',
          dispatch_step [example_url] 1 1 0 false example_produces Receiver s s').
Proof.
  eexists. split.
  { unfold dispatch_reachable.
    program_step ltac:(apply step_make).
    program_step ltac:(apply step_go).
    program_step ltac:(apply step_acquire with (i := 0%nat)).
    program_step ltac:(eapply step_check with (i := 0%nat)).
    program_step ltac:(eapply step_send with (i := 0%nat)).
    program_step ltac:(apply step_lock with (i := 0%nat)).
    program_step ltac:(apply step_count with (i := 0%nat)).
    apply rtc_refl. }
  cbn. split; [reflexivity|]. split; [reflexivity|].
  split; [intros [H _]; discriminate|]. split.
  - intros s' Hstep. inversion Hstep; subst; cbn in *;
      try lia; try discriminate;
      try match goal with
          | H : [TProgress] !! ?i = Some _ |- _ => destruct i; cbn in H; discriminate
          end.
    match goal with H : Forall _ [TProgress] |- _ => inversion H; subst; discriminate end.
  - eexists. apply step_progress_handoff with (i := 0%nat); reflexivity.
Qed.

(** With a negative [Concurrency] the call panics in [make] before it
    starts a goroutine: the panic is the only step it can take, and nothing
    runs after it. *)
Example negative_concurrency_panics :
  exists s,
    dispatch_reachable [example_url] (-1) 1 1 false example_produces s
    /\ panicked s = true /\ tasks s = [TNotStarted] /\ resultChan s = []
    /\ (forall who s',
          dispatch_step [example_url] (-1) 1 1 false example_produces who
            (dispatch_init [example_url]) s' -> s' = s)
    /\ (forall who s',
          ~ dispatch_step [example_url] (-1) 1 1 false example_produces who s s').
Proof.
  eexists. split.
  { unfold dispatch_reachable.
    program_step ltac:(apply step_make_panic).
    apply rtc_refl. }
  cbn. split; [reflexivity|]. split; [reflexivity|]. split; [reflexivity|]. split.
  - intros who s' H.
    inversion H; subst; cbn in *; try lia; try discriminate; try reflexivity;
      try match goal with
          | H : [TNotStarted] !! ?i = Some _ |- _ => destruct i; cbn in H; discriminate
          end.
  - intros who s' Hstep. inversion Hstep; subst; cbn in *;
      try lia; try discriminate;
      try match goal with
          | H : [TNotStarted] !! ?i = Some _ |- _ => destruct i; cbn in H; discriminate
          end.
Qed.

(** ** Success means a 2xx status *)


Section SuccessInvariant.
Variable P : Platform.


Lemma CheckURL_success fuel e url st r st' :
  CheckURL P fuel e url st = Some (r, st') -> success_is_2xx r.
Proof.
  unfold CheckURL, success_is_2xx. intros H.
  destruct (url_Parse P url) as [err|domain]; [inversion H; subst; discriminate|].
  destruct (waitForRateLimit fuel (global_ticks e) 0 None _ _) as [[g tr1]|]; [|discriminate].
  destruct (getDomainRateLimiter _ domain) as [domainRL c2].
  destruct (waitForRateLimit fuel (domain_ticks e) 0 (Some domain) _ _) as [[d tr2]|];
    [|discriminate].
  destruct (http_NewRequest P url); [inversion H; subst; discriminate|].
  destruct (do e) as [err|sc status].
  - destruct (responseTime e >=? _); inversion H; subst; discriminate.
  - destruct (responseTime e >? _); [inversion H; subst; discriminate|].
    destruct ((sc >=? 200) && (sc <? 300)) eqn:Hsc; inversion H; subst; simpl;
      [|discriminate].
    intros _. apply andb_true_iff in Hsc as [H1 H2].
    apply Z.geb_le in H1. apply Z.ltb_lt in H2. split; [lia | reflexivity].
Qed.

Lemma retry_loop_result fuel envs url : forall n k attempt backoff result st r st',
  retry_loop P n fuel envs url k attempt backoff result st = Some (Some r, st') ->
  result = Some r
  \/ exists j s1 s2, CheckURL P fuel (envs j) url s1 = Some (r, s2).
Proof.
  induction n as [|n IH]; intros k attempt backoff result st r st' H;
    rewrite retry_loop_eq in H;
    destruct (attempt <=? Retries (config (checker st)));
    try discriminate; try (inversion H; subst; left; reflexivity).
  destruct (attempt >? 0).
  - destruct (CheckURL P fuel (envs k) url _) as [[r0 st2]|] eqn:Hrun; [|discriminate].
    destruct (stops r0).
    + inversion H; subst. right. eauto.
    + apply IH in H as [H|H]; [inversion H; subst; right; eauto | right; exact H].
  - destruct (CheckURL P fuel (envs k) url _) as [[r0 st2]|] eqn:Hrun; [|discriminate].
    destruct (stops r0).
    + inversion H; subst. right. eauto.
    + apply IH in H as [H|H]; [inversion H; subst; right; eauto | right; exact H].
Qed.

Lemma CheckURLWithRetry_success n fuel envs url st r st' :
  CheckURLWithRetry P n fuel envs url st = Some (Some r, st') -> success_is_2xx r.
Proof.
  unfold CheckURLWithRetry. intros H.
  apply retry_loop_result in H as [H | (j & s1 & s2 & H)]; [discriminate|].
  eapply CheckURL_success, H.
Qed.

End SuccessInvariant.

(** C6. A result with [Success = true] has a status code in [200,300) and
    no error kind, whether it comes from [CheckURL], from
    [CheckURLWithRetry] or from the result stream of [CheckURLs]. The
    converse fails: a response with status 200 that arrives after
    MaxLatency is a failure of kind [timeout]. *)
Theorem success_means_2xx :
  (forall P fuel e url st r st',
     CheckURL P fuel e url st = Some (r, st') -> success_is_2xx r)
  /\ (forall P n fuel envs url st r st',
        CheckURLWithRetry P n fuel envs url st = Some (Some r, st') -> success_is_2xx r)
  /\ (forall P urls concurrency result_cap progress_cap progress_nil s r,
        dispatch_reachable urls concurrency result_cap progress_cap progress_nil
          (returned_by P) s ->
        Some r ∈ resultChan s -> success_is_2xx r)
  /\ (exists r st',
        CheckURL example_platform 1 env_late example_url (fresh DefaultConfig)
          = Some (r, st')
        /\ StatusCode r = 200 /\ Success r = false /\ Error r = "timeout").
Proof.
  split; [exact CheckURL_success|]. split; [exact CheckURLWithRetry_success|]. split.
  - intros P urls concurrency result_cap progress_cap progress_nil s r Hreach Hin.
    pose proof (dispatch_inv_reachable _ _ _ _ _ _ _ Hreach) as Hinv.
    pose proof (inv_results _ _ _ _ _ _ _ Hinv) as Hres.
    apply (proj1 (Forall_forall _ _) Hres) in Hin as (u & _ & n & fuel & envs & st & st' & Hrun).
    eapply CheckURLWithRetry_success, Hrun.
  - eexists _, _. split; [vm_compute; reflexivity|]. repeat split; reflexivity.
Qed.

(** * Further properties *)

(** ** parseURLs *)

Lemma scheme_not_comment line :
  String.eqb line "" || String.prefix "#" line = true -> has_scheme line = false.
Proof.
  destruct line as [|c line]; [reflexivity|].
  cbn [String.eqb String.prefix orb]. unfold has_scheme. cbn [String.prefix].
  destruct (Ascii.ascii_dec "#"%char c) as [<-|Hne]; [intros _; reflexivity | discriminate].
Qed.

Section ParseURLsFacts.
Variable TrimSpace : string -> string.

Lemma parseURLs_fold lines : forall acc,
  fold_left
    (fun urls line0 =>
       let line := TrimSpace line0 in
       if String.eqb line "" || String.prefix "#" line then urls
       else if has_scheme line then urls ++ [line]
       else urls) lines acc
  = acc ++ List.filter has_scheme (map TrimSpace lines).
Proof.
  induction lines as [|l lines IH]; intros acc; simpl; [by rewrite app_nil_r|].
  rewrite IH. destruct (String.eqb (TrimSpace l) "" || String.prefix "#" (TrimSpace l)) eqn:Hc.
  - rewrite (scheme_not_comment _ Hc). reflexivity.
  - destruct (has_scheme (TrimSpace l)); [|reflexivity].
    rewrite <- app_assoc. reflexivity.
Qed.

(** X2. [parseURLs] returns, in the order of the text, exactly the trimmed
    lines that start with http:// or https://: the tests for empty lines and
    for comment lines remove nothing that the scheme test would keep. *)
Theorem parseURLs_keeps_scheme_lines (text : string) :
  parseURLs TrimSpace text
  = List.filter has_scheme (map TrimSpace (split_lines text))
  /\ Forall (fun u => has_scheme u = true) (parseURLs TrimSpace text)
  /\ (length (parseURLs TrimSpace text) <= length (split_lines text))%nat.
Proof.
  assert (H : parseURLs TrimSpace text
              = List.filter has_scheme (map TrimSpace (split_lines text)))
    by (unfold parseURLs; rewrite parseURLs_fold; reflexivity).
  split; [exact H|]. rewrite H. split.
  - apply Forall_forall. intros u Hu. apply list_elem_of_In, List.filter_In in Hu. tauto.
  - etransitivity; [apply List.filter_length_le|]. rewrite length_map. lia.
Qed.

End ParseURLsFacts.

Lemma split_lines_no_newline u : has_newline u = false -> split_lines u = [u].
Proof.
  induction u as [|c u IH]; [reflexivity|]. simpl. intros H.
  apply orb_false_iff in H as [Hc Hu]. rewrite Hc, (IH Hu). reflexivity.
Qed.

Lemma split_lines_append u s :
  has_newline u = false ->
  split_lines (u +:+ String "010"%char s) = u :: split_lines s.
Proof.
  induction u as [|c u IH]; [reflexivity|]. simpl. intros H.
  apply orb_false_iff in H as [Hc Hu]. rewrite Hc, (IH Hu). reflexivity.
Qed.

Lemma split_join_lines lines :
  lines <> [] ->
  Forall (fun u => has_newline u = false) lines ->
  split_lines (join_lines lines) = lines.
Proof.
  induction lines as [|u lines IH]; [congruence|]. intros _ Hall.
  apply Forall_cons in Hall as [Hu Hall].
  destruct lines as [|v lines].
  - simpl. apply split_lines_no_newline, Hu.
  - change (join_lines (u :: v :: lines))
      with (u +:+ String "010"%char (join_lines (v :: lines))).
    rewrite split_lines_append by exact Hu. f_equal. apply IH; [discriminate | exact Hall].
Qed.

(** X3. Round trip: a non-empty list of URLs that are already trimmed, carry
    a scheme and hold no newline, joined by newlines, parses back to
    itself. *)
Theorem parseURLs_join_round_trip (TrimSpace : string -> string) (urls : list string) :
  urls <> [] ->
  Forall (fun u => TrimSpace u = u /\ has_scheme u = true /\ has_newline u = false) urls ->
  parseURLs TrimSpace (join_lines urls) = urls.
Proof.
  intros Hne Hall. unfold parseURLs. rewrite parseURLs_fold, split_join_lines.
  - simpl. clear Hne. induction Hall as [|u urls (Ht & Hs & _) _ IH]; [reflexivity|].
    simpl. rewrite Ht, Hs, IH. reflexivity.
  - exact Hne.
  - eapply Forall_impl; [exact Hall|]. simpl. tauto.
Qed.

Lemma parseURLs_join_round_trip_witness :
  parseURLs trim_ascii (join_lines ["https://example.com"; "http://10.0.0.1:8080/health"])
  = ["https://example.com"; "http://10.0.0.1:8080/health"].
Proof.
  apply (parseURLs_join_round_trip trim_ascii); [discriminate|].
  repeat constructor.
Defined.

(** ** The configuration the handlers build *)

Section HandlerConfigFacts.
Variable Sscanf_d : string -> Z.

Lemma updateConfig_fields cfg f :
  let cfg' := updateConfig Sscanf_d cfg f in
  (Concurrency cfg' = Concurrency cfg \/ 0 < Concurrency cfg')
  /\ (Retries cfg' = Retries cfg \/ 0 <= Retries cfg')
  /\ (Timeout cfg' = Timeout cfg /\ MaxLatency cfg' = MaxLatency cfg
      \/ MaxLatency cfg' = Timeout cfg')
  /\ GlobalRate cfg' = GlobalRate cfg /\ DomainRate cfg' = DomainRate cfg
  /\ Insecure cfg' = Insecure cfg.
Proof.
  unfold updateConfig.
  destruct (negb (String.eqb (form_concurrency f) ""));
    [destruct (Z.gtb_spec (Sscanf_d (form_concurrency f)) 0)|];
  (destruct (negb (String.eqb (form_timeout f) ""));
    [destruct (Z.gtb_spec (Sscanf_d (form_timeout f)) 0)|]);
  (destruct (negb (String.eqb (form_retries f) ""));
    [destruct (Z.geb_spec (Sscanf_d (form_retries f)) 0)|]);
  simpl; repeat split; auto; try (right; lia); try (left; lia).
Qed.

(** X4. Whatever the requests submit, the configuration the handlers pass to
    [NewChecker] keeps a concurrency of at least 1 and a retry count of at
    least 0 when it started with them, and its rate limits and TLS flag are
    never changed: from [DefaultConfig] on, every checker is built with
    positive limits. *)
Theorem handler_config_stays_valid (cfg : Config) (requests : list Form) :
  1 <= Concurrency cfg ->
  0 <= Retries cfg ->
  let cfg' := config_after Sscanf_d cfg requests in
  1 <= Concurrency cfg' /\ 0 <= Retries cfg'
  /\ GlobalRate cfg' = GlobalRate cfg /\ DomainRate cfg' = DomainRate cfg
  /\ Insecure cfg' = Insecure cfg
  /\ (1 <= GlobalRate cfg -> 1 <= DomainRate cfg -> limits_ok (NewChecker cfg')).
Proof.
  unfold config_after. revert cfg.
  induction requests as [|f requests IH]; intros cfg Hc Hr; simpl.
  - repeat split; auto. apply map_Forall_empty.
  - destruct (updateConfig_fields cfg f) as (H1 & H2 & _ & H4 & H5 & H6).
    destruct (IH (updateConfig Sscanf_d cfg f)) as (I1 & I2 & I3 & I4 & I5 & I6);
      [lia | lia |].
    repeat split; try assumption; try congruence.
    all: intros; apply I6; congruence.
Qed.

(** X5. The request deadline and the client timeout stay equal: no sequence
    of requests makes [MaxLatency] differ from [Timeout]. *)
Theorem handler_keeps_max_latency_equal_timeout (cfg : Config) (requests : list Form) :
  MaxLatency cfg = Timeout cfg ->
  MaxLatency (config_after Sscanf_d cfg requests)
  = Timeout (config_after Sscanf_d cfg requests).
Proof.
  unfold config_after. revert cfg.
  induction requests as [|f requests IH]; intros cfg H; simpl; [exact H|].
  apply IH. destruct (updateConfig_fields cfg f) as (_ & _ & [[-> ->]| ->] & _); auto.
Qed.

(** X6. A field that is present but does not scan as a number (the scanned
    value is 0) is not treated alike: concurrency and timeout are left as
    they were, the retry count is reset to 0. *)
Theorem unscannable_fields (cfg : Config) (f : Form) :
  Sscanf_d (form_concurrency f) = 0 ->
  Sscanf_d (form_timeout f) = 0 ->
  form_retries f <> "" ->
  Sscanf_d (form_retries f) = 0 ->
  let cfg' := updateConfig Sscanf_d cfg f in
  Concurrency cfg' = Concurrency cfg /\ Timeout cfg' = Timeout cfg
  /\ MaxLatency cfg' = MaxLatency cfg /\ Retries cfg' = 0.
Proof.
  intros Hc Ht Hne Hr. unfold updateConfig. rewrite Hc, Ht, Hr.
  replace (String.eqb (form_retries f) "") with false
    by (symmetry; apply String.eqb_neq, Hne).
  destruct (negb (String.eqb (form_concurrency f) ""));
    destruct (negb (String.eqb (form_timeout f) "")); simpl; auto.
Qed.

(** X7. A timeout of [t] seconds that fits a [time.Duration]
    (0 < t <= 9223372036) becomes both the client timeout and the request
    deadline, and both are positive. *)
Theorem timeout_field_sets_both (cfg : Config) (f : Form) :
  form_timeout f <> "" ->
  0 < Sscanf_d (form_timeout f) <= 9223372036 ->
  let cfg' := updateConfig Sscanf_d cfg f in
  Timeout cfg' = Sscanf_d (form_timeout f) * Second
  /\ MaxLatency cfg' = Timeout cfg' /\ 0 < Timeout cfg'.
Proof.
  intros Hne Ht. unfold updateConfig.
  replace (String.eqb (form_timeout f) "") with false
    by (symmetry; apply String.eqb_neq, Hne).
  replace (Sscanf_d (form_timeout f) >? 0) with true by (symmetry; apply Z.gtb_lt; lia).
  assert (Hd : Duration_mul (Sscanf_d (form_timeout f)) Second
               = Sscanf_d (form_timeout f) * Second).
  { unfold Duration_mul. apply wrap64_small.
    unfold in_int64, MinInt64, MaxInt64, Second. lia. }
  cbn [negb].
  destruct (negb (String.eqb (form_retries f) ""));
    [destruct (Sscanf_d (form_retries f) >=? 0)|]; cbn [Timeout MaxLatency];
    rewrite Hd; unfold Second; repeat split; lia.
Qed.

End HandlerConfigFacts.

Lemma handler_config_stays_valid_witness :
  1 <= Concurrency (config_after example_Sscanf_d DefaultConfig [example_form; example_form])
  /\ limits_ok (NewChecker (config_after example_Sscanf_d DefaultConfig
                              [example_form; example_form])).
Proof.
  destruct (handler_config_stays_valid example_Sscanf_d DefaultConfig
              [example_form; example_form] ltac:(simpl; lia) ltac:(simpl; lia))
    as (H1 & _ & _ & _ & _ & H6).
  split; [exact H1|]. apply H6; simpl; lia.
Defined.

Lemma handler_keeps_max_latency_equal_timeout_witness :
  MaxLatency (config_after example_Sscanf_d DefaultConfig [example_form])
  = Timeout (config_after example_Sscanf_d DefaultConfig [example_form]).
Proof.
  apply (handler_keeps_max_latency_equal_timeout example_Sscanf_d DefaultConfig
           [example_form]). reflexivity.
Defined.

Lemma unscannable_fields_witness :
  Retries (updateConfig example_Sscanf_d DefaultConfig
             {| form_concurrency := "many"; form_timeout := ""; form_retries := "x" |}) = 0
  /\ Concurrency (updateConfig example_Sscanf_d DefaultConfig
             {| form_concurrency := "many"; form_timeout := ""; form_retries := "x" |}) = 10.
Proof.
  destruct (unscannable_fields example_Sscanf_d DefaultConfig
              {| form_concurrency := "many"; form_timeout := ""; form_retries := "x" |}
              eq_refl eq_refl ltac:(discriminate) eq_refl) as (Hc & _ & _ & Hr).
  split; [exact Hr | exact Hc].
Defined.

Lemma timeout_field_sets_both_witness :
  Timeout (updateConfig example_Sscanf_d DefaultConfig example_form) = 15 * Second
  /\ MaxLatency (updateConfig example_Sscanf_d DefaultConfig example_form) = 15 * Second.
Proof.
  destruct (timeout_field_sets_both example_Sscanf_d DefaultConfig example_form
              ltac:(discriminate) ltac:(vm_compute; split; [reflexivity | discriminate]))
    as (Ht & Hm & _).
  split; [exact Ht | rewrite Hm; exact Ht].
Defined.

(** ** ExtractDomain *)

Lemma Index_colon_None s : Index_colon s = None <-> has_colon s = false.
Proof.
  induction s as [|c s IH]; simpl; [tauto|].
  destruct (Ascii.eqb c ":"%char); simpl; [split; discriminate|].
  destruct (Index_colon s); [split; [discriminate | intros H; apply IH in H; discriminate]|].
  tauto.
Qed.

Lemma Index_colon_Some s : forall i,
  Index_colon s = Some i ->
  has_colon (String.substring 0 i s) = false
  /\ String.prefix (String.substring 0 i s) s = true
  /\ String.length (String.substring 0 i s) = i
  /\ String.get i s = Some ":"%char.
Proof.
  induction s as [|c s IH]; intros i H; simpl in H; [discriminate|].
  destruct (Ascii.eqb c ":"%char) eqn:Hc.
  - inversion H; subst. simpl. apply Ascii.eqb_eq in Hc. subst. auto.
  - destruct (Index_colon s) as [j|]; [|discriminate]. inversion H; subst.
    destruct (IH j eq_refl) as (H1 & H2 & H3 & H4).
    cbn [String.substring has_colon String.prefix String.length String.get].
    rewrite Hc, H1, H3. destruct (Ascii.ascii_dec c c); [|contradiction]. auto.
Qed.

(** X8. [ExtractDomain] gives the empty string for a URL that does not
    parse; otherwise it gives the host name up to its first colon: a prefix
    of the host name that holds no colon, the whole host name when there is
    no colon in it. *)
Theorem ExtractDomain_has_no_port (P : Platform) (url : string) :
  has_colon (ExtractDomain P url) = false
  /\ (forall err, url_Parse P url = ParseError err -> ExtractDomain P url = "")
  /\ (forall host, url_Parse P url = Parsed host ->
        String.prefix (ExtractDomain P url) host = true
        /\ (has_colon host = false -> ExtractDomain P url = host)
        /\ (has_colon host = true ->
            String.get (String.length (ExtractDomain P url)) host = Some ":"%char)).
Proof.
  unfold ExtractDomain. destruct (url_Parse P url) as [err|host].
  { split; [reflexivity|]. split; [reflexivity | discriminate]. }
  destruct (Index_colon host) as [i|] eqn:Hi.
  - destruct (Index_colon_Some _ _ Hi) as (H1 & H2 & H3 & H4).
    split; [exact H1|]. split; [discriminate|].
    intros h Hh. inversion Hh; subst h. split; [exact H2|]. split.
    + intros Hn. apply Index_colon_None in Hn. congruence.
    + intros _. rewrite H3. exact H4.
  - pose proof (proj1 (Index_colon_None host) Hi) as Hn.
    split; [exact Hn|]. split; [discriminate|].
    intros h Hh. inversion Hh; subst h. split; [|split; [reflexivity | congruence]].
    clear. induction host as [|c host IH]; [reflexivity|]. simpl.
    destruct (Ascii.ascii_dec c c); [exact IH | contradiction].
Qed.

(** ** The registry of domain limiters and the wait for a permit *)

Lemma getDomainRateLimiter_spec (c : Checker) (domain : string) :
  let '(rl, c') := getDomainRateLimiter c domain in
  getDomainRateLimiter c' domain = (rl, c')
  /\ domainRate c' !! domain = Some rl
  /\ (forall other, other <> domain -> domainRate c' !! other = domainRate c !! other)
  /\ (domainRate c !! domain = None -> rl = newRateLimiter (DomainRate (config c)))
  /\ (forall rl0, domainRate c !! domain = Some rl0 -> rl = rl0 /\ c' = c)
  /\ config c' = config c /\ globalRate c' = globalRate c.
Proof.
  unfold getDomainRateLimiter.
  destruct (domainRate c !! domain) as [rl0|] eqn:Hd.
  - rewrite Hd. repeat split; auto; try congruence; intros; congruence.
  - simpl. rewrite lookup_insert_eq. repeat split; auto.
    + intros other Hne. apply lookup_insert_ne. congruence.
    + intros; discriminate.
    + intros; discriminate.
Qed.

(** X9. The registry caches: asking again for the limiter of a domain gives
    the limiter of the first answer and changes nothing more; the limiters
    of other domains are never touched; a limiter that was missing is
    created with the configured per-domain rate and a counter of 0. *)
Theorem getDomainRateLimiter_caches (c : Checker) (domain : string) :
  let '(rl, c') := getDomainRateLimiter c domain in
  getDomainRateLimiter c' domain = (rl, c')
  /\ domainRate c' !! domain = Some rl
  /\ (forall other, other <> domain -> domainRate c' !! other = domainRate c !! other)
  /\ (domainRate c !! domain = None -> rl = newRateLimiter (DomainRate (config c)))
  /\ (forall rl0, domainRate c !! domain = Some rl0 -> rl = rl0 /\ c' = c)
  /\ config c' = config c /\ globalRate c' = globalRate c.
Proof. exact (getDomainRateLimiter_spec c domain). Qed.

Lemma denied_polls_are_rate_limit who k x :
  x ∈ denied_polls who k -> is_rate_limit_event x = true.
Proof.
  unfold denied_polls. induction k as [|k IH]; simpl; [intros H; inversion H|].
  rewrite !elem_of_cons. intros [-> | [-> | H]]; [reflexivity | reflexivity | exact (IH H)].
Qed.

Lemma waitForRateLimit_shape fuel ticks who : forall i rl tr rl' tr',
  waitForRateLimit fuel ticks i who rl tr = Some (rl', tr') ->
  exists k, (k < fuel)%nat
    /\ tr' = tr ++ denied_polls who k ++ [EvAllow who true]
    /\ limit rl' = limit rl
    /\ count rl' <= limit rl'
    /\ (0 <= count rl -> 1 <= count rl').
Proof.
  induction fuel as [|fuel IH]; intros i rl tr rl' tr' H; simpl in H; [discriminate|].
  set (rl0 := if ticks i then resetCounter rl else rl) in H.
  assert (Hl0 : limit rl0 = limit rl) by (unfold rl0; destruct (ticks i); reflexivity).
  assert (Hc0 : 0 <= count rl -> 0 <= count rl0)
    by (unfold rl0; destruct (ticks i); simpl; lia).
  pose proof (allow_spec rl0) as Hspec. pose proof (allow_limit rl0) as Hl1.
  destruct (allow rl0) as [[|] rl1]; simpl in *.
  - destruct Hspec as [(_ & Hlt & Hcnt) | (Hf & _)]; [|discriminate].
    inversion H; subst. exists 0%nat. split; [lia|]. split; [reflexivity|].
    repeat split; try lia; try congruence.
  - destruct Hspec as [(Hf & _) | (_ & Hge & Hsame)]; [discriminate|]. subst rl1.
    apply IH in H as (k & Hk & -> & Hl & Hle & Hpos).
    exists (S k). split; [lia|].
    split; [unfold denied_polls; simpl; rewrite <- !app_assoc; reflexivity|].
    repeat split; try congruence; try lia.
Qed.

(** X10. When [waitForRateLimit] returns it has taken exactly one permit:
    what it did is [k] denied polls, each followed by a sleep of 100 ms,
    and then one granted [allow]; the counter of the limiter is then at
    least 1 and at most its limit. *)
Theorem waitForRateLimit_takes_one_permit fuel ticks who rl tr rl' tr' :
  0 <= count rl ->
  waitForRateLimit fuel ticks 0 who rl tr = Some (rl', tr') ->
  exists k, (k < fuel)%nat
    /\ tr' = tr ++ denied_polls who k ++ [EvAllow who true]
    /\ limit rl' = limit rl
    /\ 1 <= count rl' <= limit rl'.
Proof.
  intros Hc H. destruct (waitForRateLimit_shape _ _ _ _ _ _ _ _ H)
    as (k & Hk & Htr & Hl & Hle & Hpos).
  exists k. repeat split; auto.
Qed.

Lemma waitForRateLimit_blocks fuel ticks who : forall i rl tr,
  limit rl <= 0 -> 0 <= count rl ->
  waitForRateLimit fuel ticks i who rl tr = None.
Proof.
  induction fuel as [|fuel IH]; intros i rl tr Hl Hc; [reflexivity|].
  simpl. set (rl0 := if ticks i then resetCounter rl else rl).
  assert (limit rl0 <= 0 /\ 0 <= count rl0) as [Hl0 Hc0]
    by (unfold rl0; destruct (ticks i); simpl; lia).
  pose proof (allow_spec rl0) as Hspec.
  destruct (allow rl0) as [[|] rl1]; simpl in *.
  - destruct Hspec as [(_ & Hlt & _) | (Hf & _)]; [lia | discriminate].
  - destruct Hspec as [(Hf & _) | (_ & _ & Hsame)]; [discriminate|]. subst rl1.
    apply IH; assumption.
Qed.

Section CheckerFacts.
Variable P : Platform.

(** X11. A global rate limit of 0 or less blocks every check of a URL that
    parses: however long it polls, [CheckURL] has not returned; and so has
    [CheckURLWithRetry] for any retry count of at least 0. *)
Theorem nonpositive_global_rate_blocks fuel n e envs url cfg domain :
  GlobalRate cfg <= 0 ->
  url_Parse P url = Parsed domain ->
  CheckURL P fuel e url (fresh cfg) = None
  /\ (0 <= Retries cfg -> CheckURLWithRetry P n fuel envs url (fresh cfg) = None).
Proof.
  intros Hg Hparse.
  assert (Hblock : forall e0 tr, CheckURL P fuel e0 url
            {| checker := NewChecker cfg; trace := tr |} = None).
  { intros e0 tr. unfold CheckURL. rewrite Hparse. simpl.
    rewrite waitForRateLimit_blocks; simpl; auto; lia. }
  split; [apply Hblock|]. intros Hr.
  unfold CheckURLWithRetry. rewrite retry_loop_eq. simpl.
  destruct (Z.leb_spec 0 (Retries cfg)); [|lia].
  destruct n; [reflexivity|]. simpl.
  unfold fresh. rewrite Hblock. reflexivity.
Qed.

Lemma CheckURL_trace_shape fuel e url st r st' domain :
  CheckURL P fuel e url st = Some (r, st') ->
  url_Parse P url = Parsed domain ->
  exists kg kd,
    trace st' = trace st
      ++ denied_polls None kg ++ [EvAllow None true]
      ++ denied_polls (Some domain) kd ++ [EvAllow (Some domain) true]
      ++ [EvLookupHost domain]
      ++ (match http_NewRequest P url with None => [EvHTTPDo url] | Some _ => [] end).
Proof.
  unfold CheckURL. intros H Hparse. rewrite Hparse in H.
  destruct (waitForRateLimit fuel (global_ticks e) 0 None _ _) as [[g tr1]|] eqn:Hg;
    [|discriminate].
  apply waitForRateLimit_shape in Hg as (kg & _ & -> & _).
  destruct (getDomainRateLimiter _ domain) as [domainRL c2].
  destruct (waitForRateLimit fuel (domain_ticks e) 0 (Some domain) _ _) as [[d tr2]|] eqn:Hd;
    [|discriminate].
  apply waitForRateLimit_shape in Hd as (kd & _ & -> & _).
  exists kg, kd.
  destruct (http_NewRequest P url) as [err|].
  { inversion H; subst; simpl. rewrite <- !app_assoc. reflexivity. }
  destruct (do e) as [err|sc status].
  - destruct (responseTime e >=? _); inversion H; subst; simpl;
      rewrite <- !app_assoc; reflexivity.
  - destruct (responseTime e >? _); [inversion H; subst; simpl;
      rewrite <- !app_assoc; reflexivity|].
    destruct ((sc >=? 200) && (sc <? 300)); inversion H; subst; simpl;
      rewrite <- !app_assoc; reflexivity.
Qed.

(** X12. A check of a URL that parses asks for the global permit first, then
    for the permit of the URL's domain, then resolves the host name, and
    only then (if the request could be created) issues the one HTTP
    request: this is all it adds to the trace, with exactly one granted
    permit of each limiter. *)
Theorem CheckURL_event_order fuel e url st r st' domain :
  CheckURL P fuel e url st = Some (r, st') ->
  url_Parse P url = Parsed domain ->
  exists kg kd,
    trace st' = trace st
      ++ denied_polls None kg ++ [EvAllow None true]
      ++ denied_polls (Some domain) kd ++ [EvAllow (Some domain) true]
      ++ [EvLookupHost domain]
      ++ (match http_NewRequest P url with None => [EvHTTPDo url] | Some _ => [] end).
Proof. exact (CheckURL_trace_shape fuel e url st r st' domain). Qed.

(** X13. A check registers the limiter of its URL's domain and of no other:
    afterwards the registry holds a limiter for the domain, with the limit
    it had before or, if it is new, the configured per-domain rate; the
    entries of all other domains, the limit of the global limiter and the
    configuration are as before. *)
Theorem CheckURL_registers_domain fuel e url st r st' domain :
  CheckURL P fuel e url st = Some (r, st') ->
  url_Parse P url = Parsed domain ->
  (exists rl, domainRate (checker st') !! domain = Some rl
     /\ limit rl = match domainRate (checker st) !! domain with
                   | Some rl0 => limit rl0
                   | None => DomainRate (config (checker st))
                   end)
  /\ (forall other, other <> domain ->
        domainRate (checker st') !! other = domainRate (checker st) !! other)
  /\ limit (globalRate (checker st')) = limit (globalRate (checker st))
  /\ config (checker st') = config (checker st).
Proof.
  unfold CheckURL. intros H Hparse. rewrite Hparse in H.
  destruct (waitForRateLimit fuel (global_ticks e) 0 None _ _) as [[g tr1]|] eqn:Hg;
    [|discriminate].
  apply waitForRateLimit_shape in Hg as (kg & _ & _ & Hgl & _).
  pose proof (getDomainRateLimiter_spec
                {| config := config (checker st); domainRate := domainRate (checker st);
                   globalRate := g |} domain) as Hget.
  destruct (getDomainRateLimiter _ domain) as [domainRL c2].
  destruct Hget as (_ & Hin & Hother & Hnew & Hold & Hcfg & Hglob). simpl in *.
  destruct (waitForRateLimit fuel (domain_ticks e) 0 (Some domain) _ _) as [[d tr2]|] eqn:Hd;
    [|discriminate].
  apply waitForRateLimit_shape in Hd as (kd & _ & _ & Hdl & _).
  assert (Hfin : forall r0 tr0,
    Some (r0, {| checker := {| config := config c2;
                              domainRate := <[domain:=d]> (domainRate c2);
                              globalRate := globalRate c2 |};
                 trace := tr0 |}) = Some (r, st') ->
    (exists rl, domainRate (checker st') !! domain = Some rl
       /\ limit rl = match domainRate (checker st) !! domain with
                     | Some rl0 => limit rl0
                     | None => DomainRate (config (checker st))
                     end)
    /\ (forall other, other <> domain ->
          domainRate (checker st') !! other = domainRate (checker st) !! other)
    /\ limit (globalRate (checker st')) = limit (globalRate (checker st))
    /\ config (checker st') = config (checker st)).
  { intros r0 tr0 Heq. inversion Heq; subst; simpl. split; [|split; [|split]].
    - exists d. rewrite lookup_insert_eq. split; [reflexivity|]. rewrite Hdl.
      destruct (domainRate (checker st) !! domain) as [rl0|].
      + destruct (Hold rl0 eq_refl) as [-> _]. reflexivity.
      + rewrite (Hnew eq_refl). reflexivity.
    - intros other Hne. rewrite lookup_insert_ne by congruence. apply Hother, Hne.
    - congruence.
    - exact Hcfg. }
  destruct (http_NewRequest P url) as [err|]; [eapply Hfin, H|].
  destruct (do e) as [err|sc status].
  - destruct (responseTime e >=? _); eapply Hfin, H.
  - destruct (responseTime e >? _); [eapply Hfin, H|].
    destruct ((sc >=? 200) && (sc <? 300)); eapply Hfin, H.
Qed.

Lemma CheckURL_taxonomy fuel e url st r st' :
  CheckURL P fuel e url st = Some (r, st') ->
  URL r = url /\ Timestamp r = now e
  /\ Error r ∈ error_kinds
  /\ (Success r = true <-> Error r = "").
Proof.
  unfold CheckURL, error_kinds. intros H.
  destruct (url_Parse P url) as [err|domain].
  { inversion H; subst; simpl. repeat split; try discriminate. set_solver. }
  destruct (waitForRateLimit fuel (global_ticks e) 0 None _ _) as [[g tr1]|]; [|discriminate].
  destruct (getDomainRateLimiter _ domain) as [domainRL c2].
  destruct (waitForRateLimit fuel (domain_ticks e) 0 (Some domain) _ _) as [[d tr2]|];
    [|discriminate].
  destruct (http_NewRequest P url).
  { inversion H; subst; simpl. repeat split; try discriminate. set_solver. }
  destruct (do e) as [err|sc status].
  - destruct (responseTime e >=? _); inversion H; subst; simpl;
      repeat split; try discriminate; set_solver.
  - destruct (responseTime e >? _);
      [inversion H; subst; simpl; repeat split; try discriminate; set_solver|].
    destruct ((sc >=? 200) && (sc <? 300)); inversion H; subst; simpl;
      repeat split; try discriminate; try reflexivity; set_solver.
Qed.

(** X14. The error taxonomy is closed: every result of [CheckURL] and of
    [CheckURLWithRetry] carries the URL it was asked for and an error kind
    that is empty or one of invalid_url, request_error, request_failed,
    timeout, http_error; the kind is empty exactly when the result is a
    success. *)
Theorem error_taxonomy_is_closed :
  (forall fuel e url st r st',
     CheckURL P fuel e url st = Some (r, st') ->
     URL r = url /\ Error r ∈ error_kinds /\ (Success r = true <-> Error r = ""))
  /\ (forall n fuel envs url st r st',
        CheckURLWithRetry P n fuel envs url st = Some (Some r, st') ->
        URL r = url /\ Error r ∈ error_kinds /\ (Success r = true <-> Error r = "")).
Proof.
  split.
  - intros fuel e url st r st' H.
    destruct (CheckURL_taxonomy _ _ _ _ _ _ H) as (H1 & _ & H3 & H4). auto.
  - intros n fuel envs url st r st' H. unfold CheckURLWithRetry in H.
    apply retry_loop_result in H as [H | (j & s1 & s2 & H)]; [discriminate|].
    destruct (CheckURL_taxonomy _ _ _ _ _ _ H) as (H1 & _ & H3 & H4). auto.
Qed.

(** X16. An unparsable URL costs one attempt whatever the retry count: for
    every [Retries >= 0], [CheckURLWithRetry] returns the invalid_url
    failure of its first attempt, without any sleep, permit, lookup or
    request; the checker is unchanged. *)
Theorem invalid_url_is_not_retried n fuel envs url st err :
  url_Parse P url = ParseError err ->
  0 <= Retries (config (checker st)) ->
  exists r,
    CheckURLWithRetry P (S n) fuel envs url st
      = Some (Some r, {| checker := checker st; trace := trace st ++ [EvAttempt r] |})
    /\ Error r = "invalid_url" /\ Success r = false.
Proof.
  intros Hparse Hr.
  unfold CheckURLWithRetry. rewrite retry_loop_eq.
  destruct (Z.leb_spec 0 (Retries (config (checker st)))); [|lia].
  cbn [Z.gtb Z.compare]. unfold CheckURL. rewrite Hparse.
  eexists. split; [reflexivity|]. split; reflexivity.
Qed.

End CheckerFacts.

(** ** More on the dispatcher *)

Section DispatcherBounds.
Variable urls : list string.
Variable concurrency : Z.
Variable result_cap progress_cap : nat.
Variable progress_nil : bool.
Variable produces : string -> option CheckResult -> Prop.

Local Abbreviation reachable :=
  (dispatch_reachable urls concurrency result_cap progress_cap progress_nil produces).

(** X17. The semaphore bounds the parallelism: in every state of a run, the
    number of tasks between taking a slot and giving it back (the tasks
    that may be running a check) is at most [Concurrency], and 0 when
    [Concurrency] is not positive. *)
Theorem dispatcher_respects_concurrency (s : Dispatch) :
  reachable s ->
  Z.of_nat (sum_list_with holds_slot (tasks s)) <= Z.max concurrency 0
  /\ Z.of_nat (length (List.filter (fun t => match t with TCheck => true | _ => false end)
                         (tasks s))) <= Z.max concurrency 0.
Proof.
  intros Hreach.
  pose proof (dispatch_inv_reachable _ _ _ _ _ _ _ Hreach) as Hinv.
  pose proof (dispatch_slots_bound _ _ _ _ _ _ _ Hreach) as Hb.
  rewrite (inv_slots _ _ _ _ _ _ _ Hinv) in Hb. split; [exact Hb|].
  etransitivity; [|exact Hb]. apply inj_le.
  clear. induction (tasks s) as [|t l IH]; simpl; [lia|].
  destruct t; simpl; lia.
Qed.

(** X18. The completed counter is updated under mutual exclusion: in every
    state of a run at most one task is between [Lock] and [Unlock], the
    mutex is held exactly when there is one, and the counter is the number
    of tasks that have incremented it. *)
Theorem dispatcher_counter_is_exclusive (s : Dispatch) :
  reachable s ->
  (sum_list_with holds_mutex (tasks s) <= 1)%nat
  /\ (locked s = true <-> sum_list_with holds_mutex (tasks s) = 1%nat)
  /\ completed s = Z.of_nat (sum_list_with has_counted (tasks s))
  /\ 0 <= completed s <= Z.of_nat (length urls).
Proof.
  intros Hreach.
  pose proof (dispatch_inv_reachable _ _ _ _ _ _ _ Hreach) as Hinv.
  pose proof (inv_mutex _ _ _ _ _ _ _ Hinv) as Hm.
  pose proof (inv_completed _ _ _ _ _ _ _ Hinv) as Hc.
  split; [destruct (locked s); lia|].
  split; [destruct (locked s); split; intros; try lia; try reflexivity; discriminate|].
  split; [exact Hc|]. rewrite Hc, <- (inv_length _ _ _ _ _ _ _ Hinv).
  pose proof (sum_le_length has_counted (tasks s)) as Hle.
  split; [lia|]. apply inj_le, Hle. intros []; simpl; lia.
Qed.

End DispatcherBounds.

(** ** More on the statistics *)

Lemma CalculateStatistics_fields (results : list CheckResult) (totalDuration : Z) :
  results <> [] ->
  let ok := successful results in
  let rts := map ResponseTime ok in
  let lats := map Latency ok in
  exists avgR minR maxR avgL minL maxL,
    stats.timing (wrap64 (Zsum rts)) rts = (avgR, minR, maxR)
    /\ stats.timing (wrap64 (Zsum lats)) lats = (avgL, minL, maxL)
    /\ stats.CalculateStatistics (map Some results) totalDuration = Some {|
         stats.TotalRequests := Z.of_nat (length results);
         stats.SuccessCount := Z.of_nat (length ok);
         stats.FailureCount := Z.of_nat (length results) - Z.of_nat (length ok);
         stats.SuccessRate :=
           (stats.float64_of_int (Z.of_nat (length ok))
            / stats.float64_of_int (Z.of_nat (length results)) * 100)%float;
         stats.AvgResponseTime := avgR; stats.MinResponseTime := minR;
         stats.MaxResponseTime := maxR;
         stats.AvgLatency := avgL; stats.MinLatency := minL; stats.MaxLatency := maxL;
         stats.TotalDuration := totalDuration |}.
Proof.
  intros Hne ok rts lats. unfold stats.CalculateStatistics.
  destruct results as [|r0 results]; [congruence|].
  set (rs := r0 :: results) in *.
  replace (Z.of_nat (length (map Some rs)) =? 0) with false
    by (symmetry; apply Z.eqb_neq; rewrite length_map; simpl; lia).
  replace (Z.of_nat (length (map Some rs)) >? 0) with true
    by (symmetry; apply Z.gtb_lt; rewrite length_map; simpl; lia).
  rewrite tally_spec. fold ok. cbn [stats.successes stats.failures stats.totalResponseTime
    stats.totalLatency stats.successResponseTimes stats.successLatencies stats.tally0].
  fold rts lats. rewrite !app_nil_l, length_map, !Z.add_0_l.
  change 0 with (wrap64 0) at 1 2. rewrite !fold_Duration_add, !Z.add_0_l.
  destruct (stats.timing (wrap64 (Zsum rts)) rts) as [[avgR minR] maxR].
  destruct (stats.timing (wrap64 (Zsum lats)) lats) as [[avgL minL] maxL].
  exists avgR, minR, maxR, avgL, minL, maxL. auto.
Qed.

Lemma successful_Permutation rs1 rs2 :
  rs1 ≡ₚ rs2 -> successful rs1 ≡ₚ successful rs2.
Proof.
  unfold successful. induction 1 as [|x l l' _ IH|x y l|l l' l'' _ IH1 _ IH2]; simpl.
  - reflexivity.
  - destruct (Success x); [constructor|]; exact IH.
  - destruct (Success x), (Success y); try reflexivity. apply perm_swap.
  - etransitivity; eassumption.
Qed.

Lemma Zsum_Permutation l1 l2 : l1 ≡ₚ l2 -> Zsum l1 = Zsum l2.
Proof.
  unfold Zsum. induction 1 as [|x l l' _ IH|x y l|l l' l'' _ IH1 _ IH2]; simpl; lia.
Qed.

Lemma is_min_unique m1 m2 l : is_min m1 l -> is_min m2 l -> m1 = m2.
Proof. intros [H1 L1] [H2 L2]. specialize (L1 _ H2). specialize (L2 _ H1). lia. Qed.

Lemma is_max_unique m1 m2 l : is_max m1 l -> is_max m2 l -> m1 = m2.
Proof. intros [H1 L1] [H2 L2]. specialize (L1 _ H2). specialize (L2 _ H1). lia. Qed.

Lemma timing_Permutation total l1 l2 :
  l1 ≡ₚ l2 -> stats.timing total l1 = stats.timing total l2.
Proof.
  intros Hp. destruct l1 as [|x l1].
  { apply Permutation_nil_l in Hp. subst. reflexivity. }
  assert (Hne2 : l2 <> []).
  { intros ->. apply Permutation_nil_r in Hp. discriminate. }
  destruct (timing_spec total (x :: l1)) as (mn1 & mx1 & -> & [Hin1 Hmin1] & [Hix1 Hmax1]);
    [discriminate|].
  destruct (timing_spec total l2 Hne2) as (mn2 & mx2 & -> & Hmin2 & Hmax2).
  rewrite (Permutation_length Hp).
  assert (is_min mn1 l2) by (split; [rewrite <- Hp; exact Hin1 | intros y Hy; apply Hmin1; rewrite Hp; exact Hy]).
  assert (is_max mx1 l2) by (split; [rewrite <- Hp; exact Hix1 | intros y Hy; apply Hmax1; rewrite Hp; exact Hy]).
  rewrite (is_min_unique mn1 mn2 l2), (is_max_unique mx1 mx2 l2) by assumption.
  reflexivity.
Qed.

(** X19. The statistics do not depend on the order in which the results
    arrived: two result lists that are permutations of each other give the
    same [Statistics]. *)
Theorem statistics_ignore_order (rs1 rs2 : list CheckResult) (totalDuration : Z) :
  rs1 ≡ₚ rs2 ->
  stats.CalculateStatistics (map Some rs1) totalDuration
  = stats.CalculateStatistics (map Some rs2) totalDuration.
Proof.
  intros Hp. destruct rs1 as [|r rs1].
  { apply Permutation_nil_l in Hp. subst. reflexivity. }
  assert (Hne2 : rs2 <> []).
  { intros ->. apply Permutation_nil_r in Hp. discriminate. }
  destruct (CalculateStatistics_fields (r :: rs1) totalDuration ltac:(discriminate))
    as (a1 & b1 & c1 & d1 & e1 & f1 & Ht1 & Hu1 & ->).
  destruct (CalculateStatistics_fields rs2 totalDuration Hne2)
    as (a2 & b2 & c2 & d2 & e2 & f2 & Ht2 & Hu2 & ->).
  pose proof (successful_Permutation _ _ Hp) as Hok.
  assert (Hr : map ResponseTime (successful (r :: rs1)) ≡ₚ map ResponseTime (successful rs2))
    by (apply Permutation_map, Hok).
  assert (Hl : map Latency (successful (r :: rs1)) ≡ₚ map Latency (successful rs2))
    by (apply Permutation_map, Hok).
  rewrite (Zsum_Permutation _ _ Hr), (timing_Permutation _ _ _ Hr), Ht2 in Ht1.
  rewrite (Zsum_Permutation _ _ Hl), (timing_Permutation _ _ _ Hl), Hu2 in Hu1.
  inversion Ht1; inversion Hu1; subst.
  rewrite (Permutation_length Hp), (Permutation_length Hok). reflexivity.
Qed.

Lemma Zsum_bounds l mn mx :
  (forall x, x ∈ l -> mn <= x <= mx) ->
  Z.of_nat (length l) * mn <= Zsum l <= Z.of_nat (length l) * mx.
Proof.
  unfold Zsum. induction l as [|x l IH]; intros H; simpl length; simpl fold_right; [lia|].
  assert (mn <= x <= mx) by (apply H; left).
  assert (Z.of_nat (length l) * mn <= fold_right Z.add 0 l <= Z.of_nat (length l) * mx)
    by (apply IH; intros y Hy; apply H; right; exact Hy).
  lia.
Qed.

Lemma quot_between k s mn mx :
  0 < k -> k * mn <= s <= k * mx -> mn <= Z.quot s k <= mx.
Proof.
  intros Hk [Hlo Hhi]. destruct (Z.le_gt_cases 0 s) as [Hs|Hs].
  - rewrite Z.quot_div_nonneg by lia. split.
    + apply Z.div_le_lower_bound; lia.
    + apply Z.div_le_upper_bound; lia.
  - replace s with (- (- s)) by lia. rewrite Z.quot_opp_l by lia.
    rewrite Z.quot_div_nonneg by lia.
    assert (- mx <= (- s) / k) by (apply Z.div_le_lower_bound; lia).
    assert ((- s) / k <= - mn) by (apply Z.div_le_upper_bound; lia).
    lia.
Qed.

Lemma timing_between l :
  l <> [] -> in_int64 (Zsum l) ->
  exists avg mn mx,
    stats.timing (wrap64 (Zsum l)) l = (avg, mn, mx) /\ mn <= avg <= mx
    /\ avg = Z.quot (Zsum l) (Z.of_nat (length l)).
Proof.
  intros Hne Hin. destruct (timing_spec (wrap64 (Zsum l)) l Hne)
    as (mn & mx & Ht & [_ Hmin] & [_ Hmax]).
  rewrite wrap64_small in Ht by exact Hin.
  exists (Z.quot (Zsum l) (Z.of_nat (length l))), mn, mx.
  rewrite wrap64_small by exact Hin. split; [exact Ht|]. split; [|reflexivity].
  apply quot_between.
  - destruct l; [congruence | simpl; lia].
  - apply Zsum_bounds. intros x Hx. split; [apply Hmin | apply Hmax]; exact Hx.
Qed.

(** X20. When there is a success and the sums of the durations fit 64 bits,
    the averages are the truncated quotients of the sums and lie between
    the minimum and the maximum: Min <= Avg <= Max for the response time
    and for the latency. *)
Theorem average_lies_between_extremes (results : list CheckResult) (totalDuration : Z) :
  successful results <> [] ->
  in_int64 (Zsum (map ResponseTime (successful results))) ->
  in_int64 (Zsum (map Latency (successful results))) ->
  exists s,
    stats.CalculateStatistics (map Some results) totalDuration = Some s
    /\ stats.MinResponseTime s <= stats.AvgResponseTime s <= stats.MaxResponseTime s
    /\ stats.MinLatency s <= stats.AvgLatency s <= stats.MaxLatency s
    /\ stats.AvgResponseTime s
       = Z.quot (Zsum (map ResponseTime (successful results)))
                (Z.of_nat (length (successful results)))
    /\ stats.AvgLatency s
       = Z.quot (Zsum (map Latency (successful results)))
                (Z.of_nat (length (successful results))).
Proof.
  intros Hok HinR HinL.
  assert (Hne : results <> []) by (intros ->; apply Hok; reflexivity).
  destruct (CalculateStatistics_fields results totalDuration Hne)
    as (a1 & b1 & c1 & d1 & e1 & f1 & Ht1 & Hu1 & ->).
  destruct (timing_between (map ResponseTime (successful results)))
    as (avg & mn & mx & Ht & Hb & Havg);
    [destruct (successful results); [congruence | discriminate] | exact HinR |].
  destruct (timing_between (map Latency (successful results)))
    as (avg' & mn' & mx' & Ht' & Hb' & Havg');
    [destruct (successful results); [congruence | discriminate] | exact HinL |].
  rewrite Ht in Ht1. rewrite Ht' in Hu1. inversion Ht1; inversion Hu1; subst.
  eexists. split; [reflexivity|]. simpl.
  rewrite length_map in *. rewrite ?length_map. destruct Hb, Hb'.
  repeat split; first [assumption | reflexivity].
Qed.

(** X21. The handlers compute the statistics of what the dispatcher has
    sent: once the result stream is closed, if no check returned a nil
    result, [CalculateStatistics] on the stream does not panic, its total
    is the number of URLs of the batch, and successes and failures add up
    to it. *)
Theorem batch_statistics_count_every_url
    (urls : list string) (concurrency : Z) (result_cap progress_cap : nat)
    (progress_nil : bool)
    (produces : string -> option CheckResult -> Prop) (s : Dispatch) (totalDuration : Z) :
  dispatch_reachable urls concurrency result_cap progress_cap progress_nil produces s ->
  resultClosed s = true ->
  (forall u r, produces u r -> r <> None) ->
  exists st,
    stats.CalculateStatistics (resultChan s) totalDuration = Some st
    /\ stats.TotalRequests st = Z.of_nat (length urls)
    /\ stats.SuccessCount st + stats.FailureCount st = Z.of_nat (length urls).
Proof.
  intros Hreach Hclosed Hsome.
  pose proof (dispatch_inv_reachable _ _ _ _ _ _ _ Hreach) as Hinv.
  destruct (dispatch_closed_complete _ _ _ _ _ _ _ Hinv (or_introl Hclosed))
    as (_ & Hlen & _).
  assert (Hrs : exists rs, resultChan s = map Some rs).
  { pose proof (inv_results _ _ _ _ _ _ _ Hinv) as Hres.
    generalize (resultChan s) Hres. clear -Hsome.
    induction 1 as [|x l (u & _ & Hp) _ IH]; [exists []; reflexivity|].
    destruct IH as [rs ->]. destruct x as [r|]; [|exfalso; exact (Hsome _ _ Hp eq_refl)].
    exists (r :: rs). reflexivity. }
  destruct Hrs as [rs Hrs]. rewrite Hrs in *. rewrite length_map in Hlen.
  destruct rs as [|r rs].
  - exists stats.zeroStatistics. simpl in Hlen. rewrite <- Hlen. auto.
  - destruct (CalculateStatistics_fields (r :: rs) totalDuration ltac:(discriminate))
      as (a1 & b1 & c1 & d1 & e1 & f1 & _ & _ & ->).
    eexists. split; [reflexivity|]. simpl stats.TotalRequests.
    rewrite <- Hlen. split; [reflexivity|]. simpl. lia.
Qed.

(** ** The rotation of the history *)

Lemma insert_swap_head (a : list storage.fileInfo) : forall j x y,
  a !! j = Some y -> y :: <[j := x]> a ≡ₚ x :: a.
Proof.
  induction a as [|z a IH]; intros j x y H; [discriminate|].
  destruct j as [|j]; simpl in *.
  - inversion H; subst. apply perm_swap.
  - rewrite (perm_swap z y), (IH j x y H). apply perm_swap.
Qed.

Lemma swap_Permutation (a : list storage.fileInfo) : forall i j x y,
  a !! i = Some x -> a !! j = Some y -> <[j := x]> (<[i := y]> a) ≡ₚ a.
Proof.
  induction a as [|z a IH]; intros i j x y Hi Hj; [discriminate|].
  destruct i as [|i], j as [|j]; simpl in *.
  - inversion Hi; inversion Hj; subst. reflexivity.
  - inversion Hi; subst. apply insert_swap_head, Hj.
  - inversion Hj; subst. symmetry. rewrite <- (insert_swap_head a i y x Hi).
    reflexivity.
  - constructor. apply IH; assumption.
Qed.

Lemma swap_if_before_length a i j : length (storage.swap_if_before a i j) = length a.
Proof.
  unfold storage.swap_if_before. destruct (a !! i), (a !! j); try reflexivity.
  destruct (_ <? _); [rewrite !length_insert|]; reflexivity.
Qed.

Lemma swap_if_before_Permutation a i j : storage.swap_if_before a i j ≡ₚ a.
Proof.
  unfold storage.swap_if_before.
  destruct (a !! i) eqn:Hi, (a !! j) eqn:Hj; try reflexivity.
  destruct (_ <? _); [apply swap_Permutation; assumption | reflexivity].
Qed.

Lemma time_at_insert a i x p :
  (i < length a)%nat ->
  time_at (<[i := x]> a) p = if decide (i = p) then storage.modTime x else time_at a p.
Proof.
  intros Hi. unfold time_at. destruct (decide (i = p)) as [->|Hne].
  - rewrite list_lookup_insert_eq by exact Hi. reflexivity.
  - rewrite list_lookup_insert_ne by exact Hne. reflexivity.
Qed.

(** The times after one pass of the inner loop body. *)
Lemma time_at_swap a i j p :
  (i < j < length a)%nat ->
  time_at (storage.swap_if_before a i j) p =
  if decide (p = i) then Z.max (time_at a i) (time_at a j)
  else if decide (p = j) then Z.min (time_at a i) (time_at a j)
  else time_at a p.
Proof.
  intros Hij. unfold storage.swap_if_before.
  destruct (lookup_lt_is_Some_2 a i ltac:(lia)) as [x Hx].
  destruct (lookup_lt_is_Some_2 a j ltac:(lia)) as [y Hy].
  rewrite Hx, Hy.
  assert (Hti : time_at a i = storage.modTime x) by (unfold time_at; rewrite Hx; reflexivity).
  assert (Htj : time_at a j = storage.modTime y) by (unfold time_at; rewrite Hy; reflexivity).
  rewrite Hti, Htj.
  destruct (Z.ltb_spec (storage.modTime x) (storage.modTime y)).
  - rewrite !time_at_insert by (rewrite ?length_insert; lia).
    destruct (decide (p = i)), (decide (p = j)), (decide (j = p)), (decide (i = p));
      try lia; subst; try lia.
  - destruct (decide (p = i)), (decide (p = j)); subst; try lia.
Qed.

Lemma inner_loop_spec i : forall fuel a j,
  (i < j)%nat -> (length a <= j + fuel)%nat ->
  (forall q, (i < q < j)%nat -> time_at a q <= time_at a i) ->
  let a' := storage.inner_loop fuel a i j in
  length a' = length a /\ a' ≡ₚ a
  /\ (forall p, (p < i)%nat -> time_at a' p = time_at a p)
  /\ (forall q, (i < q < length a)%nat -> time_at a' q <= time_at a' i)
  /\ (forall q, (i <= q < length a)%nat ->
        exists q', (i <= q' < length a)%nat /\ time_at a' q = time_at a q').
Proof.
  induction fuel as [|fuel IH]; intros a j Hij Hfuel Hmax; simpl.
  - repeat split; auto. { intros q Hq. apply Hmax. lia. } intros q Hq. exists q. auto.
  - destruct (Nat.ltb_spec j (length a)) as [Hj|Hj].
    + destruct (IH (storage.swap_if_before a i j) (S j)) as (H1 & H2 & H3 & H4 & H5).
      * lia.
      * rewrite swap_if_before_length. lia.
      * intros q Hq. rewrite !time_at_swap by lia.
        destruct (decide (q = i)); [lia|]. destruct (decide (i = i)); [|lia].
        destruct (decide (q = j)); [lia|].
        assert (time_at a q <= time_at a i) by (apply Hmax; lia). lia.
      * rewrite swap_if_before_length in *.
        split; [exact H1|]. split; [rewrite H2; apply swap_if_before_Permutation|].
        split.
        { intros p Hp. rewrite H3 by exact Hp. rewrite time_at_swap by lia.
          destruct (decide (p = i)); [lia|]. destruct (decide (p = j)); [lia|]. reflexivity. }
        split; [exact H4|].
        intros q Hq. destruct (H5 q Hq) as (q' & Hq' & ->).
        rewrite time_at_swap by lia.
        destruct (decide (q' = i)) as [->|].
        { destruct (Z.max_spec (time_at a i) (time_at a j)) as [[_ ->]|[_ ->]];
            [exists j | exists i]; split; auto; lia. }
        destruct (decide (q' = j)) as [->|]; [|exists q'; auto].
        destruct (Z.min_spec (time_at a i) (time_at a j)) as [[_ ->]|[_ ->]];
          [exists i | exists j]; split; auto; lia.
    + repeat split; auto. { intros q Hq. apply Hmax. lia. } intros q Hq. exists q. auto.
Qed.

Lemma outer_loop_spec : forall fuel a i,
  (length a <= i + fuel)%nat ->
  (forall p q, (p < i)%nat -> (p < q < length a)%nat -> time_at a q <= time_at a p) ->
  let a' := storage.outer_loop fuel a i in
  length a' = length a /\ a' ≡ₚ a /\ newest_first a'.
Proof.
  induction fuel as [|fuel IH]; intros a i Hfuel Hinv; simpl.
  - repeat split; auto. intros p q Hpq. apply Hinv; lia.
  - destruct (Z.ltb_spec (Z.of_nat i) (Z.of_nat (length a) - 1)) as [Hi|Hi].
    + destruct (inner_loop_spec i (length a) a (S i)) as (H1 & H2 & H3 & H4 & H5);
        [lia | lia | intros q Hq; lia |].
      destruct (IH (storage.inner_loop (length a) a i (S i)) (S i)) as (I1 & I2 & I3).
      * rewrite H1. lia.
      * rewrite H1. intros p q Hp Hq.
        destruct (decide (p = i)) as [->|Hne]; [apply H4; lia|].
        rewrite (H3 p) by lia.
        destruct (Nat.lt_ge_cases q i) as [Hqi|Hqi].
        { rewrite (H3 q) by lia. apply Hinv; lia. }
        destruct (H5 q ltac:(lia)) as (q' & Hq' & ->). apply Hinv; lia.
      * split; [congruence|]. split; [rewrite I2; exact H2 | exact I3].
    + repeat split; auto. intros p q Hpq.
      destruct (decide (p < i)%nat); [apply Hinv; lia | lia].
Qed.

Lemma sortNewestFirst_spec (a : list storage.fileInfo) :
  storage.sortNewestFirst a ≡ₚ a
  /\ length (storage.sortNewestFirst a) = length a
  /\ newest_first (storage.sortNewestFirst a).
Proof.
  unfold storage.sortNewestFirst.
  destruct (outer_loop_spec (length a) a 0) as (H1 & H2 & H3); [lia | intros; lia |].
  auto.
Qed.

(** X22. The exchange sort of [cleanupOldResults] is correct: its result is a
    permutation of the files it was given and is ordered from the newest
    to the oldest modification time. *)
Theorem sortNewestFirst_sorts (a : list storage.fileInfo) :
  storage.sortNewestFirst a ≡ₚ a
  /\ length (storage.sortNewestFirst a) = length a
  /\ newest_first (storage.sortNewestFirst a).
Proof. exact (sortNewestFirst_spec a). Qed.

Lemma collect_fold files : forall acc,
  fold_left
    (fun fileInfos file =>
       if storage.IsDir file then fileInfos
       else match storage.Info file with
            | None => fileInfos
            | Some t => fileInfos ++ [{| storage.name := storage.Name file;
                                         storage.modTime := t |}]
            end) files acc
  = acc ++ storage.collect files.
Proof.
  unfold storage.collect. induction files as [|f files IH]; intros acc; simpl.
  - by rewrite app_nil_r.
  - rewrite IH. rewrite (IH (if storage.IsDir f then [] else _)).
    destruct (storage.IsDir f); [reflexivity|].
    destruct (storage.Info f); [|reflexivity]. rewrite app_assoc. reflexivity.
Qed.

Lemma collect_regular_files files x :
  x ∈ storage.collect files ->
  exists f, f ∈ files /\ storage.IsDir f = false
            /\ storage.Name f = storage.name x /\ storage.Info f = Some (storage.modTime x).
Proof.
  induction files as [|f files IH]; [intros H; inversion H|].
  unfold storage.collect. simpl. rewrite collect_fold. intros H.
  apply elem_of_app in H as [H|H].
  - destruct (storage.IsDir f) eqn:Hd; [inversion H|].
    destruct (storage.Info f) as [t|] eqn:Hi; [|inversion H].
    apply elem_of_cons in H as [->|H]; [|inversion H].
    exists f. simpl. repeat split; auto. left.
  - destruct (IH H) as (g & Hg & Hrest). exists g. split; [right; exact Hg | exact Hrest].
Qed.

Lemma remove_loop_spec remove_ok : forall fuel a i removed,
  (length a <= i + fuel)%nat ->
  exists rem err,
    storage.remove_loop fuel a i remove_ok removed = Some (removed ++ rem, err)
    /\ rem `prefix_of` map storage.name (drop i a)
    /\ Forall (fun n => remove_ok n = true) rem
    /\ (err = None -> rem = map storage.name (drop i a))
    /\ (forall n, err = Some n ->
          remove_ok n = false /\ map storage.name (drop i a) !! length rem = Some n).
Proof.
  induction fuel as [|fuel IH]; intros a i removed Hfuel; simpl.
  - exists [], None. rewrite app_nil_r, drop_ge by lia. repeat split; auto.
    intros; discriminate.
  - destruct (Nat.ltb_spec i (length a)) as [Hi|Hi].
    + destruct (lookup_lt_is_Some_2 a i Hi) as [f Hf]. rewrite Hf.
      rewrite (drop_S _ _ _ Hf). simpl.
      destruct (remove_ok (storage.name f)) eqn:Hok.
      * destruct (IH a (S i) (removed ++ [storage.name f])) as (rem & err & -> & Hp & Hall & Hn & He);
          [lia|].
        exists (storage.name f :: rem), err. rewrite <- app_assoc. simpl.
        split; [reflexivity|]. split; [apply prefix_cons, Hp|].
        split; [constructor; assumption|]. split; [intros H; rewrite (Hn H); reflexivity|].
        intros n H. destruct (He n H) as [H1 H2]. split; [exact H1 | exact H2].
      * exists [], (Some (storage.name f)). rewrite app_nil_r.
        split; [reflexivity|]. split; [apply prefix_nil|]. split; [constructor|].
        split; [discriminate|]. intros n H. inversion H; subst. auto.
    + exists [], None. rewrite app_nil_r, drop_ge by lia. repeat split; auto.
      intros; discriminate.
Qed.

(** X23. [cleanupOldResults] keeps the [keepCount] newest regular files and
    removes only older ones: with [keepCount >= 0] it removes, in order, the
    files that follow the first [keepCount] in the order newest first, up
    to the first one [os.Remove] fails on: every removal it reports has
    succeeded, the error it returns is that of the file that comes right
    after the removed ones, on which [os.Remove] failed, and without an
    error it has removed all of them; every file beyond the first
    [keepCount] is at most as new as every file among them; directories and
    entries without file info are never removed. *)
Theorem cleanup_removes_only_the_oldest
    (files : list storage.DirEntry) (keepCount : Z) (remove_ok : string -> bool) :
  0 <= keepCount ->
  let sorted := storage.sortNewestFirst (storage.collect files) in
  let k := Z.to_nat keepCount in
  exists removed err,
    storage.cleanupOldResults (inr files) keepCount remove_ok = Some (removed, err)
    /\ removed `prefix_of` map storage.name (drop k sorted)
    /\ Forall (fun n => remove_ok n = true) removed
    /\ (err = None -> removed = map storage.name (drop k sorted))
    /\ (forall n, err = Some n ->
          remove_ok n = false
          /\ map storage.name (drop k sorted) !! length removed = Some n)
    /\ (forall x y, x ∈ take k sorted -> y ∈ drop k sorted ->
          storage.modTime y <= storage.modTime x)
    /\ (forall n, n ∈ removed ->
          exists f, f ∈ files /\ storage.Name f = n /\ storage.IsDir f = false
                    /\ storage.Info f <> None).
Proof.
  intros Hk sorted k.
  destruct (sortNewestFirst_spec (storage.collect files)) as (Hperm & Hlen & Hsorted).
  fold sorted in Hperm, Hlen, Hsorted.
  assert (Hnew : forall x y, x ∈ take k sorted -> y ∈ drop k sorted ->
                   storage.modTime y <= storage.modTime x).
  { intros x y Hx Hy.
    apply list_elem_of_lookup in Hx as [p Hp]. apply list_elem_of_lookup in Hy as [q Hq].
    apply lookup_take_Some in Hp as [Hp Hpk]. rewrite lookup_drop in Hq.
    specialize (Hsorted p (k + q)%nat). unfold time_at in Hsorted. rewrite Hp, Hq in Hsorted.
    apply Hsorted. split; [lia|]. eapply lookup_lt_Some, Hq. }
  assert (Hfrom : forall rem, rem `prefix_of` map storage.name (drop k sorted) ->
            forall n, n ∈ rem ->
            exists f, f ∈ files /\ storage.Name f = n /\ storage.IsDir f = false
                      /\ storage.Info f <> None).
  { intros rem [rest Hrest] n Hn.
    assert (Hin : n ∈ map storage.name (drop k sorted))
      by (rewrite Hrest; apply elem_of_app; left; exact Hn).
    apply list_elem_of_fmap in Hin as (x & -> & Hx).
    assert (Hx' : x ∈ storage.collect files).
    { rewrite <- Hperm. eapply subseteq_drop, Hx. }
    destruct (collect_regular_files _ _ Hx') as (f & Hf & Hd & Hname & Hinfo).
    exists f. repeat split; auto. congruence. }
  unfold storage.cleanupOldResults. fold sorted.
  destruct (Z.gtb_spec (Z.of_nat (length sorted)) keepCount) as [Hgt|Hle].
  - destruct (Z.ltb_spec keepCount 0) as [|_]; [lia|].
    destruct (remove_loop_spec remove_ok (length sorted) sorted k [])
      as (rem & err & Hrun & Hp & Hall & Hn & He); [lia|].
    fold k. rewrite Hrun. simpl. exists rem, err.
    split; [reflexivity|]. split; [exact Hp|]. split; [exact Hall|]. split; [exact Hn|].
    split; [exact He|]. split; [exact Hnew | apply Hfrom, Hp].
  - exists [], None.
    split; [reflexivity|]. split; [apply prefix_nil|]. split; [constructor|].
    split; [intros _; rewrite drop_ge by lia; reflexivity|].
    split; [discriminate|]. split; [exact Hnew|]. intros n H. inversion H.
Qed.

(** X24. Within the quota nothing is removed: when there are at most
    [keepCount] regular files, [cleanupOldResults] calls [os.Remove] on
    none and reports no error. *)
Theorem cleanup_within_quota
    (files : list storage.DirEntry) (keepCount : Z) (remove_ok : string -> bool) :
  Z.of_nat (length (storage.collect files)) <= keepCount ->
  storage.cleanupOldResults (inr files) keepCount remove_ok = Some ([], None).
Proof.
  intros H. unfold storage.cleanupOldResults.
  destruct (sortNewestFirst_spec (storage.collect files)) as (_ & Hlen & _).
  rewrite Hlen. destruct (Z.gtb_spec (Z.of_nat (length (storage.collect files))) keepCount);
    [lia | reflexivity].
Qed.

(** X25. When every removal succeeds, what is left is the quota: of [n]
    regular files, [n - keepCount] are removed when [n > keepCount >= 0],
    and [keepCount] remain. *)
Theorem cleanup_leaves_quota
    (files : list storage.DirEntry) (keepCount : Z) (remove_ok : string -> bool) :
  0 <= keepCount < Z.of_nat (length (storage.collect files)) ->
  (forall n, remove_ok n = true) ->
  exists removed,
    storage.cleanupOldResults (inr files) keepCount remove_ok = Some (removed, None)
    /\ Z.of_nat (length removed) = Z.of_nat (length (storage.collect files)) - keepCount.
Proof.
  intros Hk Hok.
  destruct (sortNewestFirst_spec (storage.collect files)) as (_ & Hlen & _).
  unfold storage.cleanupOldResults.
  destruct (Z.gtb_spec (Z.of_nat (length (storage.sortNewestFirst (storage.collect files))))
              keepCount) as [_|]; [|lia].
  destruct (Z.ltb_spec keepCount 0) as [|_]; [lia|].
  destruct (remove_loop_spec remove_ok
              (length (storage.sortNewestFirst (storage.collect files)))
              (storage.sortNewestFirst (storage.collect files)) (Z.to_nat keepCount) [])
    as (rem & err & Hrun & _ & _ & Hn & He); [lia|].
  rewrite Hrun. simpl. destruct err as [n|].
  - destruct (He n eq_refl) as [Hf _]. rewrite Hok in Hf. discriminate.
  - exists rem. split; [reflexivity|]. rewrite (Hn eq_refl), length_map, length_drop, Hlen. lia.
Qed.

(** ** Witnesses of the further properties *)

Lemma waitForRateLimit_takes_one_permit_witness :
  exists k rl' tr',
    waitForRateLimit 3 (fun i => Nat.eqb i 1) 0 None {| limit := 1; count := 1 |} []
      = Some (rl', tr')
    /\ tr' = denied_polls None k ++ [EvAllow None true] /\ count rl' = 1.
Proof.
  destruct (waitForRateLimit_takes_one_permit 3 (fun i => Nat.eqb i 1) None
              {| limit := 1; count := 1 |} []
              {| limit := 1; count := 1 |}
              (denied_polls None 1 ++ [EvAllow None true])
              ltac:(simpl; lia) eq_refl) as (k & _ & Htr & _ & Hc).
  exists k, {| limit := 1; count := 1 |}, (denied_polls None 1 ++ [EvAllow None true]).
  split; [reflexivity|]. split; [exact Htr | reflexivity].
Defined.

Lemma nonpositive_global_rate_blocks_witness :
  CheckURL example_platform 50 env_ok example_url (fresh blocked_config) = None
  /\ CheckURLWithRetry example_platform 4 50 (fun _ => env_ok) example_url
       (fresh blocked_config) = None.
Proof.
  destruct (nonpositive_global_rate_blocks example_platform 50 4 env_ok (fun _ => env_ok)
              example_url blocked_config "example.com" ltac:(simpl; lia) eq_refl)
    as [H1 H2].
  split; [exact H1 | apply H2; simpl; lia].
Defined.

Lemma CheckURL_event_order_witness :
  exists kg kd r st',
    CheckURL example_platform 1 env_ok example_url (fresh DefaultConfig) = Some (r, st')
    /\ trace st' = denied_polls None kg ++ [EvAllow None true]
         ++ denied_polls (Some "example.com") kd ++ [EvAllow (Some "example.com") true]
         ++ [EvLookupHost "example.com"] ++ [EvHTTPDo example_url].
Proof.
  destruct (CheckURL example_platform 1 env_ok example_url (fresh DefaultConfig))
    as [[r st']|] eqn:Hrun; [|vm_compute in Hrun; discriminate].
  destruct (CheckURL_event_order example_platform 1 env_ok example_url
              (fresh DefaultConfig) r st' "example.com" Hrun eq_refl) as (kg & kd & Htr).
  exists kg, kd, r, st'. split; [reflexivity | exact Htr].
Defined.

Lemma CheckURL_registers_domain_witness :
  exists r st' rl,
    CheckURL example_platform 1 env_ok example_url (fresh DefaultConfig) = Some (r, st')
    /\ domainRate (checker st') !! "example.com" = Some rl /\ limit rl = 5.
Proof.
  destruct (CheckURL example_platform 1 env_ok example_url (fresh DefaultConfig))
    as [[r st']|] eqn:Hrun; [|vm_compute in Hrun; discriminate].
  destruct (CheckURL_registers_domain example_platform 1 env_ok example_url
              (fresh DefaultConfig) r st' "example.com" Hrun eq_refl)
    as ((rl & Hrl & Hlim) & _).
  exists r, st', rl. split; [reflexivity|]. split; [exact Hrl | exact Hlim].
Defined.

Lemma invalid_url_is_not_retried_witness :
  exists r,
    CheckURLWithRetry example_platform 4 0 (fun _ => env_ok) "http://[::1"
      (fresh DefaultConfig)
    = Some (Some r, {| checker := NewChecker DefaultConfig; trace := [EvAttempt r] |})
    /\ Error r = "invalid_url".
Proof.
  destruct (invalid_url_is_not_retried example_platform 3 0 (fun _ => env_ok)
              "http://[::1" (fresh DefaultConfig) "missing ']' in host" eq_refl
              ltac:(simpl; lia)) as (r & Hrun & He & _).
  exists r. split; [exact Hrun | exact He].
Defined.

Lemma third_redirect_is_refused_witness :
  exists err reqs,
    Client_Do example_chain "http://h/a" = Some (DoError err, reqs)
    /\ length reqs = 3%nat.
Proof. exact (third_redirect_is_refused example_chain "http://h/a" eq_refl). Defined.

Lemma example_one_slot_reachable :
  dispatch_reachable example_batch 1 2 2 false example_produces example_one_slot.
Proof.
  unfold dispatch_reachable.
  program_step ltac:(apply step_make).
  program_step ltac:(apply step_go).
  program_step ltac:(apply step_go).
  program_step ltac:(apply step_acquire with (i := 0%nat)).
  apply rtc_refl.
Qed.

Lemma dispatcher_respects_concurrency_witness :
  tasks example_one_slot = [TCheck; TAcquire]
  /\ Z.of_nat (sum_list_with holds_slot (tasks example_one_slot)) <= 1.
Proof.
  split; [reflexivity|].
  apply (dispatcher_respects_concurrency example_batch 1 2 2 false example_produces
           example_one_slot example_one_slot_reachable).
Defined.

Lemma dispatcher_counter_is_exclusive_witness :
  tasks example_midrun = [TProgress; TLock]
  /\ (sum_list_with holds_mutex (tasks example_midrun) <= 1)%nat
  /\ (locked example_midrun = true
      <-> sum_list_with holds_mutex (tasks example_midrun) = 1%nat)
  /\ completed example_midrun = 1.
Proof.
  destruct (dispatcher_counter_is_exclusive example_batch 2 2 2 false example_produces
              example_midrun example_midrun_reachable) as (H1 & H2 & H3 & _).
  split; [reflexivity|]. split; [exact H1|]. split; [exact H2 | exact H3].
Defined.

Lemma statistics_ignore_order_witness :
  stats.CalculateStatistics
    (map Some [result_of true (80 * Millisecond); result_of false (90 * Millisecond)])
    (3 * Second)
  = stats.CalculateStatistics
      (map Some [result_of false (90 * Millisecond); result_of true (80 * Millisecond)])
      (3 * Second).
Proof.
  apply (statistics_ignore_order
           [result_of true (80 * Millisecond); result_of false (90 * Millisecond)]
           [result_of false (90 * Millisecond); result_of true (80 * Millisecond)]).
  apply perm_swap.
Defined.

Lemma average_lies_between_extremes_witness :
  exists s,
    stats.CalculateStatistics
      (map Some [result_of true (80 * Millisecond); result_of true (95 * Millisecond);
                 result_of false (90 * Millisecond)]) (3 * Second) = Some s
    /\ stats.MinResponseTime s <= stats.AvgResponseTime s <= stats.MaxResponseTime s
    /\ stats.MinLatency s <= stats.AvgLatency s <= stats.MaxLatency s
    /\ stats.AvgResponseTime s = 87500000
    /\ stats.AvgLatency s = 92500000.
Proof.
  destruct (average_lies_between_extremes
              [result_of true (80 * Millisecond); result_of true (95 * Millisecond);
               result_of false (90 * Millisecond)] (3 * Second)
              ltac:(discriminate)
              ltac:(vm_compute; split; discriminate)
              ltac:(vm_compute; split; discriminate))
    as (s & Hrun & Hr & Hl & Havg & Havg').
  exists s. split; [exact Hrun|]. split; [exact Hr|]. split; [exact Hl|].
  split; [rewrite Havg | rewrite Havg']; reflexivity.
Defined.

Lemma example_finished_reachable :
  dispatch_reachable example_batch 1 2 2 false example_outcomes example_finished.
Proof.
  unfold dispatch_reachable.
  program_step ltac:(apply step_make).
  program_step ltac:(apply step_go).
  program_step ltac:(apply step_go).
  program_step ltac:(apply step_acquire with (i := 0%nat)).
  program_step ltac:(eapply step_check with (i := 0%nat)).
  program_step ltac:(eapply step_send with (i := 0%nat)).
  program_step ltac:(apply step_lock with (i := 0%nat)).
  program_step ltac:(apply step_count with (i := 0%nat)).
  program_step ltac:(apply step_progress with (i := 0%nat)).
  program_step ltac:(apply step_unlock with (i := 0%nat)).
  program_step ltac:(apply step_release with (i := 0%nat)).
  program_step ltac:(apply step_acquire with (i := 1%nat)).
  program_step ltac:(eapply step_check with (i := 1%nat)).
  program_step ltac:(eapply step_send with (i := 1%nat)).
  program_step ltac:(apply step_lock with (i := 1%nat)).
  program_step ltac:(apply step_count with (i := 1%nat)).
  program_step ltac:(apply step_progress with (i := 1%nat)).
  program_step ltac:(apply step_unlock with (i := 1%nat)).
  program_step ltac:(apply step_release with (i := 1%nat)).
  program_step ltac:(apply step_close_result).
  program_step ltac:(apply step_close_progress).
  apply rtc_refl.
Qed.

Lemma batch_statistics_count_every_url_witness :
  exists st,
    stats.CalculateStatistics (resultChan example_finished) (3 * Second) = Some st
    /\ stats.TotalRequests st = 2
    /\ stats.SuccessCount st + stats.FailureCount st = 2.
Proof.
  destruct (batch_statistics_count_every_url example_batch 1 2 2 false example_outcomes
              example_finished (3 * Second) example_finished_reachable eq_refl)
    as (st & Hrun & Ht & Hsum).
  - intros u r ->. discriminate.
  - exists st. split; [exact Hrun|]. split; [exact Ht | exact Hsum].
Defined.

Lemma cleanup_removes_only_the_oldest_witness :
  exists removed err,
    storage.cleanupOldResults (inr example_dir) 0
      (fun n => negb (String.eqb n "results_20240101_000000.json")) = Some (removed, err)
    /\ removed = ["results_20240103_000000.json"; "results_20240102_000000.json"]
    /\ err = Some "results_20240101_000000.json"
    /\ Forall (fun n => negb (String.eqb n "results_20240101_000000.json") = true) removed.
Proof.
  destruct (cleanup_removes_only_the_oldest example_dir 0
              (fun n => negb (String.eqb n "results_20240101_000000.json")) ltac:(lia))
    as (removed & err & Hrun & _ & Hall & _).
  exists removed, err. split; [exact Hrun|].
  vm_compute in Hrun. inversion Hrun; subst.
  split; [reflexivity|]. split; [reflexivity | exact Hall].
Defined.

Lemma cleanup_within_quota_witness :
  storage.cleanupOldResults (inr example_dir) 10 (fun _ => false) = Some ([], None).
Proof.
  apply (cleanup_within_quota example_dir 10 (fun _ => false)). vm_compute. discriminate.
Defined.

Lemma cleanup_leaves_quota_witness :
  exists removed,
    storage.cleanupOldResults (inr example_dir) 1 (fun _ => true) = Some (removed, None)
    /\ Z.of_nat (length removed) = 2.
Proof.
  destruct (cleanup_leaves_quota example_dir 1 (fun _ => true)
              ltac:(vm_compute; split; [discriminate | reflexivity])
              (fun _ => eq_refl)) as (removed & Hrun & Hlen).
  exists removed. split; [exact Hrun | exact Hlen].
Defined.

Example cleanup_example :
  storage.cleanupOldResults (inr example_dir) 2 (fun _ => true)
  = Some (["results_20240101_000000.json"], None).
Proof. reflexivity. Qed.

